(** * SmartRaiden: punish-request signing and the reconnecting chain client

    A shallow embedding of
    - [cmd/tools/contracttest/channel_punish_test.go]
      ([ObseleteUnlockForContract] and its [sign] method), and
    - [network/helper/safeethclient.go]
      ([SafeEthClient], [NewSafeClient], [RegisterReConnectNotify],
      [RecoverDisconnect] and the capability wrappers).

    Parts I to III are the model.  Part I lays out the bytes [sign]
    hands to the signing primitive.  Part II is the client as a state
    monad over the heap of clients and the store of channels, each
    function of the source written statement by statement; a call either
    returns, panics or waits.  Part III lets goroutines run such calls
    at the same time: every call is cut into the moves between which
    another goroutine may be scheduled.

    What lies outside the two source files is a parameter: the signing
    primitive [utils.SignData], the answers of [ethclient.Dial], the
    answers of the connection to the capability calls, and the order in
    which a [range] statement visits a map.  [sync.Mutex] and channels
    follow the Go language specification.

    Parts IV to IX are the proofs. *)

From Stdlib Require Import ZArith Lia.
From Stdlib.Strings Require Import Byte.
From stdpp Require Import gmap strings list fin_maps.

(** ** Outcomes of a Go call

    A Go function either returns to its caller, panics (unwinding the
    stack), or never returns because it waits on a mutex or a channel. *)
Inductive outcome (S A : Type) : Type :=
| Returned (a : A) (s : S)
| Panicked (msg : string) (s : S)
| Blocked (s : S).
Arguments Returned {S A} a s.
Arguments Panicked {S A} msg s.
Arguments Blocked {S A} s.

(** * Part I: the punish-request signature *)
Module Punish.

Local Open Scope Z_scope.

(** [byte(v)]: Go's conversion of an integer to a byte keeps the low 8 bits. *)
Definition byte_of_Z (z : Z) : byte :=
  match Byte.of_N (Z.to_N (z mod 256)) with
  | Some b => b
  | None => x00
  end.

Definition Z_of_byte (b : byte) : Z := Z.of_N (Byte.to_N b).

(** [binary.BigEndian]: the [n] low-order bytes of [x], most significant
    first: byte [i] is [byte(x >> 8*(n-1-i))]. *)
Fixpoint be_bytes (n : nat) (x : Z) : list byte :=
  match n with
  | O => []
  | Datatypes.S m => byte_of_Z (Z.shiftr x (8 * Z.of_nat m)) :: be_bytes m x
  end.

(** The integer a big-endian byte string denotes. *)
Definition be_value (bs : list byte) : Z :=
  fold_left (fun acc b => acc * 256 + Z_of_byte b) bs 0.

(** [common.Hash] is an array [[32]byte].  [contracts.ChannelIdentifier]
    is declared outside these sources; it is sliced like an array in
    [sign] and the spec gives the channel identifier 32 bytes, so it is
    held as one too. *)
Record Bytes32 := mkBytes32 {
  b32 : list byte;
  b32_len : length b32 = 32%nat
}.

(** [common.Address]: an array [[20]byte]. *)
Record Address := mkAddress {
  b20 : list byte;
  b20_len : length b20 = 20%nat
}.

(** [type ObseleteUnlockForContract struct].  [*big.Int] fields are
    integers, [OpenBlockNumber] is a [uint64] held as its value. *)
Record ObseleteUnlockForContract := {
  ChannelIdentifier : Bytes32;
  BeneficiaryAddress : Address;
  LockHash : Bytes32;
  BeneficiaryTransferredAmount : Z;
  BeneficiaryNonce : Z;
  AdditionalHash : Bytes32;
  TokenNetworkAddress : Address;
  ChainID : Z;
  OpenBlockNumber : Z;
  MerkleProof : list byte
}.

(** [w.TokenNetworkAddress = addr], the field [sign] leaves out. *)
Definition set_TokenNetworkAddress (addr : Address) (w : ObseleteUnlockForContract)
  : ObseleteUnlockForContract := {|
  ChannelIdentifier := ChannelIdentifier w;
  BeneficiaryAddress := BeneficiaryAddress w;
  LockHash := LockHash w;
  BeneficiaryTransferredAmount := BeneficiaryTransferredAmount w;
  BeneficiaryNonce := BeneficiaryNonce w;
  AdditionalHash := AdditionalHash w;
  TokenNetworkAddress := addr;
  ChainID := ChainID w;
  OpenBlockNumber := OpenBlockNumber w;
  MerkleProof := MerkleProof w
|}.

(** Modelled from the spec: [utils.BigIntTo32Bytes] is not part of the
    sources at hand; the chain identifier is laid out as a "32 bytes,
    big-endian integer". *)
Definition BigIntTo32Bytes (i : Z) : list byte := be_bytes 32 i.

(** The contents of [buf] when [sign] reaches [utils.SignData]: the four
    [buf.Write] calls and the [binary.Write] of the [uint64], in program
    order.  The write of [TokenNetworkAddress] is commented out in the
    source. *)
Definition sign_buf (w : ObseleteUnlockForContract) : list byte :=
  let buf := [] in
  let buf := buf ++ b32 (LockHash w) in
  let buf := buf ++ b32 (ChannelIdentifier w) in
  let buf := buf ++ be_bytes 8 (OpenBlockNumber w) in
  let buf := buf ++ BigIntTo32Bytes (ChainID w) in
  let buf := buf ++ b32 (AdditionalHash w) in
  buf.

Section Sign.
(** [*ecdsa.PrivateKey] and [utils.SignData] (hash the data, then sign
    the hash) live outside these sources; [SignData] yields a signature
    or an error. *)
Context {PrivateKey : Type}.
Variable SignData : PrivateKey -> list byte -> list byte + string.

(** [func (w *ObseleteUnlockForContract) sign(key) []byte]: the only
    value the Go signature can hand back is the signature; an error of
    [SignData] ends in [panic(err)]. *)
Definition sign (w : ObseleteUnlockForContract) (key : PrivateKey)
  : outcome unit (list byte) :=
  match SignData key (sign_buf w) with
  | inr err => Panicked err tt
  | inl sig => Returned sig tt
  end.
End Sign.

End Punish.

(** * Part II: the reconnecting chain client, one call at a time *)
Module Safe.

(** Heap addresses of [SafeEthClient] values, identities of channels made
    by [make(chan struct{}, n)], and handles of dialled [*ethclient.Client]
    connections. *)
Abbreviation ptr := nat (only parsing).
Abbreviation chan := nat (only parsing).
Abbreviation conn := nat (only parsing).

(** [type ConnectionStatus int] with its two constants; [ConnectionOk] is
    0, the zero value. *)
Inductive ConnectionStatus := ConnectionOk | ConnectionFailed.

(** [type SafeEthClient struct].  The embedded [*ethclient.Client] may be
    nil, [lock] is the state of the [sync.Mutex], and [ReConnect] is a Go
    map, nil until [make] has run. *)
Record SafeEthClient := mkSafeEthClient {
  Client : option conn;
  lock : bool;
  url : string;
  ReConnect : option (gmap string chan);
  Status : ConnectionStatus
}.

(** A [chan struct{}]: its capacity, the number of values waiting in its
    buffer, and whether [close] has run.  [sent] counts the values ever
    sent on the channel; Go keeps no such counter, it is carried along so
    that statements can speak of how many signals a channel was given. *)
Record chanst := mkChan {
  cap : nat;
  buffered : nat;
  closed : bool;
  sent : nat
}.

(** The part of the process state the client code touches. *)
Record World := mkWorld {
  clients : gmap ptr SafeEthClient;
  chans : gmap chan chanst
}.

Definition empty_world : World := mkWorld ∅ ∅.

(** ** A state monad with panics and blocking *)
Definition M (A : Type) : Type := World -> outcome World A.

Definition ret {A} (a : A) : M A := fun w => Returned a w.

Definition bind {A B} (m : M A) (k : A -> M B) : M B := fun w =>
  match m w with
  | Returned a w' => k a w'
  | Panicked msg w' => Panicked msg w'
  | Blocked w' => Blocked w'
  end.

Definition panic {A} (msg : string) : M A := fun w => Panicked msg w.

Notation "'let*' x := m 'in' k" := (bind m (fun x => k))
  (at level 10, x name, m at level 100, k at level 200, only parsing).

(** ** Memory and field updates *)
Definition nil_deref : string :=
  "runtime error: invalid memory address or nil pointer dereference".

Definition load (c : ptr) : M SafeEthClient := fun w =>
  match clients w !! c with
  | Some cl => Returned cl w
  | None => Panicked nil_deref w
  end.

Definition store (c : ptr) (cl : SafeEthClient) : M unit := fun w =>
  Returned tt (mkWorld (<[c := cl]> (clients w)) (chans w)).

Definition set_Client (k : option conn) (cl : SafeEthClient) :=
  mkSafeEthClient k (lock cl) (url cl) (ReConnect cl) (Status cl).
Definition set_lock (b : bool) (cl : SafeEthClient) :=
  mkSafeEthClient (Client cl) b (url cl) (ReConnect cl) (Status cl).
Definition set_url (u : string) (cl : SafeEthClient) :=
  mkSafeEthClient (Client cl) (lock cl) u (ReConnect cl) (Status cl).
Definition set_ReConnect (r : option (gmap string chan)) (cl : SafeEthClient) :=
  mkSafeEthClient (Client cl) (lock cl) (url cl) r (Status cl).
Definition set_Status (s : ConnectionStatus) (cl : SafeEthClient) :=
  mkSafeEthClient (Client cl) (lock cl) (url cl) (ReConnect cl) s.

(** [c.f = v] *)
Definition assign (c : ptr) (f : SafeEthClient -> SafeEthClient) : M unit :=
  let* cl := load c in store c (f cl).

(** ** [sync.Mutex] *)

(** [c.lock.Lock()]: waits while the mutex is held. *)
Definition Lock (c : ptr) : M unit := fun w =>
  match clients w !! c with
  | None => Panicked nil_deref w
  | Some cl => if lock cl then Blocked w else store c (set_lock true cl) w
  end.

(** [c.lock.Unlock()] *)
Definition Unlock (c : ptr) : M unit := fun w =>
  match clients w !! c with
  | None => Panicked nil_deref w
  | Some cl =>
      if lock cl then store c (set_lock false cl) w
      else Panicked "sync: unlock of unlocked mutex" w
  end.

(** [defer c.lock.Unlock()] around the rest of a function body: the
    mutex is released when the body returns and also when it panics. *)
Definition defer_Unlock {A} (c : ptr) (body : M A) : M A := fun w =>
  match body w with
  | Returned a w' => (let* _ := Unlock c in ret a) w'
  | Panicked msg w' => (let* _ := Unlock c in panic msg) w'
  | Blocked w' => Blocked w'
  end.

(** ** Channels *)

(** [make(chan struct{}, n)] *)
Definition make_chan (n : nat) : M chan := fun w =>
  let ch := fresh (dom (chans w)) in
  Returned ch (mkWorld (clients w) (<[ch := mkChan n 0 false 0]> (chans w))).

(** [ch <- struct{}{}] with no receiver waiting: the value goes into the
    buffer when there is room, the sender waits otherwise. *)
Definition chan_send (ch : chan) : M unit := fun w =>
  match chans w !! ch with
  | None => Blocked w
  | Some st =>
      if closed st then Panicked "send on closed channel" w
      else if buffered st <? cap st then
        Returned tt (mkWorld (clients w)
          (<[ch := mkChan (cap st) (Datatypes.S (buffered st)) false (Datatypes.S (sent st))]> (chans w)))
      else Blocked w
  end.

(** [close(ch)] *)
Definition chan_close (ch : chan) : M unit := fun w =>
  match chans w !! ch with
  | None => Panicked "close of nil channel" w
  | Some st =>
      if closed st then Panicked "close of closed channel" w
      else Returned tt (mkWorld (clients w)
             (<[ch := mkChan (cap st) (buffered st) true (sent st)]> (chans w)))
  end.

(** [_, ok := <-ch] on the receive-only end handed out by
    [RegisterReConnectNotify]: a buffered value if there is one, the zero
    value with [ok = false] once the channel is closed and drained. *)
Definition chan_recv (ch : chan) : M bool := fun w =>
  match chans w !! ch with
  | None => Blocked w
  | Some st =>
      match buffered st with
      | Datatypes.S n =>
          Returned true (mkWorld (clients w)
            (<[ch := mkChan (cap st) n (closed st) (sent st)]> (chans w)))
      | O => if closed st then Returned false w else Blocked w
      end
  end.

(** ** The client *)

(** What [ethclient.Dial] hands back: a connection, or [(nil, err)]. *)
Definition dial_result : Type := conn + string.

(** [new(SafeEthClient)]: a fresh address holding the zero value. *)
Definition zero_SafeEthClient : SafeEthClient :=
  mkSafeEthClient None false "" None ConnectionOk.

Definition new_SafeEthClient : M ptr := fun w =>
  let c := fresh (dom (clients w)) in
  Returned c (mkWorld (<[c := zero_SafeEthClient]> (clients w)) (chans w)).

(** [NewSafeClient(rawurl)], returning the client and the dial error; [d] is
    what [ethclient.Dial(rawurl)] answers. *)
Definition NewSafeClient (rawurl : string) (d : dial_result)
  : M (ptr * option string) :=
  let* c := new_SafeEthClient in
  let* _ := assign c (set_ReConnect (Some ∅)) in
  let* _ := assign c (set_url rawurl) in
  match d with
  | inl client =>
      let* _ := assign c (set_Client (Some client)) in
      let* _ := assign c (set_Status ConnectionOk) in
      ret (c, None)
  | inr err =>
      let* _ := assign c (set_Client None) in
      let* _ := assign c (set_Status ConnectionFailed) in
      ret (c, Some err)
  end.

(** [ch, ok := c.ReConnect[name]]; reading a nil map finds nothing. *)
Definition map_get (r : option (gmap string chan)) (name : string) : option chan :=
  match r with
  | Some m => m !! name
  | None => None
  end.

(** [c.ReConnect[name] = ch] *)
Definition map_set (c : ptr) (name : string) (ch : chan) : M unit :=
  let* cl := load c in
  match ReConnect cl with
  | Some m => store c (set_ReConnect (Some (<[name := ch]> m)) cl)
  | None => panic "assignment to entry in nil map"
  end.

(** [delete(c.ReConnect, name)]; a no-op on a nil map. *)
Definition map_delete (c : ptr) (name : string) : M unit :=
  let* cl := load c in
  match ReConnect cl with
  | Some m => store c (set_ReConnect (Some (delete name m)) cl)
  | None => ret tt
  end.

(** The body of [RegisterReConnectNotify] between [Lock] and the
    deferred [Unlock]. *)
Definition register_body (name : string) (c : ptr) : M chan :=
  let* cl := load c in
  match map_get (ReConnect cl) name with
  | Some ch => ret ch
  | None =>
      let* ch := make_chan 1 in
      let* _ := map_set c name ch in
      ret ch
  end.

(** [func (c *SafeEthClient) RegisterReConnectNotify(name string) <-chan struct{}] *)
Definition RegisterReConnectNotify (name : string) (c : ptr) : M chan :=
  let* _ := Lock c in
  defer_Unlock c (register_body name c).

(** The first loop of the critical section of [RecoverDisconnect]:
    [for name, c := range c.ReConnect { keys = append(keys, name); c <- struct{}{}; close(c) }]
    over the entries in the order the range statement visits them. *)
Fixpoint notify_loop (entries : list (string * chan)) (keys : list string)
  : M (list string) :=
  match entries with
  | [] => ret keys
  | (name, ch) :: rest =>
      let* _ := chan_send ch in
      let* _ := chan_close ch in
      notify_loop rest (keys ++ [name])
  end.

(** The second loop: [for _, name := range keys { delete(c.ReConnect, name) }]. *)
Fixpoint retire_loop (c : ptr) (keys : list string) : M unit :=
  match keys with
  | [] => ret tt
  | name :: rest => let* _ := map_delete c name in retire_loop c rest
  end.

(** The entries a [range] over the map visits; a nil map has none.  Go
    leaves the order unspecified: [range] is whatever order is taken. *)
Definition entries_of (range : gmap string chan -> list (string * chan))
  (r : option (gmap string chan)) : list (string * chan) :=
  match r with
  | Some m => range m
  | None => []
  end.

Definition notify_all (range : gmap string chan -> list (string * chan))
  (c : ptr) : M (list string) :=
  let* cl := load c in
  notify_loop (entries_of range (ReConnect cl)) [].

(** The branch of [RecoverDisconnect] taken once [ethclient.Dial]
    answered with [client]: [swap_in] runs up to and including
    [c.Client = client], the two loops and the [Unlock] follow. *)
Definition swap_in (client : conn) (c : ptr) : M unit :=
  let* _ := assign c (set_Status ConnectionOk) in
  let* _ := Lock c in
  assign c (set_Client (Some client)).

Definition reconnected (range : gmap string chan -> list (string * chan))
  (client : conn) (c : ptr) : M unit :=
  let* _ := swap_in client c in
  let* keys := notify_all range c in
  let* _ := retire_loop c keys in
  Unlock c.

(** The [for] loop of [RecoverDisconnect]; [dials] lists what the
    successive [ethclient.Dial(c.url)] calls answer, one per iteration.
    [None]: every listed attempt failed and the loop is still retrying. *)
Fixpoint reconnect_loop (range : gmap string chan -> list (string * chan))
  (dials : list dial_result) (c : ptr) (w : World)
  : option (outcome World unit) :=
  match dials with
  | [] => None
  | inr _ :: later => reconnect_loop range later c w
  | inl client :: _ => Some (reconnected range client c w)
  end.

(** [func (c *SafeEthClient) RecoverDisconnect()] *)
Definition RecoverDisconnect (range : gmap string chan -> list (string * chan))
  (dials : list dial_result) (c : ptr) (w : World)
  : option (outcome World unit) :=
  match assign c (set_Status ConnectionFailed) w with
  | Returned _ w' => reconnect_loop range dials c w'
  | Panicked msg w' => Some (Panicked msg w')
  | Blocked w' => Some (Blocked w')
  end.

(** The capability methods, [BlockByHash] through [SendTransaction]. *)
Inductive method :=
| BlockByHash | BlockByNumber | HeaderByHash | HeaderByNumber
| TransactionByHash | TransactionSender | TransactionCount
| TransactionInBlock | TransactionReceipt | SyncProgress
| SubscribeNewHead | NetworkID | BalanceAt | StorageAt | CodeAt | NonceAt
| FilterLogs | SubscribeFilterLogs | PendingBalanceAt | PendingStorageAt
| PendingCodeAt | PendingNonceAt | PendingTransactionCount | CallContract
| PendingCallContract | SuggestGasPrice | EstimateGas | SendTransaction.

(** The body every wrapper shares: [return c.Client.<m>(ctx, args...)].
    [rpc k m a] is what the connection [k] answers (results and error
    together); a nil [c.Client] cannot be called.  The library call is
    taken at its answer: a call that panics inside the library, or that
    the node keeps waiting, has no counterpart here, so nothing below
    says that a forwarded call comes back or how long it takes. *)
Definition forward {Args Result : Type}
  (rpc : conn -> method -> Args -> Result) (m : method) (a : Args) (c : ptr)
  : M Result :=
  let* cl := load c in
  match Client cl with
  | Some k => ret (rpc k m a)
  | None => panic nil_deref
  end.

(** [func (c *SafeEthClient) <m>(ctx, args...) (results, error)] *)
Definition wrapper {Args Result : Type}
  (rpc : conn -> method -> Args -> Result) (m : method) (a : Args) (c : ptr)
  : M Result :=
  let* _ := Lock c in
  defer_Unlock c (forward rpc m a c).

(** The connection [RecoverDisconnect] ends up with: the first
    successful answer among [dials], if there is one. *)
Fixpoint first_answer (dials : list dial_result) : option conn :=
  match dials with
  | [] => None
  | inl client :: _ => Some client
  | inr _ :: later => first_answer later
  end.

(** ** The worlds calls lead to *)

Definition world_of {A} (o : outcome World A) : World :=
  match o with
  | Returned _ w => w
  | Panicked _ w => w
  | Blocked w => w
  end.

(** A [range] over a map visits every entry once, in some order. *)
Definition visits_all (range : gmap string chan -> list (string * chan)) : Prop :=
  forall m, range m ≡ₚ map_to_list m.

(** The worlds a program reaches that creates clients with
    [NewSafeClient], calls their methods one after the other, and
    receives from the channels [RegisterReConnectNotify] handed out.
    [reach_retrying] is a [RecoverDisconnect] still in its dial loop. *)
Inductive reachable : World -> Prop :=
| reach_empty : reachable empty_world
| reach_New w rawurl d :
    reachable w -> reachable (world_of (NewSafeClient rawurl d w))
| reach_Register w name c :
    reachable w -> reachable (world_of (RegisterReConnectNotify name c w))
| reach_retrying w c :
    reachable w -> reachable (world_of (assign c (set_Status ConnectionFailed) w))
| reach_Recover w range dials c o :
    visits_all range -> reachable w ->
    RecoverDisconnect range dials c w = Some o -> reachable (world_of o)
| reach_wrapper (Args Result : Type) (rpc : conn -> method -> Args -> Result) w m a c :
    reachable w -> reachable (world_of (wrapper rpc m a c w))
| reach_recv w ch :
    reachable w -> reachable (world_of (chan_recv ch w)).

(** [name] is registered with client [c] and maps to channel [ch]. *)
Definition registered (w : World) (c : ptr) (name : string) (ch : chan) : Prop :=
  exists cl m, clients w !! c = Some cl /\ ReConnect cl = Some m /\ m !! name = Some ch.

(** A channel as [make(chan struct{}, 1)] leaves it, and after the one
    send and the [close] of [RecoverDisconnect]. *)
Definition pending_chan : chanst := mkChan 1 0 false 0.
Definition fired_chan : chanst := mkChan 1 1 true 1.

(** What holds of the registries between calls. *)
Record inv (w : World) : Prop := {
  inv_made : forall c cl, clients w !! c = Some cl -> is_Some (ReConnect cl);
  inv_unlocked : forall c cl, clients w !! c = Some cl -> lock cl = false;
  inv_pending : forall c name ch,
    registered w c name ch -> chans w !! ch = Some pending_chan;
  inv_inj : forall c1 n1 c2 n2 ch,
    registered w c1 n1 ch -> registered w c2 n2 ch -> c1 = c2 /\ n1 = n2
}.

(** The fields of a client other than its mutex. *)
Definition fields (cl : SafeEthClient)
  : option conn * string * option (gmap string chan) * ConnectionStatus :=
  (Client cl, url cl, ReConnect cl, Status cl).

End Safe.

(** * Part III: goroutines calling the client at the same time

    Each goroutine runs one call of the client's API.  A call is cut at
    every acquisition and release of the mutex and at every statement in
    between that touches shared state, and a scheduler picks which
    goroutine moves next. *)
Module Conc.
Import Safe.

Section Machine.
Context {Args Result : Type}.
Variable rpc : conn -> method -> Args -> Result.
Variable range : gmap string chan -> list (string * chan).

(** A call a goroutine issues. *)
Inductive call :=
| CallNew (rawurl : string)
| CallRegister (c : ptr) (name : string)
| CallRecover (c : ptr)
| CallWrapper (c : ptr) (m : method) (a : Args)
| CallRecv (ch : chan).

(** What the call handed back. *)
Inductive retval :=
| RetNew (c : ptr) (err : option string)
| RetChan (ch : chan)
| RetUnit
| RetResult (r : Result)
| RetRecv (ok : bool).

(** Where a goroutine stands.  The comments name the statement it runs
    next. *)
Inductive pc :=
| Start (k : call)
    (* the first statement of the call *)
| RegLocked (c : ptr) (name : string)
    (* RegisterReConnectNotify: ch, ok := c.ReConnect[name] ... *)
| RegUnlock (c : ptr) (r : chan + string)
    (* RegisterReConnectNotify: the deferred c.lock.Unlock() *)
| WrapLocked (c : ptr) (m : method) (a : Args)
    (* wrapper: c.Client.<m>(ctx, ...) *)
| WrapUnlock (c : ptr) (r : Result + string)
    (* wrapper: the deferred c.lock.Unlock() *)
| RecDial (c : ptr)
    (* RecoverDisconnect: client, err = ethclient.Dial(c.url) *)
| RecDialed (c : ptr) (client : conn)
    (* RecoverDisconnect: c.Status = ConnectionOk *)
| RecLock (c : ptr) (client : conn)
    (* RecoverDisconnect: c.lock.Lock() *)
| RecSwap (c : ptr) (client : conn)
    (* RecoverDisconnect: c.Client = client *)
| RecRange (c : ptr)
    (* RecoverDisconnect: for name, c := range c.ReConnect *)
| RecNotify (c : ptr) (entries : list (string * chan)) (keys : list string)
    (* RecoverDisconnect: one iteration of the first loop *)
| RecRetire (c : ptr) (keys : list string)
    (* RecoverDisconnect: one iteration of the second loop *)
| RecUnlock (c : ptr)
    (* RecoverDisconnect: c.lock.Unlock() *)
| Done (r : retval)
| Crashed (held : option ptr) (msg : string).
    (* panicked; [held] is the mutex the goroutine had taken and, no
       deferred Unlock being on its way out, left locked *)

(** The world and the goroutines, numbered in the order they started. *)
Record cstate := mkCState {
  world : World;
  threads : list pc
}.

Definition init : cstate := mkCState empty_world [].

(** The goroutine runs [m]; it does not move while [m] would wait.
    [held] is the mutex it keeps locked if [m] panics. *)
Definition exec {A} (held : option ptr) (m : M A) (k : A -> pc) (w : World)
  : option (pc * World) :=
  match m w with
  | Returned a w' => Some (k a, w')
  | Panicked msg w' => Some (Crashed held msg, w')
  | Blocked _ => None
  end.

(** The same for the body of a function that has deferred its
    [Unlock]: a panic still passes through the deferred call. *)
Definition exec_deferred {A} (m : M A) (k : A + string -> pc) (w : World)
  : option (pc * World) :=
  match m w with
  | Returned a w' => Some (k (inl a), w')
  | Panicked msg w' => Some (k (inr msg), w')
  | Blocked _ => None
  end.

(** One move of a goroutine standing at [p]; [d] is what
    [ethclient.Dial] answers if the move is a dial. *)
Definition step_pc (d : dial_result) (p : pc) (w : World) : option (pc * World) :=
  match p with
  | Start (CallNew rawurl) =>
      exec None (NewSafeClient rawurl d) (fun r => Done (RetNew r.1 r.2)) w
  | Start (CallRegister c name) =>
      exec None (Lock c) (fun _ => RegLocked c name) w
  | RegLocked c name =>
      exec_deferred (register_body name c) (RegUnlock c) w
  | RegUnlock c r =>
      exec None (Unlock c)
        (fun _ => match r with inl ch => Done (RetChan ch) | inr msg => Crashed None msg end) w
  | Start (CallWrapper c m a) =>
      exec None (Lock c) (fun _ => WrapLocked c m a) w
  | WrapLocked c m a =>
      exec_deferred (forward rpc m a c) (WrapUnlock c) w
  | WrapUnlock c r =>
      exec None (Unlock c)
        (fun _ => match r with inl x => Done (RetResult x) | inr msg => Crashed None msg end) w
  | Start (CallRecover c) =>
      exec None (assign c (set_Status ConnectionFailed)) (fun _ => RecDial c) w
  | RecDial c =>
      match d with
      | inr _ => Some (RecDial c, w)
      | inl client => Some (RecDialed c client, w)
      end
  | RecDialed c client =>
      exec None (assign c (set_Status ConnectionOk)) (fun _ => RecLock c client) w
  | RecLock c client =>
      exec None (Lock c) (fun _ => RecSwap c client) w
  | RecSwap c client =>
      exec (Some c) (assign c (set_Client (Some client))) (fun _ => RecRange c) w
  | RecRange c =>
      exec (Some c) (load c)
        (fun cl => RecNotify c (entries_of range (ReConnect cl)) []) w
  | RecNotify c [] keys =>
      Some (RecRetire c keys, w)
  | RecNotify c ((name, ch) :: rest) keys =>
      exec (Some c) (let* _ := chan_send ch in chan_close ch)
        (fun _ => RecNotify c rest (keys ++ [name])) w
  | RecRetire c [] =>
      Some (RecUnlock c, w)
  | RecRetire c (name :: rest) =>
      exec (Some c) (map_delete c name) (fun _ => RecRetire c rest) w
  | RecUnlock c =>
      exec None (Unlock c) (fun _ => Done RetUnit) w
  | Start (CallRecv ch) =>
      exec None (chan_recv ch) (fun ok => Done (RetRecv ok)) w
  | Done _ => None
  | Crashed _ _ => None
  end.

(** What the scheduler may do next. *)
Inductive label :=
| Go (k : call)                       (* a new goroutine issues [k] *)
| Run (t : nat) (d : dial_result).    (* goroutine [t] makes a move *)

Definition step (l : label) (s : cstate) : option cstate :=
  match l with
  | Go k => Some (mkCState (world s) (threads s ++ [Start k]))
  | Run t d =>
      match threads s !! t with
      | None => None
      | Some p =>
          match step_pc d p (world s) with
          | None => None
          | Some (p', w') => Some (mkCState w' (<[t := p']> (threads s)))
          end
      end
  end.

(** A whole schedule, stopping at the first move that cannot be made. *)
Fixpoint run (sched : list label) (s : cstate) : option cstate :=
  match sched with
  | [] => Some s
  | l :: rest =>
      match step l s with
      | Some s' => run rest s'
      | None => None
      end
  end.

(** The states some schedule leads to. *)
Inductive reachable : cstate -> Prop :=
| reach_init : reachable init
| reach_step l s s' : reachable s -> step l s = Some s' -> reachable s'.

(** The goroutines standing between a [Lock] and the matching [Unlock]
    of client [c]. *)
Definition holds (p : pc) : option ptr :=
  match p with
  | RegLocked c _ | RegUnlock c _ | WrapLocked c _ _ | WrapUnlock c _
  | RecSwap c _ | RecRange c | RecNotify c _ _ | RecRetire c _
  | RecUnlock c => Some c
  | Crashed held _ => held
  | _ => None
  end.

(** The client a goroutine's call is made on. *)
Definition target (p : pc) : option ptr :=
  match p with
  | Start (CallRegister c _) | Start (CallRecover c) | Start (CallWrapper c _ _)
  | RegLocked c _ | RegUnlock c _ | WrapLocked c _ _ | WrapUnlock c _
  | RecDial c | RecDialed c _ | RecLock c _ | RecSwap c _ | RecRange c
  | RecNotify c _ _ | RecRetire c _ | RecUnlock c => Some c
  | _ => None
  end.

(** The state of the mutex of client [c], if there is such a client. *)
Definition lock_of (w : World) (c : ptr) : option bool :=
  lock <$> clients w !! c.

(** Mutual exclusion: a goroutine between [Lock] and [Unlock] of a
    client finds its mutex locked, no two goroutines are there for the
    same client, and a locked mutex has a goroutine that locked it. *)
Record mutex_inv (s : cstate) : Prop := {
  held_locked : forall t p c,
    threads s !! t = Some p -> holds p = Some c ->
    lock_of (world s) c = Some true;
  held_once : forall t1 t2 p1 p2 c,
    threads s !! t1 = Some p1 -> threads s !! t2 = Some p2 ->
    holds p1 = Some c -> holds p2 = Some c -> t1 = t2;
  locked_held : forall c,
    lock_of (world s) c = Some true ->
    exists t p, threads s !! t = Some p /\ holds p = Some c
}.

(** A computation that makes no client and leaves the part [proj] of
    every client as it was; with [proj := lock] it neither takes nor
    releases a mutex. *)
Definition keeps {A B} (proj : SafeEthClient -> B) (m : M A) : Prop :=
  forall w c, proj <$> clients (world_of (m w)) !! c = proj <$> clients w !! c.

(** A computation that leaves every client but [c0] as it was. *)
Definition touches_only {A} (c0 : ptr) (m : M A) : Prop :=
  forall w c, c <> c0 -> clients (world_of (m w)) !! c = clients w !! c.

(** The connection and the registry: the fields the mutex guards. *)
Definition guarded (cl : SafeEthClient) : option conn * option (gmap string chan) :=
  (Client cl, ReConnect cl).

(** The three kinds of move: one that leaves the goroutine where it was
    with respect to the mutexes (clients may appear, unlocked), one that
    takes the free mutex of [c], one that gives the mutex of [c] back. *)
Definition stays (p p' : pc) (w w' : World) : Prop :=
  holds p' = holds p
  /\ forall c, lock_of w' c = lock_of w c
               \/ (lock_of w c = None /\ lock_of w' c = Some false).

Definition acquires (c : ptr) (p p' : pc) (w w' : World) : Prop :=
  holds p = None /\ holds p' = Some c
  /\ lock_of w c = Some false /\ lock_of w' c = Some true
  /\ forall c', c' <> c -> lock_of w' c' = lock_of w c'.

Definition releases (c : ptr) (p p' : pc) (w w' : World) : Prop :=
  holds p = Some c /\ holds p' = None
  /\ lock_of w' c = Some false
  /\ forall c', c' <> c -> lock_of w' c' = lock_of w c'.

(** The goroutines running a capability wrapper. *)
Definition in_wrapper (p : pc) : bool :=
  match p with
  | Start (CallWrapper _ _ _) | WrapLocked _ _ _ | WrapUnlock _ _ => true
  | _ => false
  end.

(** The goroutines inside [RecoverDisconnect] that have not yet stored
    the new connection: the reconnect of [c] is in progress. *)
Definition reconnecting (p : pc) : option ptr :=
  match p with
  | RecDial c | RecDialed c _ | RecLock c _ | RecSwap c _ => Some c
  | _ => None
  end.

(** The registry of client [c], if there is such a client and its map
    has been made. *)
Definition registry (w : World) (c : ptr) : option (gmap string chan) :=
  clients w !! c ≫= ReConnect.

(** A channel still as [make(chan struct{}, 1)] left it, and a channel
    that was sent its one signal and closed (a receiver may have taken
    the signal out of the buffer since). *)
Definition pending (w : World) (ch : chan) : Prop :=
  chans w !! ch = Some pending_chan.

Definition fired (w : World) (ch : chan) : Prop :=
  exists st, chans w !! ch = Some st
    /\ cap st = 1 /\ closed st = true /\ sent st = 1.

(** The goroutines inside the two loops of [RecoverDisconnect]. *)
Definition in_loops (p : pc) : option ptr :=
  match p with
  | RecNotify c _ _ | RecRetire c _ => Some c
  | _ => None
  end.

(** How far a goroutine inside [RecoverDisconnect] has come.  In the
    first loop the entries still to visit are in the registry and
    pending, and every other entry of the registry has its name among
    [keys] and its channel fired.  In the second loop every entry left
    in the registry has its name among the keys still to delete and its
    channel fired.  At the [Unlock] the registry is empty.  No goroutine
    has panicked between [Lock] and [Unlock]. *)
Definition loop_ok (w : World) (p : pc) : Prop :=
  match p with
  | RecNotify c entries keys =>
      exists m, registry w c = Some m /\ NoDup entries
        /\ (forall n ch, (n, ch) ∈ entries -> m !! n = Some ch /\ pending w ch)
        /\ (forall n ch, m !! n = Some ch ->
              (n, ch) ∈ entries \/ (n ∈ keys /\ fired w ch))
  | RecRetire c keys =>
      exists m, registry w c = Some m
        /\ forall n ch, m !! n = Some ch -> n ∈ keys /\ fired w ch
  | RecUnlock c => registry w c = Some ∅
  | Crashed (Some _) _ => False
  | _ => True
  end.

(** What holds of the registries while goroutines run: every client has
    its map, no channel is registered twice, and a registered channel is
    pending unless a goroutine is inside the loops of
    [RecoverDisconnect] for its client. *)
Record reg_inv (s : cstate) : Prop := {
  ri_made : forall c,
    is_Some (clients (world s) !! c) -> is_Some (registry (world s) c);
  ri_inj : forall c1 n1 c2 n2 ch,
    registered (world s) c1 n1 ch -> registered (world s) c2 n2 ch ->
    c1 = c2 /\ n1 = n2;
  ri_pending : forall c n ch,
    registered (world s) c n ch ->
    pending (world s) ch
    \/ exists t p, threads s !! t = Some p /\ in_loops p = Some c;
  ri_loops : forall t p, threads s !! t = Some p -> loop_ok (world s) p
}.

(** "A call issued while a reconnect is in progress blocks until a
    connection is restored": a goroutine about to start a wrapper on a
    client some [RecoverDisconnect] is still reconnecting cannot move. *)
Definition calls_wait_for_reconnect : Prop :=
  forall s t r c m a p d,
    reachable s ->
    threads s !! t = Some (Start (CallWrapper c m a)) ->
    threads s !! r = Some p -> reconnecting p = Some c ->
    step (Run t d) s = None.

(** What the client's own statements never leave behind: a goroutine
    that panicked with a mutex still locked, and a panic out of the body
    of [RegisterReConnectNotify].  (A panic out of a forwarded call is
    not one of them: it passes through the deferred [Unlock].) *)
Definition no_own_panic (p : pc) : Prop :=
  match p with
  | Crashed held _ => held = None
  | RegUnlock _ (inr _) => False
  | _ => True
  end.

(** The goroutine stands at the forwarded call [c.Client.<m>(ctx, ...)],
    the one statement under the mutex that runs code of the library. *)
Definition at_library_call (p : pc) : bool :=
  match p with
  | WrapLocked _ _ _ => true
  | _ => false
  end.

(** Goroutine [t] makes [n] moves in a row, the others none. *)
Definition alone (t : nat) (d : dial_result) (n : nat) : list label :=
  repeat (Run t d) n.

(** Goroutine [t], left to run alone, comes out of the section it is in
    under the mutex of [c] and leaves the mutex free. *)
Definition gives_back (t : nat) (d : dial_result) (c : ptr) (s : cstate) : Prop :=
  exists n s',
    run (alone t d n) s = Some s'
    /\ (exists p', threads s' !! t = Some p' /\ holds p' = None)
    /\ lock_of (world s') c = Some false.
End Machine.

End Conc.

(** * Inputs used to exercise the statements *)
Module Samples.
Import Punish.

Definition hash_of (b : byte) : Bytes32 := mkBytes32 (repeat b 32) eq_refl.
Definition address_of (b : byte) : Address := mkAddress (repeat b 20) eq_refl.

(** A punish request in the shape [TestChannelPunishRight] builds one:
    the two [*big.Int] fields the test leaves unset are held as 0. *)
Definition sample_unlock : ObseleteUnlockForContract := {|
  ChannelIdentifier := hash_of x11;
  BeneficiaryAddress := address_of x22;
  LockHash := hash_of x33;
  BeneficiaryTransferredAmount := 0;
  BeneficiaryNonce := 0;
  AdditionalHash := hash_of x00;
  TokenNetworkAddress := address_of x44;
  ChainID := 8888;
  OpenBlockNumber := 1234567;
  MerkleProof := []
|}.

(** A signing primitive that signs nothing and one that echoes its
    input, over keys that carry no information. *)
Definition refusing_SignData (_ : unit) (_ : list byte) : list byte + string :=
  inr "invalid private key".
Definition echo_SignData (_ : unit) (data : list byte) : list byte + string :=
  inl data.

Import Safe.

(** A client whose first dial was refused, then two registrations with
    it, then a second client that connected at once. *)
Definition w_new : World :=
  world_of (NewSafeClient "ws://127.0.0.1:8546" (inr "connection refused") empty_world).
Definition w_one : World := world_of (RegisterReConnectNotify "alarm" 0 w_new).
Definition w_two : World := world_of (RegisterReConnectNotify "chain" 0 w_one).
Definition w_pair : World :=
  world_of (NewSafeClient "ws://127.0.0.1:8547" (inl 7) w_two).

(** Two failed dials, then connection 9. *)
Definition third_time : list dial_result :=
  [inr "connection refused"; inr "connection refused"; inl 9].

Import Conc.

(** A chain that answers every call with the connection and the method
    it was asked on. *)
Definition echo_rpc (k : conn) (m : method) (_ : unit) : conn * method := (k, m).

(** Goroutine 0 makes a client on connection 5.  Goroutine 1 starts
    [RecoverDisconnect] on it and its first dial is refused.  Goroutine
    2 then calls [BlockByHash] and runs it to the end.  (The answer
    given with [Run] matters only to a move that dials.) *)
Definition call_while_dialing : list (@label unit) :=
  [ Go (CallNew "ws://127.0.0.1:8546"); Run 0 (inl 5);
    Go (CallRecover 0); Run 1 (inl 0); Run 1 (inr "connection refused");
    Go (CallWrapper 0 BlockByHash tt) ].

Definition wrapper_to_the_end : list (@label unit) :=
  [ Run 2 (inl 0); Run 2 (inl 0); Run 2 (inl 0) ].

(** The same, with goroutine 2 stopped inside the wrapper, the mutex
    taken. *)
Definition wrapper_inside : list (@label unit) :=
  call_while_dialing ++ [ Run 2 (inl 0) ].

(** A name is registered with a client, and a second goroutine that
    registers the same name has taken the mutex. *)
Definition register_again : list (@label unit) :=
  [ Go (CallNew "ws://127.0.0.1:8546"); Run 0 (inl 5);
    Go (CallRegister 0 "alarm"); Run 1 (inl 0); Run 1 (inl 0); Run 1 (inl 0);
    Go (CallRegister 0 "alarm"); Run 2 (inl 0) ].

(** Two names are registered with a client; [RecoverDisconnect] then
    connects at its second dial, takes the mutex, stores connection 9
    and begins its first loop. *)
Definition until_notify : list (@label unit) :=
  [ Go (CallNew "ws://127.0.0.1:8546"); Run 0 (inl 5);
    Go (CallRegister 0 "alarm"); Run 1 (inl 0); Run 1 (inl 0); Run 1 (inl 0);
    Go (CallRegister 0 "chain"); Run 2 (inl 0); Run 2 (inl 0); Run 2 (inl 0);
    Go (CallRecover 0); Run 3 (inl 0); Run 3 (inr "connection refused");
    Run 3 (inl 9); Run 3 (inl 0); Run 3 (inl 0); Run 3 (inl 0); Run 3 (inl 0) ].

(** A client whose first dial was refused; a goroutine then calls
    [BlockByHash] on it and runs to the end. *)
Definition call_unconnected : list (@label unit) :=
  [ Go (CallNew "ws://127.0.0.1:8546"); Run 0 (inr "connection refused");
    Go (CallWrapper 0 BlockByHash tt);
    Run 1 (inl 0); Run 1 (inl 0); Run 1 (inl 0) ].

(** A [range] that visits the entries the other way round. *)
Definition backwards (m : gmap string chan) : list (string * chan) :=
  reverse (map_to_list m).

(** The state a schedule leads to from the initial one. *)
Definition state_after (sched : list (@label unit)) : @cstate unit (conn * method) :=
  default init (run echo_rpc map_to_list sched init).

End Samples.

(** * Part IV: the punish-request signature, proved *)
Section PunishFacts.
Import Punish.
Local Open Scope Z_scope.

Lemma Z_of_byte_of_Z z : Z_of_byte (byte_of_Z z) = z mod 256.
Proof.
  unfold Z_of_byte, byte_of_Z.
  assert (Hr : 0 <= z mod 256 < 256) by (apply Z.mod_pos_bound; lia).
  destruct (Byte.of_N (Z.to_N (z mod 256))) as [b|] eqn:E.
  - apply Byte.to_of_N in E. rewrite E. lia.
  - apply Byte.of_N_None_iff in E. lia.
Qed.

Lemma be_bytes_length n x : length (be_bytes n x) = n.
Proof. induction n as [|n IH]; simpl; [reflexivity | now rewrite IH]. Qed.

Lemma be_fold_acc (bs : list byte) (acc : Z) :
  fold_left (fun a b => a * 256 + Z_of_byte b) bs acc
  = acc * 256 ^ Z.of_nat (length bs) + be_value bs.
Proof.
  unfold be_value. revert acc.
  induction bs as [|b bs IH]; intros acc; simpl fold_left.
  - simpl. lia.
  - rewrite IH, (IH (0 * 256 + _)).
    replace (Z.of_nat (length (b :: bs))) with (1 + Z.of_nat (length bs))
      by (simpl length; lia).
    rewrite Z.pow_add_r by lia. lia.
Qed.

(** Reading back the [n] bytes gives the value modulo [256^n]. *)
Lemma be_value_be_bytes n x :
  be_value (be_bytes n x) = x mod 256 ^ Z.of_nat n.
Proof.
  induction n as [|n IH].
  - simpl. now rewrite Z.mod_1_r.
  - change (be_bytes (Datatypes.S n) x)
      with (byte_of_Z (Z.shiftr x (8 * Z.of_nat n)) :: be_bytes n x).
    unfold be_value. simpl fold_left.
    rewrite be_fold_acc, be_bytes_length, IH, Z_of_byte_of_Z.
    rewrite Z.shiftr_div_pow2 by lia.
    replace (2 ^ (8 * Z.of_nat n)) with (256 ^ Z.of_nat n)
      by (rewrite Z.pow_mul_r by lia; reflexivity).
    replace (Z.of_nat (Datatypes.S n)) with (Z.of_nat n + 1) by lia.
    rewrite Z.pow_add_r by lia. change (256 ^ 1) with 256.
    assert (Hp : 0 < 256 ^ Z.of_nat n) by (apply Z.pow_pos_nonneg; lia).
    rewrite (Z.rem_mul_r x (256 ^ Z.of_nat n) 256) by lia.
    lia.
Qed.

Lemma be_roundtrip n x :
  0 <= x < 256 ^ Z.of_nat n -> be_value (be_bytes n x) = x.
Proof. intros H. rewrite be_value_be_bytes. now apply Z.mod_small. Qed.

Example be_bytes_of_block_number :
  be_bytes 8 1234567 = [x00; x00; x00; x00; x00; x12; xd6; x87].
Proof. reflexivity. Qed.

Example BigIntTo32Bytes_of_chain_id :
  BigIntTo32Bytes 8888 = repeat x00 30 ++ [x22; xb8].
Proof. reflexivity. Qed.

Example be_bytes_truncates : be_bytes 2 65537 = [x00; x01].
Proof. reflexivity. Qed.

(** The five segments of the signed data, as lists of bytes. *)
Lemma sign_buf_segments w :
  sign_buf w =
    b32 (LockHash w) ++ b32 (ChannelIdentifier w)
    ++ be_bytes 8 (OpenBlockNumber w)
    ++ be_bytes 32 (ChainID w) ++ b32 (AdditionalHash w).
Proof.
  unfold sign_buf, BigIntTo32Bytes. cbn [app].
  now rewrite <- !app_assoc.
Qed.

(** C1: the bytes [sign] hands to [utils.SignData] are the lock hash
    (32 bytes), the channel identifier (32 bytes), the open block number
    (8 bytes, big-endian), the chain identifier (32 bytes, big-endian)
    and the additional hash (32 bytes), in that order, 136 bytes in all;
    nothing else enters them: two requests that agree on these five
    fields are signed over the same bytes, whatever their token network
    address and other fields. *)
Theorem sign_canonical_layout
  (PrivateKey : Type) (SignData : PrivateKey -> list byte -> list byte + string)
  (w : ObseleteUnlockForContract) (key : PrivateKey)
  (Hblock : 0 <= OpenBlockNumber w < 2 ^ 64)
  (Hchain : 0 <= ChainID w < 2 ^ 256) :
  let block := be_bytes 8 (OpenBlockNumber w) in
  let chain := be_bytes 32 (ChainID w) in
  let data :=
    b32 (LockHash w) ++ b32 (ChannelIdentifier w) ++ block ++ chain
    ++ b32 (AdditionalHash w) in
  sign SignData w key =
    match SignData key data with
    | inl sig => Returned sig tt
    | inr err => Panicked err tt
    end
  /\ length (b32 (LockHash w)) = 32%nat
  /\ length (b32 (ChannelIdentifier w)) = 32%nat
  /\ (length block = 8%nat /\ be_value block = OpenBlockNumber w)
  /\ (length chain = 32%nat /\ be_value chain = ChainID w)
  /\ length (b32 (AdditionalHash w)) = 32%nat
  /\ length data = 136%nat
  /\ (forall w' : ObseleteUnlockForContract,
        LockHash w' = LockHash w ->
        ChannelIdentifier w' = ChannelIdentifier w ->
        OpenBlockNumber w' = OpenBlockNumber w ->
        ChainID w' = ChainID w ->
        AdditionalHash w' = AdditionalHash w ->
        sign SignData w' key = sign SignData w key)
  /\ forall addr : Address,
       sign SignData (set_TokenNetworkAddress addr w) key = sign SignData w key.
Proof.
  intros block chain data.
  assert (Hbuf : sign_buf w = data) by apply sign_buf_segments.
  repeat apply conj.
  - unfold sign. rewrite Hbuf. now destruct (SignData key data).
  - apply b32_len.
  - apply b32_len.
  - apply be_bytes_length.
  - apply be_roundtrip. exact Hblock.
  - apply be_bytes_length.
  - apply be_roundtrip. exact Hchain.
  - apply b32_len.
  - subst data block chain.
    rewrite !length_app, !be_bytes_length, !b32_len. reflexivity.
  - intros w' H1 H2 H3 H4 H5. unfold sign.
    rewrite (sign_buf_segments w'), (sign_buf_segments w).
    now rewrite H1, H2, H3, H4, H5.
  - intros addr. reflexivity.
Qed.

Lemma sign_canonical_layout_witness :
  (0 <= OpenBlockNumber Samples.sample_unlock < 2 ^ 64)
  /\ (0 <= ChainID Samples.sample_unlock < 2 ^ 256)
  /\ length (sign_buf Samples.sample_unlock) = 136%nat.
Proof.
  assert (Hb : 0 <= OpenBlockNumber Samples.sample_unlock < 2 ^ 64)
    by (simpl; lia).
  assert (Hc : 0 <= ChainID Samples.sample_unlock < 2 ^ 256)
    by (simpl; lia).
  split; [exact Hb | split; [exact Hc |]].
  rewrite sign_buf_segments.
  destruct (sign_canonical_layout unit Samples.echo_SignData
              Samples.sample_unlock tt Hb Hc)
    as (_ & _ & _ & _ & _ & _ & Hlen & _ & _).
  exact Hlen.
Defined.

(** C6, as the code has it: when [utils.SignData] fails, [sign] does not
    return to its caller; it panics with that very error.  When signing
    succeeds [sign] returns the signature [utils.SignData] made, and
    does not panic. *)
Theorem sign_failure_panics
  (PrivateKey : Type) (SignData : PrivateKey -> list byte -> list byte + string)
  (w : ObseleteUnlockForContract) (key : PrivateKey) :
  (forall err, SignData key (sign_buf w) = inr err ->
     sign SignData w key = Panicked err tt
     /\ forall r, sign SignData w key <> Returned r tt)
  /\ (forall sig, SignData key (sign_buf w) = inl sig ->
        sign SignData w key = Returned sig tt
        /\ forall msg, sign SignData w key <> Panicked msg tt).
Proof.
  split.
  - intros err Hfail. unfold sign. rewrite Hfail. split; [reflexivity | discriminate].
  - intros sig Hsigned. unfold sign. rewrite Hsigned.
    split; [reflexivity | discriminate].
Qed.

Lemma sign_failure_panics_witness :
  sign Samples.refusing_SignData Samples.sample_unlock tt
  = Panicked "invalid private key" tt
  /\ sign Samples.echo_SignData Samples.sample_unlock tt
     = Returned (sign_buf Samples.sample_unlock) tt.
Proof.
  split.
  - exact (proj1 (proj1 (sign_failure_panics unit Samples.refusing_SignData
                           Samples.sample_unlock tt)
                    "invalid private key" eq_refl)).
  - exact (proj1 (proj2 (sign_failure_panics unit Samples.echo_SignData
                           Samples.sample_unlock tt)
                    (sign_buf Samples.sample_unlock) eq_refl)).
Defined.

(** C6, as claimed, fails: on an input on which the signing primitive
    fails, [sign] hands nothing back to its caller. *)
Lemma sign_failure_not_returned :
  Samples.refusing_SignData tt (sign_buf Samples.sample_unlock)
    = inr "invalid private key"
  /\ sign Samples.refusing_SignData Samples.sample_unlock tt
    = Panicked "invalid private key" tt
  /\ ~ (exists r, sign Samples.refusing_SignData Samples.sample_unlock tt
                  = Returned r tt).
Proof.
  split; [reflexivity | split; [reflexivity |]].
  intros [r Hr]. discriminate Hr.
Qed.

End PunishFacts.

(** * Part V: one call at a time, proved *)
Section SafeFacts.
Import Safe.

(** ** The primitive operations *)

Lemma world_eta w : mkWorld (clients w) (chans w) = w.
Proof. now destruct w. Qed.

Lemma set_lock_id cl : set_lock (lock cl) cl = cl.
Proof. now destruct cl. Qed.

Lemma load_Some w c cl : clients w !! c = Some cl -> load c w = Returned cl w.
Proof. intros H. unfold load. now rewrite H. Qed.

Lemma load_None {A} w c (k : SafeEthClient -> M A) :
  clients w !! c = None -> bind (load c) k w = Panicked nil_deref w.
Proof. intros H. unfold bind, load. now rewrite H. Qed.

Lemma assign_Some w c cl f :
  clients w !! c = Some cl ->
  assign c f w = Returned tt (mkWorld (<[c := f cl]> (clients w)) (chans w)).
Proof. intros H. unfold assign, bind. now rewrite (load_Some _ _ _ H). Qed.

Lemma assign_None w c f :
  clients w !! c = None -> assign c f w = Panicked nil_deref w.
Proof. intros H. unfold assign. now apply load_None. Qed.

Lemma Lock_free w c cl :
  clients w !! c = Some cl -> lock cl = false ->
  Lock c w = Returned tt (mkWorld (<[c := set_lock true cl]> (clients w)) (chans w)).
Proof. intros H Hl. unfold Lock. now rewrite H, Hl. Qed.

Lemma Unlock_held w c cl :
  clients w !! c = Some cl -> lock cl = true ->
  Unlock c w = Returned tt (mkWorld (<[c := set_lock false cl]> (clients w)) (chans w)).
Proof. intros H Hl. unfold Unlock. now rewrite H, Hl. Qed.

(** Taking the mutex and releasing it again leaves the world as it was. *)
Lemma unlock_after_lock w c cl :
  clients w !! c = Some cl -> lock cl = false ->
  Unlock c (mkWorld (<[c := set_lock true cl]> (clients w)) (chans w))
  = Returned tt w.
Proof.
  intros H Hl.
  erewrite Unlock_held; [| cbn; apply lookup_insert_eq | reflexivity].
  cbn. rewrite insert_insert_eq.
  replace (set_lock false (set_lock true cl)) with cl
    by (destruct cl; cbn in *; now subst).
  now rewrite insert_id, world_eta.
Qed.

(** ** What "registered" means after an update of the heap *)

Lemma registered_chans cs chs chs' c name ch :
  registered (mkWorld cs chs) c name ch -> registered (mkWorld cs chs') c name ch.
Proof. now intros (cl & m & ? & ? & ?); exists cl, m. Qed.

Lemma registered_insert cs chs c cl' c' name ch :
  registered (mkWorld (<[c := cl']> cs) chs) c' name ch <->
  (c' = c /\ map_get (ReConnect cl') name = Some ch)
  \/ (c' <> c /\ registered (mkWorld cs chs) c' name ch).
Proof.
  unfold registered; cbn. split.
  - intros (cl & m & Hc & Hm & Hn).
    destruct (decide (c' = c)) as [->|Hne].
    + rewrite lookup_insert_eq in Hc. injection Hc as <-.
      left. split; [reflexivity|]. unfold map_get. now rewrite Hm.
    + rewrite lookup_insert_ne in Hc by congruence.
      right. split; [assumption|]. now exists cl, m.
  - intros [[-> Hg] | [Hne (cl & m & Hc & Hm & Hn)]].
    + unfold map_get in Hg. destruct (ReConnect cl') as [m|] eqn:E; [|discriminate].
      exists cl', m. now rewrite lookup_insert_eq.
    + exists cl, m. rewrite lookup_insert_ne by congruence. now repeat split.
Qed.

Lemma registered_get w c cl name ch :
  clients w !! c = Some cl ->
  registered w c name ch <-> map_get (ReConnect cl) name = Some ch.
Proof.
  intros Hc. unfold registered, map_get. split.
  - intros (cl' & m & Hc' & Hm & Hn). rewrite Hc in Hc'. injection Hc' as <-.
    now rewrite Hm.
  - destruct (ReConnect cl) as [m|] eqn:E; [|discriminate].
    intros Hn. now exists cl, m.
Qed.

(** Changing fields other than the registry leaves registrations alone. *)
Lemma registered_same_registry cs chs c cl cl' c' name ch :
  cs !! c = Some cl -> ReConnect cl' = ReConnect cl ->
  registered (mkWorld (<[c := cl']> cs) chs) c' name ch
  <-> registered (mkWorld cs chs) c' name ch.
Proof.
  intros Hc Hr. rewrite registered_insert. split.
  - intros [[-> Hg] | [_ H]]; [|exact H].
    rewrite Hr in Hg. now apply (registered_get (mkWorld cs chs) c cl).
  - intros H. destruct (decide (c' = c)) as [->|Hne]; [left | now right].
    split; [reflexivity|]. rewrite Hr.
    now apply (registered_get (mkWorld cs chs) c cl).
Qed.


(** ** [RegisterReConnectNotify] *)

Lemma Register_nil w name c :
  clients w !! c = None ->
  RegisterReConnectNotify name c w = Panicked nil_deref w.
Proof. intros H. unfold RegisterReConnectNotify, bind, Lock. now rewrite H. Qed.

Lemma Register_waits w name c cl :
  clients w !! c = Some cl -> lock cl = true ->
  RegisterReConnectNotify name c w = Blocked w.
Proof. intros H Hl. unfold RegisterReConnectNotify, bind, Lock. now rewrite H, Hl. Qed.

(** A name already in the registry: its channel comes back and nothing
    changes. *)
Lemma Register_known w name c cl ch :
  clients w !! c = Some cl -> lock cl = false ->
  map_get (ReConnect cl) name = Some ch ->
  RegisterReConnectNotify name c w = Returned ch w.
Proof.
  intros Hc Hl Hg. unfold RegisterReConnectNotify, bind at 1.
  rewrite (Lock_free _ _ _ Hc Hl).
  unfold defer_Unlock, register_body, bind at 1.
  erewrite load_Some by (cbn; apply lookup_insert_eq).
  cbn [ReConnect set_lock]. rewrite Hg. unfold ret at 1.
  unfold bind. rewrite (unlock_after_lock _ _ _ Hc Hl). reflexivity.
Qed.

(** A new name: a channel of capacity 1 is made and entered. *)
Lemma Register_new w name c cl m :
  clients w !! c = Some cl -> lock cl = false ->
  ReConnect cl = Some m -> m !! name = None ->
  let ch := fresh (dom (chans w)) in
  RegisterReConnectNotify name c w =
    Returned ch
      (mkWorld (<[c := set_ReConnect (Some (<[name := ch]> m)) cl]> (clients w))
               (<[ch := pending_chan]> (chans w))).
Proof.
  intros Hc Hl Hm Hn ch. unfold RegisterReConnectNotify, bind at 1.
  rewrite (Lock_free _ _ _ Hc Hl).
  unfold defer_Unlock, register_body, bind at 1.
  erewrite load_Some by (cbn; apply lookup_insert_eq).
  cbn [ReConnect set_lock]. rewrite Hm. cbn [map_get]. rewrite Hn.
  unfold bind at 1, make_chan. cbn [chans clients].
  unfold bind at 1, map_set, bind at 1.
  erewrite load_Some by (cbn; apply lookup_insert_eq).
  cbn [ReConnect set_lock]. rewrite Hm. unfold store at 1. cbn [clients chans].
  unfold ret at 1, bind.
  erewrite Unlock_held; [| cbn; apply lookup_insert_eq | reflexivity].
  cbn. unfold ret. rewrite !insert_insert_eq.
  do 3 f_equal. destruct cl; cbn in *; now subst.
Qed.

(** On a client whose map was never made the entry cannot be stored. *)
Lemma Register_nil_map w name c cl :
  clients w !! c = Some cl -> lock cl = false -> ReConnect cl = None ->
  exists w', RegisterReConnectNotify name c w
             = Panicked "assignment to entry in nil map" w'.
Proof.
  intros Hc Hl Hm. unfold RegisterReConnectNotify, bind at 1.
  rewrite (Lock_free _ _ _ Hc Hl).
  unfold defer_Unlock, register_body, bind at 1.
  erewrite load_Some by (cbn; apply lookup_insert_eq).
  cbn [ReConnect set_lock]. rewrite Hm. cbn [map_get].
  unfold bind at 1, make_chan. cbn [chans clients].
  unfold bind at 1, map_set, bind at 1.
  erewrite load_Some by (cbn; apply lookup_insert_eq).
  cbn [ReConnect set_lock]. rewrite Hm. unfold panic at 1, bind.
  erewrite Unlock_held; [| cbn; apply lookup_insert_eq | reflexivity].
  unfold panic. eauto.
Qed.

(** ** The capability wrappers *)

Lemma wrapper_runs {Args Result : Type} (rpc : conn -> method -> Args -> Result)
  m a c w cl :
  clients w !! c = Some cl -> lock cl = false ->
  wrapper rpc m a c w =
    match Client cl with
    | Some k => Returned (rpc k m a) w
    | None => Panicked nil_deref w
    end.
Proof.
  intros Hc Hl. unfold wrapper, bind at 1.
  rewrite (Lock_free _ _ _ Hc Hl).
  unfold defer_Unlock, forward, bind at 1.
  erewrite load_Some by (cbn; apply lookup_insert_eq).
  cbn [Client set_lock].
  destruct (Client cl) as [k|].
  - unfold ret at 1, bind. now rewrite (unlock_after_lock _ _ _ Hc Hl).
  - unfold panic at 1, bind. now rewrite (unlock_after_lock _ _ _ Hc Hl).
Qed.

Lemma wrapper_world {Args Result : Type} (rpc : conn -> method -> Args -> Result)
  m a c w :
  world_of (wrapper rpc m a c w) = w.
Proof.
  destruct (clients w !! c) as [cl|] eqn:Hc.
  - destruct (lock cl) eqn:Hl.
    + unfold wrapper, bind, Lock. now rewrite Hc, Hl.
    + rewrite (wrapper_runs _ _ _ _ _ _ Hc Hl). now destruct (Client cl).
  - unfold wrapper, bind, Lock. now rewrite Hc.
Qed.


(** ** [NewSafeClient] *)

Lemma NewSafeClient_spec rawurl d w :
  let c := fresh (dom (clients w)) in
  NewSafeClient rawurl d w =
    match d with
    | inl client =>
        Returned (c, None)
          (mkWorld (<[c := mkSafeEthClient (Some client) false rawurl (Some ∅)
                             ConnectionOk]> (clients w)) (chans w))
    | inr err =>
        Returned (c, Some err)
          (mkWorld (<[c := mkSafeEthClient None false rawurl (Some ∅)
                             ConnectionFailed]> (clients w)) (chans w))
    end.
Proof.
  intros c. unfold NewSafeClient, bind at 1, new_SafeEthClient. fold c.
  unfold bind at 1. erewrite assign_Some by (cbn; apply lookup_insert_eq).
  unfold bind at 1. erewrite assign_Some by (cbn; apply lookup_insert_eq).
  destruct d as [client|err].
  - unfold bind at 1. erewrite assign_Some by (cbn; apply lookup_insert_eq).
    unfold bind at 1. erewrite assign_Some by (cbn; apply lookup_insert_eq).
    cbn. unfold ret. now rewrite !insert_insert_eq.
  - unfold bind at 1. erewrite assign_Some by (cbn; apply lookup_insert_eq).
    unfold bind at 1. erewrite assign_Some by (cbn; apply lookup_insert_eq).
    cbn. unfold ret. now rewrite !insert_insert_eq.
Qed.

Lemma fresh_client w : clients w !! fresh (dom (clients w)) = None.
Proof. apply not_elem_of_dom, is_fresh. Qed.

Lemma fresh_chan w : chans w !! fresh (dom (chans w)) = None.
Proof. apply not_elem_of_dom, is_fresh. Qed.

(** ** The two loops of [RecoverDisconnect] *)

Lemma notify_loop_pending entries keys w :
  NoDup entries.*2 ->
  (forall ch, ch ∈ entries.*2 -> chans w !! ch = Some pending_chan) ->
  exists chs',
    notify_loop entries keys w
      = Returned (keys ++ entries.*1) (mkWorld (clients w) chs')
    /\ (forall ch, ch ∈ entries.*2 -> chs' !! ch = Some fired_chan)
    /\ (forall ch, ch ∉ entries.*2 -> chs' !! ch = chans w !! ch).
Proof.
  revert keys w. induction entries as [|[name ch] rest IH]; intros keys w Hnd Hp.
  - exists (chans w). cbn. unfold ret. rewrite app_nil_r, world_eta.
    split; [reflexivity|]. split; [|reflexivity].
    intros ch Hin. inversion Hin.
  - cbn in Hnd. apply NoDup_cons in Hnd as [Hnotin Hnd].
    assert (Hch : chans w !! ch = Some pending_chan)
      by (apply Hp; cbn; left).
    cbn [notify_loop]. unfold bind at 1, chan_send. rewrite Hch. cbn.
    unfold bind at 1, chan_close. cbn. rewrite lookup_insert_eq. cbn.
    rewrite insert_insert_eq.
    destruct (IH (keys ++ [name])
                (mkWorld (clients w) (<[ch := fired_chan]> (chans w))) Hnd)
      as (chs' & Hrun & Hin & Hout).
    { intros ch' Hin'. cbn. rewrite lookup_insert_ne.
      - apply Hp. cbn. now right.
      - intros ->. contradiction. }
    exists chs'. split; [|split].
    + unfold fired_chan in Hrun. rewrite Hrun. cbn.
      now rewrite <- app_assoc.
    + intros ch' Hin'. cbn in Hin'. apply elem_of_cons in Hin' as [->|Hin'].
      * rewrite (Hout ch Hnotin). cbn. apply lookup_insert_eq.
      * now apply Hin.
    + intros ch' Hnin. rewrite not_elem_of_cons in Hnin. destruct Hnin as [Hne Hnin].
      rewrite (Hout ch' Hnin). cbn. now rewrite lookup_insert_ne.
Qed.

Lemma retire_loop_spec keys c w cl m :
  clients w !! c = Some cl -> ReConnect cl = Some m ->
  retire_loop c keys w =
    Returned tt
      (mkWorld (<[c := set_ReConnect (Some (foldl (fun acc k => delete k acc) m keys)) cl]>
                  (clients w)) (chans w)).
Proof.
  revert w cl m. induction keys as [|k keys IH]; intros w cl m Hc Hm.
  - cbn. unfold ret. f_equal.
    replace (set_ReConnect (Some m) cl) with cl
      by (destruct cl; cbn in *; now subst).
    now rewrite insert_id, world_eta.
  - cbn [retire_loop foldl]. unfold bind at 1, map_delete, bind at 1.
    rewrite (load_Some _ _ _ Hc), Hm. unfold store at 1.
    erewrite IH; [| cbn; apply lookup_insert_eq | reflexivity].
    cbn. now rewrite insert_insert_eq.
Qed.

Lemma lookup_foldl_delete (m : gmap string nat) keys k :
  foldl (fun acc k => delete k acc) m keys !! k
  = if decide (k ∈ keys) then None else m !! k.
Proof.
  revert m. induction keys as [|k' keys IH]; intros m; cbn [foldl].
  - case_decide as H; [inversion H | reflexivity].
  - rewrite IH. destruct (decide (k = k')) as [->|Hne].
    + rewrite lookup_delete_eq.
      rewrite (decide_True (P := k' ∈ k' :: keys)) by left.
      now case_decide.
    + rewrite lookup_delete_ne by congruence.
      case_decide as H1; case_decide as H2; try reflexivity.
      * exfalso. apply H2. now right.
      * apply elem_of_cons in H2 as [?|?]; [congruence | contradiction].
Qed.

Lemma retire_all (m : gmap string nat) keys :
  (forall k, is_Some (m !! k) -> k ∈ keys) ->
  foldl (fun acc k => delete k acc) m keys = ∅.
Proof.
  intros Hall. apply map_eq. intros k.
  rewrite lookup_foldl_delete, lookup_empty.
  case_decide as Hin; [reflexivity|].
  destruct (m !! k) eqn:E; [|reflexivity].
  exfalso. apply Hin, Hall. eauto.
Qed.

Lemma reconnect_loop_first range dials c w :
  reconnect_loop range dials c w
  = match first_answer dials with
    | Some client => Some (reconnected range client c w)
    | None => None
    end.
Proof.
  induction dials as [|[client|err] later IH]; cbn; [reflexivity | reflexivity | exact IH].
Qed.


(** ** What a [range] over the registry visits *)

Lemma range_values range (m : gmap string nat) ch :
  visits_all range ->
  ch ∈ (range m).*2 <-> exists name, m !! name = Some ch.
Proof.
  intros Hr. rewrite (Hr m). rewrite list_elem_of_fmap. split.
  - intros ([name ch'] & -> & Hin). exists name.
    now apply elem_of_map_to_list in Hin.
  - intros (name & Hn). exists (name, ch). split; [reflexivity|].
    now apply elem_of_map_to_list.
Qed.

Lemma range_keys range (m : gmap string nat) name :
  visits_all range ->
  is_Some (m !! name) -> name ∈ (range m).*1.
Proof.
  intros Hr [ch Hn]. rewrite (Hr m). apply list_elem_of_fmap.
  exists (name, ch). split; [reflexivity|]. now apply elem_of_map_to_list.
Qed.

Lemma range_values_NoDup range (m : gmap string nat) :
  visits_all range ->
  (forall n1 n2 ch, m !! n1 = Some ch -> m !! n2 = Some ch -> n1 = n2) ->
  NoDup (range m).*2.
Proof.
  intros Hr Hinj. rewrite (Hr m).
  apply NoDup_fmap_2_strong; [|apply NoDup_map_to_list].
  intros [n1 c1] [n2 c2] H1 H2 Heq. cbn in Heq. subst c2.
  apply elem_of_map_to_list in H1, H2.
  now rewrite (Hinj n1 n2 c1 H1 H2).
Qed.

(** ** [RecoverDisconnect] once the dial has succeeded *)

Lemma reconnected_spec range client c w cl m :
  visits_all range ->
  clients w !! c = Some cl -> lock cl = false -> ReConnect cl = Some m ->
  (forall n1 n2 ch, m !! n1 = Some ch -> m !! n2 = Some ch -> n1 = n2) ->
  (forall name ch, m !! name = Some ch -> chans w !! ch = Some pending_chan) ->
  exists chs',
    reconnected range client c w =
      Returned tt
        (mkWorld (<[c := mkSafeEthClient (Some client) false (url cl) (Some ∅)
                           ConnectionOk]> (clients w)) chs')
    /\ (forall name ch, m !! name = Some ch -> chs' !! ch = Some fired_chan)
    /\ (forall ch, (forall name, m !! name <> Some ch) -> chs' !! ch = chans w !! ch).
Proof.
  intros Hr Hc Hl Hm Hinj Hpend.
  unfold reconnected, bind at 1, swap_in, bind at 1.
  rewrite (assign_Some _ _ _ _ Hc).
  unfold bind at 1.
  erewrite Lock_free; [| cbn; apply lookup_insert_eq | exact Hl].
  erewrite assign_Some by (cbn; apply lookup_insert_eq).
  cbn [clients chans]. rewrite !insert_insert_eq.
  unfold bind at 1, notify_all, bind at 1.
  erewrite load_Some by (cbn; apply lookup_insert_eq).
  cbn [ReConnect set_Client set_lock set_Status]. rewrite Hm. cbn [entries_of].
  match goal with |- context [notify_loop _ _ ?w1] => set (w1' := w1) end.
  destruct (notify_loop_pending (range m) [] w1') as (chs' & Hrun & Hin & Hout).
  { now apply range_values_NoDup. }
  { intros ch Hch. apply (range_values _ _ _ Hr) in Hch as [name Hn].
    subst w1'. cbn. now apply (Hpend name). }
  rewrite Hrun. subst w1'. cbn [clients chans app].
  unfold bind at 1.
  erewrite retire_loop_spec; [| cbn; apply lookup_insert_eq | cbn; exact Hm].
  rewrite retire_all by (intros k Hk; now apply range_keys).
  cbn [clients chans]. rewrite insert_insert_eq.
  erewrite Unlock_held; [| cbn; apply lookup_insert_eq | reflexivity].
  cbn. rewrite insert_insert_eq.
  exists chs'. split; [reflexivity|]. split.
  - intros name ch Hn. apply Hin. apply (range_values _ _ _ Hr). eauto.
  - intros ch Hno. rewrite Hout; [reflexivity|].
    intros Hch. apply (range_values _ _ _ Hr) in Hch as [name Hn].
    now apply (Hno name).
Qed.


(** ** [RecoverDisconnect] as a whole *)

Lemma Recover_nil range dials c w :
  clients w !! c = None ->
  RecoverDisconnect range dials c w = Some (Panicked nil_deref w).
Proof. intros H. unfold RecoverDisconnect. now rewrite (assign_None _ _ _ H). Qed.

Lemma Recover_retrying range dials c w cl :
  clients w !! c = Some cl -> first_answer dials = None ->
  RecoverDisconnect range dials c w = None.
Proof.
  intros Hc Hd. unfold RecoverDisconnect.
  rewrite (assign_Some _ _ _ _ Hc), reconnect_loop_first. now rewrite Hd.
Qed.

Lemma Recover_spec range dials client c w cl m :
  visits_all range ->
  clients w !! c = Some cl -> lock cl = false -> ReConnect cl = Some m ->
  (forall n1 n2 ch, m !! n1 = Some ch -> m !! n2 = Some ch -> n1 = n2) ->
  (forall name ch, m !! name = Some ch -> chans w !! ch = Some pending_chan) ->
  first_answer dials = Some client ->
  exists chs',
    RecoverDisconnect range dials c w =
      Some (Returned tt
        (mkWorld (<[c := mkSafeEthClient (Some client) false (url cl) (Some ∅)
                           ConnectionOk]> (clients w)) chs'))
    /\ (forall name ch, m !! name = Some ch -> chs' !! ch = Some fired_chan)
    /\ (forall ch, (forall name, m !! name <> Some ch) -> chs' !! ch = chans w !! ch).
Proof.
  intros Hr Hc Hl Hm Hinj Hpend Hd. unfold RecoverDisconnect.
  rewrite (assign_Some _ _ _ _ Hc), reconnect_loop_first, Hd.
  destruct (reconnected_spec range client c
              (mkWorld (<[c := set_Status ConnectionFailed cl]> (clients w)) (chans w))
              (set_Status ConnectionFailed cl) m Hr)
    as (chs' & Hrun & Hin & Hout); try assumption.
  { cbn. apply lookup_insert_eq. }
  exists chs'. rewrite Hrun. cbn. rewrite insert_insert_eq. auto.
Qed.

(** ** The invariant *)

Lemma inv_client w c cl :
  inv w -> clients w !! c = Some cl ->
  exists m, ReConnect cl = Some m /\ lock cl = false
    /\ (forall n1 n2 ch, m !! n1 = Some ch -> m !! n2 = Some ch -> n1 = n2)
    /\ (forall name ch, m !! name = Some ch -> chans w !! ch = Some pending_chan).
Proof.
  intros Hinv Hc.
  destruct (inv_made w Hinv c cl Hc) as [m Hm].
  exists m. split; [exact Hm|]. split; [exact (inv_unlocked w Hinv c cl Hc)|].
  split.
  - intros n1 n2 ch H1 H2.
    apply (inv_inj w Hinv c n1 c n2 ch); exists cl, m; auto.
  - intros name ch Hn. apply (inv_pending w Hinv c name). now exists cl, m.
Qed.

Lemma inv_empty : inv empty_world.
Proof.
  assert (Hno : forall c cl, clients empty_world !! c = Some cl -> False).
  { intros c cl. unfold empty_world. cbn [clients].
    rewrite lookup_empty. discriminate. }
  split.
  - intros c cl H. destruct (Hno c cl H).
  - intros c cl H. destruct (Hno c cl H).
  - intros c name ch (cl & m & H & _). destruct (Hno c cl H).
  - intros c1 n1 c2 n2 ch (cl & m & H & _). destruct (Hno c1 cl H).
Qed.

(** A client is replaced by one with the same registry and a free mutex. *)
Lemma inv_same_registry w c cl cl' :
  inv w -> clients w !! c = Some cl ->
  ReConnect cl' = ReConnect cl -> lock cl' = false ->
  inv (mkWorld (<[c := cl']> (clients w)) (chans w)).
Proof.
  intros Hinv Hc Hr Hl. destruct w as [cs chs]. cbn in *.
  split; cbn.
  - intros c' x Hx. destruct (decide (c' = c)) as [->|Hne].
    + rewrite lookup_insert_eq in Hx. injection Hx as <-. rewrite Hr.
      exact (inv_made _ Hinv c cl Hc).
    + rewrite lookup_insert_ne in Hx by congruence. exact (inv_made _ Hinv c' x Hx).
  - intros c' x Hx. destruct (decide (c' = c)) as [->|Hne].
    + rewrite lookup_insert_eq in Hx. now injection Hx as <-.
    + rewrite lookup_insert_ne in Hx by congruence. exact (inv_unlocked _ Hinv c' x Hx).
  - intros c' name ch H. apply (registered_same_registry _ _ _ _ _ _ _ _ Hc Hr) in H.
    exact (inv_pending _ Hinv c' name ch H).
  - intros c1 n1 c2 n2 ch H1 H2.
    apply (registered_same_registry _ _ _ _ _ _ _ _ Hc Hr) in H1, H2.
    exact (inv_inj _ Hinv c1 n1 c2 n2 ch H1 H2).
Qed.

(** A client with an empty registry appears at a new address, or takes
    the place of a client whose channels have all been fired. *)
Lemma inv_emptied w c cl' chs' :
  inv w -> ReConnect cl' = Some ∅ -> lock cl' = false ->
  (forall c' name ch, c' <> c -> registered w c' name ch -> chs' !! ch = chans w !! ch) ->
  inv (mkWorld (<[c := cl']> (clients w)) chs').
Proof.
  intros Hinv Hr Hl Hkeep. destruct w as [cs chs]. cbn in *.
  assert (Hreg : forall c' name ch,
            registered (mkWorld (<[c := cl']> cs) chs') c' name ch ->
            c' <> c /\ registered (mkWorld cs chs) c' name ch).
  { intros c' name ch H. apply registered_insert in H as [[_ Hg] | [Hne H]].
    - rewrite Hr in Hg. cbn in Hg. now rewrite lookup_empty in Hg.
    - split; [exact Hne|]. exact (registered_chans _ _ _ _ _ _ H). }
  split; cbn.
  - intros c' x Hx. destruct (decide (c' = c)) as [->|Hne].
    + rewrite lookup_insert_eq in Hx. injection Hx as <-. rewrite Hr. eauto.
    + rewrite lookup_insert_ne in Hx by congruence. exact (inv_made _ Hinv c' x Hx).
  - intros c' x Hx. destruct (decide (c' = c)) as [->|Hne].
    + rewrite lookup_insert_eq in Hx. now injection Hx as <-.
    + rewrite lookup_insert_ne in Hx by congruence. exact (inv_unlocked _ Hinv c' x Hx).
  - intros c' name ch H. apply Hreg in H as [Hne H].
    rewrite (Hkeep c' name ch Hne H). exact (inv_pending _ Hinv c' name ch H).
  - intros c1 n1 c2 n2 ch H1 H2. apply Hreg in H1 as [_ H1], H2 as [_ H2].
    exact (inv_inj _ Hinv c1 n1 c2 n2 ch H1 H2).
Qed.


(** Channels no registry mentions may change freely. *)
Lemma inv_chans w chs' :
  inv w ->
  (forall c name ch, registered w c name ch -> chs' !! ch = chans w !! ch) ->
  inv (mkWorld (clients w) chs').
Proof.
  intros Hinv Hkeep. destruct w as [cs chs]. cbn in *.
  split; cbn.
  - exact (inv_made _ Hinv).
  - exact (inv_unlocked _ Hinv).
  - intros c name ch H. apply (registered_chans _ _ chs) in H.
    rewrite (Hkeep c name ch H). exact (inv_pending _ Hinv c name ch H).
  - intros c1 n1 c2 n2 ch H1 H2.
    apply (registered_chans _ _ chs) in H1, H2.
    exact (inv_inj _ Hinv c1 n1 c2 n2 ch H1 H2).
Qed.

Lemma inv_New w rawurl d : inv w -> inv (world_of (NewSafeClient rawurl d w)).
Proof.
  intros Hinv. rewrite NewSafeClient_spec.
  destruct d as [client|err]; cbn [world_of];
    (apply inv_emptied; [exact Hinv | reflexivity | reflexivity | reflexivity]).
Qed.

Lemma inv_Register w name c :
  inv w -> inv (world_of (RegisterReConnectNotify name c w)).
Proof.
  intros Hinv. destruct (clients w !! c) as [cl|] eqn:Hc.
  2:{ now rewrite (Register_nil _ _ _ Hc). }
  destruct (inv_client w c cl Hinv Hc) as (m & Hm & Hl & Hinj & Hpend).
  destruct (m !! name) as [ch|] eqn:Hn.
  { rewrite (Register_known w name c cl ch Hc Hl); [exact Hinv|].
    unfold map_get. now rewrite Hm. }
  rewrite (Register_new _ _ _ _ _ Hc Hl Hm Hn). cbn [world_of].
  set (ch := fresh (dom (chans w))).
  assert (Hfresh : chans w !! ch = None) by apply fresh_chan.
  destruct w as [cs chs]. cbn in *.
  assert (Hreg : forall c' n x,
    registered (mkWorld (<[c := set_ReConnect (Some (<[name := ch]> m)) cl]> cs)
                        (<[ch := pending_chan]> chs)) c' n x ->
    (c' = c /\ n = name /\ x = ch)
    \/ (x <> ch /\ registered (mkWorld cs chs) c' n x)).
  { intros c' n x H. apply registered_insert in H as [[-> Hg] | [Hne H]].
    - cbn in Hg. destruct (decide (n = name)) as [->|Hnn].
      + rewrite lookup_insert_eq in Hg. injection Hg as <-. now left.
      + rewrite lookup_insert_ne in Hg by congruence. right.
        split; [|now exists cl, m].
        intros ->. pose proof (Hpend n ch Hg) as Hp. cbn in Hp. congruence.
    - right. apply (registered_chans _ _ chs) in H. split; [|exact H].
      intros ->. pose proof (inv_pending _ Hinv c' n ch H) as Hp.
      cbn in Hp. congruence. }
  split; cbn.
  - intros c' x Hx. destruct (decide (c' = c)) as [->|Hne].
    + rewrite lookup_insert_eq in Hx. injection Hx as <-. cbn. eauto.
    + rewrite lookup_insert_ne in Hx by congruence. exact (inv_made _ Hinv c' x Hx).
  - intros c' x Hx. destruct (decide (c' = c)) as [->|Hne].
    + rewrite lookup_insert_eq in Hx. now injection Hx as <-.
    + rewrite lookup_insert_ne in Hx by congruence. exact (inv_unlocked _ Hinv c' x Hx).
  - intros c' n x H. apply Hreg in H as [(-> & -> & ->) | [Hne H]].
    + apply lookup_insert_eq.
    + rewrite lookup_insert_ne by congruence. exact (inv_pending _ Hinv c' n x H).
  - intros c1 n1 c2 n2 x H1 H2.
    apply Hreg in H1 as [(-> & -> & ->) | [Hne1 H1]];
      apply Hreg in H2 as [(-> & -> & E) | [Hne2 H2]]; try congruence; auto.
    exact (inv_inj _ Hinv c1 n1 c2 n2 x H1 H2).
Qed.

Lemma inv_retrying w c :
  inv w -> inv (world_of (assign c (set_Status ConnectionFailed) w)).
Proof.
  intros Hinv. destruct (clients w !! c) as [cl|] eqn:Hc.
  - rewrite (assign_Some _ _ _ _ Hc). cbn [world_of].
    apply (inv_same_registry w c cl); auto.
    exact (inv_unlocked _ Hinv c cl Hc).
  - now rewrite (assign_None _ _ _ Hc).
Qed.

Lemma inv_Recover w range dials c o :
  visits_all range -> inv w ->
  RecoverDisconnect range dials c w = Some o -> inv (world_of o).
Proof.
  intros Hr Hinv Hrun. destruct (clients w !! c) as [cl|] eqn:Hc.
  2:{ rewrite (Recover_nil _ _ _ _ Hc) in Hrun. now injection Hrun as <-. }
  destruct (inv_client w c cl Hinv Hc) as (m & Hm & Hl & Hinj & Hpend).
  destruct (first_answer dials) as [client|] eqn:Hd.
  2:{ rewrite (Recover_retrying _ _ _ _ _ Hc Hd) in Hrun. discriminate. }
  destruct (Recover_spec range dials client c w cl m Hr Hc Hl Hm Hinj Hpend Hd)
    as (chs' & Hrun' & Hin & Hout).
  rewrite Hrun' in Hrun. injection Hrun as <-. cbn [world_of].
  apply inv_emptied; [exact Hinv | reflexivity | reflexivity |].
  intros c' name ch Hne H. apply Hout. intros n Hn.
  destruct (inv_inj _ Hinv c n c' name ch) as [E _]; [now exists cl, m | exact H |].
  congruence.
Qed.

Lemma inv_recv w ch : inv w -> inv (world_of (chan_recv ch w)).
Proof.
  intros Hinv. unfold chan_recv.
  destruct (chans w !! ch) as [st|] eqn:Hch; [|exact Hinv].
  destruct (buffered st) as [|n] eqn:Hb.
  - now destruct (closed st).
  - cbn [world_of]. apply inv_chans; [exact Hinv|].
    intros c name x H. cbn.
    destruct (decide (x = ch)) as [->|Hne]; [|now rewrite lookup_insert_ne].
    rewrite (inv_pending _ Hinv c name ch H) in Hch. injection Hch as <-.
    discriminate Hb.
Qed.

(** Every world a program reaches satisfies the invariant. *)
Lemma reachable_inv w : reachable w -> inv w.
Proof.
  induction 1 as [| w rawurl d _ IH | w name c _ IH | w c _ IH
                 | w range dials c o Hr _ IH Hrun
                 | Args Result rpc w m a c _ IH | w ch _ IH].
  - exact inv_empty.
  - now apply inv_New.
  - now apply inv_Register.
  - now apply inv_retrying.
  - now apply (inv_Recover w range dials c o).
  - now rewrite wrapper_world.
  - now apply inv_recv.
Qed.


Lemma map_to_list_visits_all : visits_all map_to_list.
Proof. intros m. reflexivity. Qed.

Lemma swap_in_spec client c w cl :
  clients w !! c = Some cl -> lock cl = false ->
  swap_in client c w =
    Returned tt
      (mkWorld (<[c := set_Client (Some client)
                         (set_lock true (set_Status ConnectionOk cl))]> (clients w))
               (chans w)).
Proof.
  intros Hc Hl. unfold swap_in, bind at 1.
  rewrite (assign_Some _ _ _ _ Hc). unfold bind at 1.
  erewrite Lock_free; [| cbn; apply lookup_insert_eq | exact Hl].
  erewrite assign_Some by (cbn; apply lookup_insert_eq).
  cbn. now rewrite !insert_insert_eq.
Qed.

Lemma notify_all_spec range c w cl m :
  visits_all range ->
  clients w !! c = Some cl -> ReConnect cl = Some m ->
  (forall n1 n2 ch, m !! n1 = Some ch -> m !! n2 = Some ch -> n1 = n2) ->
  (forall name ch, m !! name = Some ch -> chans w !! ch = Some pending_chan) ->
  exists chs',
    notify_all range c w = Returned (range m).*1 (mkWorld (clients w) chs')
    /\ (forall name ch, m !! name = Some ch -> chs' !! ch = Some fired_chan)
    /\ (forall ch, (forall name, m !! name <> Some ch) -> chs' !! ch = chans w !! ch).
Proof.
  intros Hr Hc Hm Hinj Hpend. unfold notify_all, bind.
  rewrite (load_Some _ _ _ Hc), Hm. cbn [entries_of].
  destruct (notify_loop_pending (range m) [] w) as (chs' & Hrun & Hin & Hout).
  { now apply range_values_NoDup. }
  { intros ch Hch. apply (range_values _ _ _ Hr) in Hch as [name Hn]. eauto. }
  exists chs'. split; [exact Hrun|]. split.
  - intros name ch Hn. apply Hin, (range_values _ _ _ Hr). eauto.
  - intros ch Hno. apply Hout. intros Hch.
    apply (range_values _ _ _ Hr) in Hch as [name Hn]. now apply (Hno name).
Qed.

(** ** The statements about single calls *)

(** Run on its own from a world a program reaches, [RecoverDisconnect]
    returns once a dial succeeds; every channel that was registered with
    the client had been sent nothing and has now been sent one signal,
    which waits in the buffer of the closed channel; the registry is
    empty, and registering a name again makes a new, pending channel. *)
Lemma Recover_alone_fires_each_once
  (range : gmap string chan -> list (string * chan))
  (dials : list dial_result) (client : conn) (c : ptr) (w : World)
  (cl : SafeEthClient)
  (Hreach : reachable w)
  (Hrange : visits_all range)
  (Hclient : clients w !! c = Some cl)
  (Hdial : first_answer dials = Some client) :
  exists w',
    RecoverDisconnect range dials c w = Some (Returned tt w')
    /\ clients w' !! c
       = Some (mkSafeEthClient (Some client) false (url cl) (Some ∅) ConnectionOk)
    /\ (forall name ch, registered w c name ch ->
          (exists st, chans w !! ch = Some st /\ sent st = 0)
          /\ (exists st', chans w' !! ch = Some st'
                /\ sent st' = 1 /\ buffered st' = 1 /\ closed st' = true))
    /\ (forall name ch, ~ registered w' c name ch)
    /\ (forall name, exists ch' w'',
          RegisterReConnectNotify name c w' = Returned ch' w''
          /\ chans w'' !! ch' = Some pending_chan
          /\ forall old_name old, registered w c old_name old -> ch' <> old).
Proof.
  pose proof (reachable_inv w Hreach) as Hinv.
  destruct (inv_client w c cl Hinv Hclient) as (m & Hm & Hl & Hinj & Hpend).
  destruct (Recover_spec range dials client c w cl m
              Hrange Hclient Hl Hm Hinj Hpend Hdial)
    as (chs' & Hrun & Hin & Hout).
  eexists. split; [exact Hrun|].
  assert (Hc' : clients (mkWorld (<[c := mkSafeEthClient (Some client) false (url cl)
                   (Some ∅) ConnectionOk]> (clients w)) chs') !! c
                = Some (mkSafeEthClient (Some client) false (url cl) (Some ∅) ConnectionOk))
    by (cbn; apply lookup_insert_eq).
  split; [exact Hc'|]. split; [|split].
  - intros name ch Hreg.
    apply (registered_get w c cl name ch Hclient) in Hreg.
    unfold map_get in Hreg. rewrite Hm in Hreg. split.
    + exists pending_chan. split; [now apply (Hpend name) | reflexivity].
    + exists fired_chan. cbn [chans]. split; [now apply (Hin name) | auto].
  - intros name ch Hreg.
    apply (registered_get _ c _ name ch Hc') in Hreg.
    cbn in Hreg. now rewrite lookup_empty in Hreg.
  - intros name.
    pose proof (Register_new _ name c _ ∅ Hc' eq_refl eq_refl (lookup_empty name))
      as Hnew.
    cbn zeta in Hnew. cbn [chans] in Hnew.
    eexists _, _. split; [exact Hnew|]. split.
    + cbn. apply lookup_insert_eq.
    + intros old_name old Hreg Heq. subst old.
      apply (registered_get w c cl _ _ Hclient) in Hreg.
      unfold map_get in Hreg. rewrite Hm in Hreg.
      pose proof (Hin old_name _ Hreg) as Hf.
      assert (Hnone : chs' !! fresh (dom chs') = None)
        by apply not_elem_of_dom, is_fresh.
      congruence.
Qed.


Lemma w_two_reachable : reachable Samples.w_two.
Proof.
  unfold Samples.w_two, Samples.w_one, Samples.w_new.
  do 2 apply reach_Register. apply reach_New, reach_empty.
Qed.

Lemma w_pair_reachable : reachable Samples.w_pair.
Proof. unfold Samples.w_pair. apply reach_New, w_two_reachable. Qed.

(** Called twice in a row with the same name, [RegisterReConnectNotify]
    hands back the channel of the first call and leaves the world as
    the first call left it. *)
Lemma Register_again_alone
  (name : string) (c : ptr) (w w1 : World) (ch : chan)
  (Hfirst : RegisterReConnectNotify name c w = Returned ch w1) :
  registered w1 c name ch
  /\ RegisterReConnectNotify name c w1 = Returned ch w1.
Proof.
  destruct (clients w !! c) as [cl|] eqn:Hc.
  2:{ rewrite (Register_nil _ _ _ Hc) in Hfirst. discriminate. }
  destruct (lock cl) eqn:Hl.
  { rewrite (Register_waits _ _ _ _ Hc Hl) in Hfirst. discriminate. }
  destruct (ReConnect cl) as [m|] eqn:Hm.
  2:{ destruct (Register_nil_map w name c cl Hc Hl Hm) as [w' Hp].
      rewrite Hp in Hfirst. discriminate. }
  destruct (m !! name) as [ch0|] eqn:Hn.
  - assert (Hg : map_get (ReConnect cl) name = Some ch0)
      by (unfold map_get; now rewrite Hm).
    rewrite (Register_known w name c cl ch0 Hc Hl Hg) in Hfirst.
    injection Hfirst as <- <-. split.
    + now exists cl, m.
    + now apply (Register_known w name c cl).
  - rewrite (Register_new _ _ _ _ _ Hc Hl Hm Hn) in Hfirst.
    injection Hfirst as <- <-.
    set (ch := fresh (dom (chans w))).
    set (cl1 := set_ReConnect (Some (<[name := ch]> m)) cl).
    assert (Hc1 : clients (mkWorld (<[c := cl1]> (clients w))
                             (<[ch := pending_chan]> (chans w))) !! c = Some cl1)
      by (cbn; apply lookup_insert_eq).
    assert (Hg1 : map_get (ReConnect cl1) name = Some ch)
      by (cbn; apply lookup_insert_eq).
    split.
    + now apply (registered_get _ c cl1 name ch Hc1).
    + now apply (Register_known _ name c cl1 ch Hc1).
Qed.

Example RecoverDisconnect_on_w_two :
  exists w',
    RecoverDisconnect map_to_list Samples.third_time 0 Samples.w_two
    = Some (Returned tt w')
    /\ fields <$> clients w' !! 0
       = Some (Some 9, "ws://127.0.0.1:8546", Some ∅, ConnectionOk)
    /\ chans w' !! 0 = Some fired_chan
    /\ chans w' !! 1 = Some fired_chan.
Proof.
  eexists. split; [vm_compute; reflexivity|].
  repeat split; vm_compute; reflexivity.
Qed.

Example Register_on_w_one :
  RegisterReConnectNotify "alarm" 0 Samples.w_one = Returned 0 Samples.w_one
  /\ exists w', RegisterReConnectNotify "chain" 0 Samples.w_one = Returned 1 w'.
Proof. split; [|eexists]; vm_compute; reflexivity. Qed.

(** C8: [NewSafeClient] always hands back a client at a new address
    together with the dial error.  After a successful dial its status is
    [ConnectionOk]; after a failed one the connection is nil, the status
    is [ConnectionFailed] and the registry is made and empty all the
    same, so that names can be registered with the client and
    [RecoverDisconnect] on it returns once a dial succeeds. *)
Theorem NewSafeClient_always_usable
  (rawurl : string) (d : dial_result) (w : World)
  (range : gmap string chan -> list (string * chan))
  (dials : list dial_result) (client : conn) (name : string)
  (Hrange : visits_all range)
  (Hdial : first_answer dials = Some client) :
  exists c w1,
    NewSafeClient rawurl d w
      = Returned (c, match d with inl _ => None | inr err => Some err end) w1
    /\ clients w !! c = None
    /\ clients w1 !! c
       = Some (match d with
               | inl k => mkSafeEthClient (Some k) false rawurl (Some ∅) ConnectionOk
               | inr _ => mkSafeEthClient None false rawurl (Some ∅) ConnectionFailed
               end)
    /\ (exists ch w2,
          RegisterReConnectNotify name c w1 = Returned ch w2
          /\ registered w2 c name ch)
    /\ (exists w3,
          RecoverDisconnect range dials c w1 = Some (Returned tt w3)
          /\ clients w3 !! c
             = Some (mkSafeEthClient (Some client) false rawurl (Some ∅) ConnectionOk)).
Proof.
  set (c := fresh (dom (clients w))).
  set (cl := match d with
             | inl k => mkSafeEthClient (Some k) false rawurl (Some ∅) ConnectionOk
             | inr _ => mkSafeEthClient None false rawurl (Some ∅) ConnectionFailed
             end).
  set (w1 := mkWorld (<[c := cl]> (clients w)) (chans w)).
  assert (Hnew : NewSafeClient rawurl d w
            = Returned (c, match d with inl _ => None | inr err => Some err end) w1).
  { rewrite NewSafeClient_spec. subst w1 cl c. now destruct d. }
  assert (Hc1 : clients w1 !! c = Some cl) by (cbn; apply lookup_insert_eq).
  assert (Hl : lock cl = false) by (subst cl; now destruct d).
  assert (Hm : ReConnect cl = Some ∅) by (subst cl; now destruct d).
  assert (Hu : url cl = rawurl) by (subst cl; now destruct d).
  exists c, w1. split; [exact Hnew|]. split; [apply fresh_client|].
  split; [exact Hc1|]. split.
  - pose proof (Register_new w1 name c cl ∅ Hc1 Hl Hm (lookup_empty name)) as Hreg.
    cbn zeta in Hreg. eexists _, _. split; [exact Hreg|].
    eapply registered_get; [cbn; apply lookup_insert_eq|].
    cbn. apply lookup_insert_eq.
  - destruct (Recover_spec range dials client c w1 cl ∅ Hrange Hc1 Hl Hm)
      as (chs' & Hrun & _); try exact Hdial.
    { intros n1 n2 ch H. now rewrite lookup_empty in H. }
    { intros n ch H. now rewrite lookup_empty in H. }
    eexists. split; [exact Hrun|]. cbn. rewrite lookup_insert_eq. now rewrite Hu.
Qed.

Lemma NewSafeClient_always_usable_witness :
  exists c w1,
    NewSafeClient "ws://127.0.0.1:8546" (inr "connection refused") empty_world
    = Returned (c, Some "connection refused") w1.
Proof.
  destruct (NewSafeClient_always_usable "ws://127.0.0.1:8546"
              (inr "connection refused") empty_world map_to_list
              Samples.third_time 9 "alarm" map_to_list_visits_all eq_refl)
    as (c & w1 & Hnew & _).
  exists c, w1. exact Hnew.
Defined.

(** In every world a program reaches, each channel in a registry is as
    [make(chan struct{}, 1)] left it, and the first loop of
    [RecoverDisconnect], run on its own after the mutex is taken and the
    connection stored, returns with every registered channel holding
    its one signal. *)
Lemma notify_alone_takes_one_signal
  (range : gmap string chan -> list (string * chan))
  (client : conn) (c : ptr) (w : World) (cl : SafeEthClient)
  (Hreach : reachable w)
  (Hrange : visits_all range)
  (Hclient : clients w !! c = Some cl) :
  (forall name ch, registered w c name ch ->
     exists st, chans w !! ch = Some st
       /\ cap st = 1 /\ buffered st = 0 /\ closed st = false)
  /\ exists w1 keys w2,
       swap_in client c w = Returned tt w1
       /\ notify_all range c w1 = Returned keys w2
       /\ clients w2 = clients w1
       /\ forall name ch, registered w c name ch ->
            chans w2 !! ch = Some fired_chan.
Proof.
  pose proof (reachable_inv w Hreach) as Hinv.
  destruct (inv_client w c cl Hinv Hclient) as (m & Hm & Hl & Hinj & Hpend).
  split.
  - intros name ch Hreg. exists pending_chan.
    split; [exact (inv_pending w Hinv c name ch Hreg) | auto].
  - pose proof (swap_in_spec client c w cl Hclient Hl) as Hswap.
    set (cl1 := set_Client (Some client) (set_lock true (set_Status ConnectionOk cl))) in *.
    set (w1 := mkWorld (<[c := cl1]> (clients w)) (chans w)) in *.
    destruct (notify_all_spec range c w1 cl1 m Hrange) as (chs' & Hrun & Hin & _);
      try assumption.
    { cbn. apply lookup_insert_eq. }
    eexists w1, _, _. split; [exact Hswap|]. split; [exact Hrun|].
    split; [reflexivity|].
    intros name ch Hreg. cbn [chans].
    apply (registered_get w c cl name ch Hclient) in Hreg.
    unfold map_get in Hreg. rewrite Hm in Hreg. now apply (Hin name).
Qed.

(** ** Calls on one client and the other clients *)

Lemma Register_frame w name c c' :
  inv w -> c <> c' ->
  let w1 := world_of (RegisterReConnectNotify name c w) in
  clients w1 !! c' = clients w !! c'
  /\ forall n ch, registered w c' n ch -> chans w1 !! ch = chans w !! ch.
Proof.
  intros Hinv Hne. destruct (clients w !! c) as [cl|] eqn:Hc.
  2:{ now rewrite (Register_nil _ _ _ Hc). }
  destruct (inv_client w c cl Hinv Hc) as (m & Hm & Hl & _ & _).
  destruct (m !! name) as [ch0|] eqn:Hn.
  { rewrite (Register_known w name c cl ch0 Hc Hl); [now split|].
    unfold map_get. now rewrite Hm. }
  rewrite (Register_new _ _ _ _ _ Hc Hl Hm Hn). cbn. split.
  - now rewrite lookup_insert_ne.
  - intros n ch Hreg. rewrite lookup_insert_ne; [reflexivity|].
    intros <-. pose proof (inv_pending w Hinv c' n _ Hreg) as Hp.
    rewrite fresh_chan in Hp. discriminate.
Qed.

Lemma Recover_frame w range dials c c' o :
  inv w -> visits_all range -> c <> c' ->
  RecoverDisconnect range dials c w = Some o ->
  clients (world_of o) !! c' = clients w !! c'
  /\ forall n ch, registered w c' n ch -> chans (world_of o) !! ch = chans w !! ch.
Proof.
  intros Hinv Hr Hne Hrun. destruct (clients w !! c) as [cl|] eqn:Hc.
  2:{ rewrite (Recover_nil _ _ _ _ Hc) in Hrun. now injection Hrun as <-. }
  destruct (inv_client w c cl Hinv Hc) as (m & Hm & Hl & Hinj & Hpend).
  destruct (first_answer dials) as [client|] eqn:Hd.
  2:{ rewrite (Recover_retrying _ _ _ _ _ Hc Hd) in Hrun. discriminate. }
  destruct (Recover_spec range dials client c w cl m Hr Hc Hl Hm Hinj Hpend Hd)
    as (chs' & Hrun' & _ & Hout).
  rewrite Hrun' in Hrun. injection Hrun as <-. cbn. split.
  - now rewrite lookup_insert_ne.
  - intros n ch Hreg. apply Hout. intros name Hname.
    destruct (inv_inj w Hinv c name c' n ch) as [E _]; [now exists cl, m | exact Hreg |].
    contradiction.
Qed.

Lemma New_frame w rawurl d c' :
  is_Some (clients w !! c') ->
  let w1 := world_of (NewSafeClient rawurl d w) in
  clients w1 !! c' = clients w !! c' /\ chans w1 = chans w.
Proof.
  intros [cl Hc]. rewrite NewSafeClient_spec.
  assert (Hne : fresh (dom (clients w)) <> c')
    by (intros <-; rewrite fresh_client in Hc; discriminate).
  destruct d; cbn; now rewrite lookup_insert_ne.
Qed.

End SafeFacts.

(** * Part VI: goroutines, proved *)
Section ConcFacts.
Import Safe Conc.
Context {Args Result : Type}.
Variable rpc : conn -> method -> Args -> Result.
Variable range : gmap string chan -> list (string * chan).

Local Abbreviation pc := (@Conc.pc Args Result).
Local Abbreviation cstate := (@Conc.cstate Args Result).
Local Abbreviation step_pc := (Conc.step_pc rpc range).
Local Abbreviation step := (Conc.step rpc range).
Local Abbreviation reachable := (Conc.reachable rpc range).

(** ** Computations that leave a part of every client alone *)

Section Keeps.
Context {B : Type} (proj : SafeEthClient -> B).

Lemma keeps_ret {A} (a : A) : keeps proj (ret a).
Proof. now intros w c. Qed.

Lemma keeps_panic {A} msg : keeps proj (@panic A msg).
Proof. now intros w c. Qed.

Lemma keeps_bind {A A'} (m : M A) (k : A -> M A') :
  keeps proj m -> (forall a, keeps proj (k a)) -> keeps proj (bind m k).
Proof.
  intros Hm Hk w c. unfold bind. specialize (Hm w c).
  destruct (m w) as [a w'| |]; cbn in *; try exact Hm.
  now rewrite (Hk a w' c).
Qed.

Lemma keeps_load c : keeps proj (load c).
Proof. intros w c'. unfold load. now destruct (clients w !! c). Qed.

Lemma keeps_store_of c cl cl' w c' :
  clients w !! c = Some cl -> proj cl' = proj cl ->
  proj <$> <[c := cl']> (clients w) !! c' = proj <$> clients w !! c'.
Proof.
  intros Hc Hl. destruct (decide (c' = c)) as [->|Hne].
  - rewrite lookup_insert_eq, Hc. cbn. now rewrite Hl.
  - now rewrite lookup_insert_ne.
Qed.

Lemma keeps_assign c f :
  (forall cl, proj (f cl) = proj cl) -> keeps proj (assign c f).
Proof.
  intros Hf w c'. destruct (clients w !! c) as [cl|] eqn:Hc.
  - rewrite (assign_Some _ _ _ _ Hc). cbn [world_of clients].
    now apply (keeps_store_of c cl).
  - now rewrite (assign_None _ _ _ Hc).
Qed.

Lemma keeps_map_set c name ch :
  (forall r cl, proj (set_ReConnect r cl) = proj cl) ->
  keeps proj (map_set c name ch).
Proof.
  intros Hr w c'. unfold map_set, bind, load.
  destruct (clients w !! c) as [cl|] eqn:Hc; [|reflexivity].
  destruct (ReConnect cl); [|reflexivity].
  cbn. now apply (keeps_store_of c cl).
Qed.

Lemma keeps_map_delete c name :
  (forall r cl, proj (set_ReConnect r cl) = proj cl) ->
  keeps proj (map_delete c name).
Proof.
  intros Hr w c'. unfold map_delete, bind, load.
  destruct (clients w !! c) as [cl|] eqn:Hc; [|reflexivity].
  destruct (ReConnect cl); [|reflexivity].
  cbn. now apply (keeps_store_of c cl).
Qed.

Lemma keeps_Lock c :
  (forall b cl, proj (set_lock b cl) = proj cl) -> keeps proj (Lock c).
Proof.
  intros Hb w c'. unfold Lock.
  destruct (clients w !! c) as [cl|] eqn:Hc; [|reflexivity].
  destruct (lock cl); [reflexivity|]. cbn. now apply (keeps_store_of c cl).
Qed.

Lemma keeps_Unlock c :
  (forall b cl, proj (set_lock b cl) = proj cl) -> keeps proj (Unlock c).
Proof.
  intros Hb w c'. unfold Unlock.
  destruct (clients w !! c) as [cl|] eqn:Hc; [|reflexivity].
  destruct (lock cl); [|reflexivity]. cbn. now apply (keeps_store_of c cl).
Qed.

Lemma keeps_make_chan n : keeps proj (make_chan n).
Proof. now intros w c. Qed.

Lemma keeps_chan_send ch : keeps proj (chan_send ch).
Proof.
  intros w c. unfold chan_send. destruct (chans w !! ch) as [st|]; [|reflexivity].
  destruct (closed st); [reflexivity|]. now destruct (buffered st <? cap st).
Qed.

Lemma keeps_chan_close ch : keeps proj (chan_close ch).
Proof.
  intros w c. unfold chan_close. destruct (chans w !! ch) as [st|]; [|reflexivity].
  now destruct (closed st).
Qed.

Lemma keeps_chan_recv ch : keeps proj (chan_recv ch).
Proof.
  intros w c. unfold chan_recv. destruct (chans w !! ch) as [st|]; [|reflexivity].
  destruct (buffered st); [now destruct (closed st) | reflexivity].
Qed.

Lemma keeps_notify_one ch :
  keeps proj (bind (chan_send ch) (fun _ => chan_close ch)).
Proof. apply keeps_bind; [apply keeps_chan_send | intros _; apply keeps_chan_close]. Qed.

Lemma keeps_register_body name c :
  (forall r cl, proj (set_ReConnect r cl) = proj cl) ->
  keeps proj (register_body name c).
Proof.
  intros Hr. unfold register_body. apply keeps_bind; [apply keeps_load|]. intros cl.
  destruct (map_get (ReConnect cl) name); [apply keeps_ret|].
  apply keeps_bind; [apply keeps_make_chan|]. intros ch.
  apply keeps_bind; [now apply keeps_map_set|]. intros _. apply keeps_ret.
Qed.

Lemma keeps_forward m a c : keeps proj (forward rpc m a c).
Proof.
  unfold forward. apply keeps_bind; [apply keeps_load|]. intros cl.
  destruct (Client cl); [apply keeps_ret | apply keeps_panic].
Qed.

Lemma exec_keeps {A} held (m : M A) (k : A -> pc) w p' w' :
  keeps proj m -> exec held m k w = Some (p', w') ->
  (forall c, proj <$> clients w' !! c = proj <$> clients w !! c)
  /\ ((exists a, p' = k a) \/ (exists msg, p' = Crashed held msg)).
Proof.
  intros Hm. unfold exec. pose proof (Hm w) as Hw.
  destruct (m w) as [a w1|msg w1|w1]; intros H; [| |discriminate];
    injection H as <- <-; (split; [exact Hw|]); eauto.
Qed.

Lemma exec_deferred_keeps {A} (m : M A) (k : A + string -> pc) w p' w' :
  keeps proj m -> exec_deferred m k w = Some (p', w') ->
  (forall c, proj <$> clients w' !! c = proj <$> clients w !! c)
  /\ exists r, p' = k r.
Proof.
  intros Hm. unfold exec_deferred. pose proof (Hm w) as Hw.
  destruct (m w) as [a w1|msg w1|w1]; intros H; [| |discriminate];
    injection H as <- <-; (split; [exact Hw|]); eauto.
Qed.

End Keeps.

(** ** The mutex operations *)

Lemma Lock_effect c w a w' :
  Lock c w = Returned a w' ->
  lock_of w c = Some false /\ lock_of w' c = Some true
  /\ forall c', c' <> c -> lock_of w' c' = lock_of w c'.
Proof.
  unfold Lock, lock_of. destruct (clients w !! c) as [cl|] eqn:Hc; [|discriminate].
  destruct (lock cl) eqn:Hl; [discriminate|].
  unfold store. intros H. injection H as _ <-. cbn.
  rewrite lookup_insert_eq, Hl. repeat split.
  intros c' Hne. now rewrite lookup_insert_ne.
Qed.

Lemma Lock_panics c w msg w' :
  Lock c w = Panicked msg w' -> w' = w.
Proof.
  unfold Lock. destruct (clients w !! c) as [cl|]; [|congruence].
  destruct (lock cl); [discriminate|]. unfold store. discriminate.
Qed.

Lemma Unlock_effect c w :
  lock_of w c = Some true ->
  exists w', Unlock c w = Returned tt w'
    /\ lock_of w' c = Some false
    /\ forall c', c' <> c -> lock_of w' c' = lock_of w c'.
Proof.
  unfold Unlock, lock_of. destruct (clients w !! c) as [cl|] eqn:Hc; [|discriminate].
  cbn. intros Hl. injection Hl as Hl. rewrite Hl. unfold store.
  eexists. split; [reflexivity|]. cbn. rewrite lookup_insert_eq. split; [reflexivity|].
  intros c' Hne. now rewrite lookup_insert_ne.
Qed.


(** ** What one move does to the mutexes *)

Lemma exec_keeps_stays {A} held (m : M A) (k : A -> pc) p w p' w' :
  keeps lock m -> holds p = held -> (forall a, holds (k a) = held) ->
  exec held m k w = Some (p', w') -> stays p p' w w'.
Proof.
  intros Hm Hp Hk H. destruct (exec_keeps lock held m k w p' w' Hm H) as [Hl Hp'].
  split; [|intros c; left; apply Hl].
  destruct Hp' as [[a ->] | [msg ->]]; [now rewrite Hk | now rewrite Hp].
Qed.

Lemma exec_Lock_kind c (k : unit -> pc) p w p' w' :
  holds p = None -> (forall a, holds (k a) = Some c) ->
  exec None (Lock c) k w = Some (p', w') ->
  stays p p' w w' \/ acquires c p p' w w'.
Proof.
  intros Hp Hk. unfold exec. destruct (Lock c w) as [a w1|msg w1|w1] eqn:E;
    intros H; [| |discriminate]; injection H as <- <-.
  - right. destruct (Lock_effect c w a w1 E) as (H1 & H2 & H3).
    now repeat split.
  - left. apply Lock_panics in E as ->. split; [now rewrite Hp | now left].
Qed.

Lemma exec_Unlock_kind c (k : unit -> pc) p w p' w' :
  holds p = Some c -> lock_of w c = Some true -> (forall a, holds (k a) = None) ->
  exec None (Unlock c) k w = Some (p', w') -> releases c p p' w w'.
Proof.
  intros Hp Hl Hk. unfold exec.
  destruct (Unlock_effect c w Hl) as (w1 & -> & H1 & H2).
  intros H. injection H as <- <-. now repeat split.
Qed.

Lemma New_locks rawurl d w c :
  lock_of (world_of (NewSafeClient rawurl d w)) c = lock_of w c
  \/ (lock_of w c = None /\ lock_of (world_of (NewSafeClient rawurl d w)) c = Some false).
Proof.
  rewrite NewSafeClient_spec. unfold lock_of.
  destruct (decide (c = fresh (dom (clients w)))) as [->|Hne].
  - right. rewrite fresh_client. split; [reflexivity|].
    destruct d; cbn; now rewrite lookup_insert_eq.
  - left. destruct d; cbn; now rewrite lookup_insert_ne.
Qed.

Lemma step_pc_kind d (p : pc) w p' w' :
  step_pc d p w = Some (p', w') ->
  (forall c, holds p = Some c -> lock_of w c = Some true) ->
  stays p p' w w'
  \/ exists c, acquires c p p' w w' \/ releases c p p' w w'.
Proof.
  intros Hstep Hheld.
  destruct p as [[rawurl|c name|c|c m a|ch]|c name|c r|c m a|c r|c|c client
                 |c client|c client|c|c entries keys|c keys|c|r|held msg];
    cbn [Conc.step_pc] in Hstep.
  - (* NewSafeClient *)
    left. unfold exec in Hstep. pose proof (New_locks rawurl d w) as Hl.
    destruct (NewSafeClient rawurl d w) as [a w1|msg w1|w1];
      [| |discriminate]; injection Hstep as <- <-; split; auto.
  - (* Register: Lock *)
    destruct (exec_Lock_kind c (fun _ => RegLocked c name)
                (Start (CallRegister c name)) w p' w'
                eq_refl (fun _ => eq_refl) Hstep); eauto.
  - (* Recover: Status = Failed *)
    left. eapply exec_keeps_stays; [apply keeps_assign | | | exact Hstep]; auto.
  - (* wrapper: Lock *)
    destruct (exec_Lock_kind c (fun _ => WrapLocked c m a)
                (Start (CallWrapper c m a)) w p' w'
                eq_refl (fun _ => eq_refl) Hstep); eauto.
  - (* receive *)
    left. eapply exec_keeps_stays; [apply keeps_chan_recv | | | exact Hstep]; auto.
  - (* Register: body *)
    left. destruct (exec_deferred_keeps lock _ _ w p' w'
                  (keeps_register_body lock name c (fun _ _ => eq_refl)) Hstep)
      as [Hl [r ->]]. split; [reflexivity | intros c'; left; apply Hl].
  - (* Register: Unlock *)
    right. exists c. right.
    eapply exec_Unlock_kind; [reflexivity | now apply Hheld | | exact Hstep].
    intros ?. now destruct r.
  - (* wrapper: body *)
    left. destruct (exec_deferred_keeps lock _ _ w p' w' (keeps_forward lock m a c) Hstep)
      as [Hl [r ->]]. split; [reflexivity | intros c'; left; apply Hl].
  - (* wrapper: Unlock *)
    right. exists c. right.
    eapply exec_Unlock_kind; [reflexivity | now apply Hheld | | exact Hstep].
    intros ?. now destruct r.
  - (* Recover: Dial *)
    left. destruct d as [client|err]; injection Hstep as <- <-;
      (split; [reflexivity | now left]).
  - (* Recover: Status = Ok *)
    left. eapply exec_keeps_stays; [apply keeps_assign | | | exact Hstep]; auto.
  - (* Recover: Lock *)
    destruct (exec_Lock_kind c (fun _ => RecSwap c client)
                (RecLock c client) w p' w'
                eq_refl (fun _ => eq_refl) Hstep); eauto.
  - (* Recover: swap *)
    left. eapply exec_keeps_stays; [apply keeps_assign | | | exact Hstep]; auto.
  - (* Recover: range *)
    left. eapply exec_keeps_stays; [apply keeps_load | | | exact Hstep]; auto.
  - (* Recover: first loop *)
    left. destruct entries as [|[name ch] rest].
    + injection Hstep as <- <-. split; [reflexivity | now left].
    + eapply exec_keeps_stays; [apply keeps_notify_one | | | exact Hstep]; auto.
  - (* Recover: second loop *)
    left. destruct keys as [|name rest].
    + injection Hstep as <- <-. split; [reflexivity | now left].
    + eapply exec_keeps_stays; [apply keeps_map_delete | | | exact Hstep]; auto.
  - (* Recover: Unlock *)
    right. exists c. right.
    eapply exec_Unlock_kind; [reflexivity | now apply Hheld | | exact Hstep]; auto.
  - discriminate.
  - discriminate.
Qed.


(** ** Mutual exclusion holds in every reachable state *)

Lemma thread_after (ths : list pc) t p' t' q :
  <[t := p']> ths !! t' = Some q ->
  (t' = t /\ q = p') \/ (t' <> t /\ ths !! t' = Some q).
Proof.
  intros H. apply list_lookup_insert_Some in H as [(-> & -> & _) | [Hne H]]; auto.
Qed.

Lemma thread_moved (ths : list pc) t p p' :
  ths !! t = Some p -> <[t := p']> ths !! t = Some p'.
Proof. intros H. apply list_lookup_insert_eq. now apply lookup_lt_Some in H. Qed.

Lemma thread_kept (ths : list pc) t p' t' :
  t' <> t -> <[t := p']> ths !! t' = ths !! t'.
Proof. intros H. now apply list_lookup_insert_ne. Qed.

Lemma mutex_inv_init : mutex_inv (@init Args Result).
Proof.
  split; cbn.
  - intros t p c H. inversion H.
  - intros t1 t2 p1 p2 c H. inversion H.
  - intros c. unfold lock_of, empty_world. cbn. rewrite lookup_empty. discriminate.
Qed.

Lemma mutex_inv_Go (s : cstate) k :
  mutex_inv s -> mutex_inv (mkCState (world s) (threads s ++ [Start k])).
Proof.
  intros [HL HO HH]. split; cbn.
  - intros t p c H Hp. apply lookup_snoc_Some in H as [[_ H] | [_ <-]].
    + exact (HL t p c H Hp).
    + discriminate Hp.
  - intros t1 t2 p1 p2 c H1 H2 Hp1 Hp2.
    apply lookup_snoc_Some in H1 as [[_ H1] | [_ <-]]; [|discriminate Hp1].
    apply lookup_snoc_Some in H2 as [[_ H2] | [_ <-]]; [|discriminate Hp2].
    exact (HO t1 t2 p1 p2 c H1 H2 Hp1 Hp2).
  - intros c Hc. destruct (HH c Hc) as (t & p & Ht & Hp).
    exists t, p. split; [|exact Hp].
    apply lookup_snoc_Some. left. split; [|exact Ht]. now apply lookup_lt_Some in Ht.
Qed.

Lemma mutex_inv_stays (s : cstate) t p p' w' :
  mutex_inv s -> threads s !! t = Some p -> stays p p' (world s) w' ->
  mutex_inv (mkCState w' (<[t := p']> (threads s))).
Proof.
  intros [HL HO HH] Ht [Hsame Hlocks]. split; cbn.
  - intros t' q c H Hq.
    assert (Hold : lock_of (world s) c = Some true).
    { apply thread_after in H as [[-> ->] | [Hne H]].
      - rewrite Hsame in Hq. exact (HL t p c Ht Hq).
      - exact (HL t' q c H Hq). }
    destruct (Hlocks c) as [E | [E _]]; congruence.
  - intros t1 t2 q1 q2 c H1 H2 Hq1 Hq2.
    apply thread_after in H1 as [[-> ->] | [Hne1 H1]];
      apply thread_after in H2 as [[-> ->] | [Hne2 H2]]; try reflexivity.
    + rewrite Hsame in Hq1. exact (HO t t2 p q2 c Ht H2 Hq1 Hq2).
    + rewrite Hsame in Hq2. exact (HO t1 t q1 p c H1 Ht Hq1 Hq2).
    + exact (HO t1 t2 q1 q2 c H1 H2 Hq1 Hq2).
  - intros c Hc.
    assert (Hold : lock_of (world s) c = Some true)
      by (destruct (Hlocks c) as [E | [_ E]]; congruence).
    destruct (HH c Hold) as (t0 & q & Ht0 & Hq).
    destruct (decide (t0 = t)) as [->|Hne].
    + exists t, p'. split; [now apply (thread_moved _ _ p)|].
      rewrite Hsame. congruence.
    + exists t0, q. split; [now rewrite thread_kept | exact Hq].
Qed.

Lemma mutex_inv_acquires (s : cstate) t p p' w' c :
  mutex_inv s -> threads s !! t = Some p -> acquires c p p' (world s) w' ->
  mutex_inv (mkCState w' (<[t := p']> (threads s))).
Proof.
  intros [HL HO HH] Ht (Hp & Hp' & Hfree & Htaken & Hothers).
  assert (Hnobody : forall t0 q, threads s !! t0 = Some q -> holds q <> Some c).
  { intros t0 q H0 Hq. rewrite (HL t0 q c H0 Hq) in Hfree. discriminate. }
  split; cbn.
  - intros t' q c' H Hq. apply thread_after in H as [[-> ->] | [Hne H]].
    + congruence.
    + rewrite Hothers; [exact (HL t' q c' H Hq)|].
      intros ->. exact (Hnobody t' q H Hq).
  - intros t1 t2 q1 q2 c' H1 H2 Hq1 Hq2.
    apply thread_after in H1 as [[-> ->] | [Hne1 H1]];
      apply thread_after in H2 as [[-> ->] | [Hne2 H2]]; try reflexivity.
    + exfalso. apply (Hnobody t2 q2 H2). congruence.
    + exfalso. apply (Hnobody t1 q1 H1). congruence.
    + exact (HO t1 t2 q1 q2 c' H1 H2 Hq1 Hq2).
  - intros c' Hc'. destruct (decide (c' = c)) as [->|Hne].
    + exists t, p'. split; [now apply (thread_moved _ _ p) | exact Hp'].
    + rewrite Hothers in Hc' by exact Hne.
      destruct (HH c' Hc') as (t0 & q & Ht0 & Hq).
      exists t0, q. split; [|exact Hq]. rewrite thread_kept; [exact Ht0|].
      intros ->. congruence.
Qed.

Lemma mutex_inv_releases (s : cstate) t p p' w' c :
  mutex_inv s -> threads s !! t = Some p -> releases c p p' (world s) w' ->
  mutex_inv (mkCState w' (<[t := p']> (threads s))).
Proof.
  intros [HL HO HH] Ht (Hp & Hp' & Hfreed & Hothers).
  assert (Honly : forall t0 q, threads s !! t0 = Some q -> holds q = Some c -> t0 = t).
  { intros t0 q H0 Hq. exact (HO t0 t q p c H0 Ht Hq Hp). }
  split; cbn.
  - intros t' q c' H Hq. apply thread_after in H as [[-> ->] | [Hne H]].
    + congruence.
    + rewrite Hothers; [exact (HL t' q c' H Hq)|].
      intros ->. apply Hne. exact (Honly t' q H Hq).
  - intros t1 t2 q1 q2 c' H1 H2 Hq1 Hq2.
    apply thread_after in H1 as [[-> ->] | [Hne1 H1]];
      apply thread_after in H2 as [[-> ->] | [Hne2 H2]]; try reflexivity;
      try congruence.
    exact (HO t1 t2 q1 q2 c' H1 H2 Hq1 Hq2).
  - intros c' Hc'. destruct (decide (c' = c)) as [->|Hne]; [congruence|].
    rewrite Hothers in Hc' by exact Hne.
    destruct (HH c' Hc') as (t0 & q & Ht0 & Hq).
    exists t0, q. split; [|exact Hq]. rewrite thread_kept; [exact Ht0|].
    intros ->. congruence.
Qed.

Lemma mutex_inv_step l (s s' : cstate) :
  mutex_inv s -> step l s = Some s' -> mutex_inv s'.
Proof.
  intros Hinv Hstep. destruct l as [k|t d]; cbn in Hstep.
  - injection Hstep as <-. now apply mutex_inv_Go.
  - destruct (threads s !! t) as [p|] eqn:Ht; [|discriminate].
    destruct (step_pc d p (world s)) as [[p' w']|] eqn:Hpc; [|discriminate].
    injection Hstep as <-.
    destruct (step_pc_kind d p (world s) p' w' Hpc) as [Hk | [c [Hk | Hk]]].
    + intros c Hc. exact (held_locked s Hinv t p c Ht Hc).
    + now apply (mutex_inv_stays s t p).
    + now apply (mutex_inv_acquires s t p p' w' c).
    + now apply (mutex_inv_releases s t p p' w' c).
Qed.

Lemma reachable_mutex (s : cstate) : reachable s -> mutex_inv s.
Proof.
  induction 1 as [|l s s' _ IH Hstep]; [exact mutex_inv_init|].
  exact (mutex_inv_step l s s' IH Hstep).
Qed.


(** ** Who changes the connection and the registry of a client *)

Lemma touches_ret {A} c0 (a : A) : touches_only c0 (ret a).
Proof. now intros w c. Qed.

Lemma touches_bind {A A'} c0 (m : M A) (k : A -> M A') :
  touches_only c0 m -> (forall a, touches_only c0 (k a)) ->
  touches_only c0 (bind m k).
Proof.
  intros Hm Hk w c Hne. unfold bind. specialize (Hm w c Hne).
  destruct (m w) as [a w'| |]; cbn in *; try exact Hm.
  now rewrite (Hk a w' c Hne).
Qed.

Lemma touches_load c0 c : touches_only c0 (load c).
Proof. intros w c' _. unfold load. now destruct (clients w !! c). Qed.

Lemma touches_assign c0 f : touches_only c0 (assign c0 f).
Proof.
  intros w c Hne. destruct (clients w !! c0) as [cl|] eqn:Hc.
  - rewrite (assign_Some _ _ _ _ Hc). cbn. now rewrite lookup_insert_ne.
  - now rewrite (assign_None _ _ _ Hc).
Qed.

Lemma touches_map_set c0 name ch : touches_only c0 (map_set c0 name ch).
Proof.
  intros w c Hne. unfold map_set, bind, load.
  destruct (clients w !! c0) as [cl|]; [|reflexivity].
  destruct (ReConnect cl); [|reflexivity]. cbn. now rewrite lookup_insert_ne.
Qed.

Lemma touches_map_delete c0 name : touches_only c0 (map_delete c0 name).
Proof.
  intros w c Hne. unfold map_delete, bind, load.
  destruct (clients w !! c0) as [cl|]; [|reflexivity].
  destruct (ReConnect cl); [|reflexivity]. cbn. now rewrite lookup_insert_ne.
Qed.

Lemma touches_register_body c0 name : touches_only c0 (register_body name c0).
Proof.
  unfold register_body. apply touches_bind; [apply touches_load|]. intros cl.
  destruct (map_get (ReConnect cl) name); [apply touches_ret|].
  apply touches_bind; [now intros w c|]. intros ch.
  apply touches_bind; [apply touches_map_set|]. intros _. apply touches_ret.
Qed.

Lemma touches_Lock c0 : touches_only c0 (Lock c0).
Proof.
  intros w c Hne. unfold Lock. destruct (clients w !! c0) as [cl|]; [|reflexivity].
  destruct (lock cl); [reflexivity|]. cbn. now rewrite lookup_insert_ne.
Qed.

Lemma touches_Unlock c0 : touches_only c0 (Unlock c0).
Proof.
  intros w c Hne. unfold Unlock. destruct (clients w !! c0) as [cl|]; [|reflexivity].
  destruct (lock cl); [|reflexivity]. cbn. now rewrite lookup_insert_ne.
Qed.

Lemma touches_forward c0 m a : touches_only c0 (forward rpc m a c0).
Proof.
  intros w c _. unfold forward, bind, load.
  destruct (clients w !! c0) as [cl|]; [|reflexivity]. now destruct (Client cl).
Qed.

Lemma touches_notify_one c0 ch :
  touches_only c0 (bind (chan_send ch) (fun _ => chan_close ch)).
Proof.
  intros w c _.
  pose proof (keeps_notify_one (fun cl => cl) ch w c) as H.
  now rewrite !option_fmap_id in H.
Qed.

Lemma clients_chan_recv ch w : clients (world_of (chan_recv ch w)) = clients w.
Proof.
  unfold chan_recv. destruct (chans w !! ch) as [st|]; [|reflexivity].
  destruct (buffered st); [now destruct (closed st) | reflexivity].
Qed.

Lemma exec_touches {A} c0 held (m : M A) (k : A -> pc) w p' w' c :
  touches_only c0 m -> c <> c0 -> exec held m k w = Some (p', w') ->
  clients w' !! c = clients w !! c.
Proof.
  intros Hm Hne. unfold exec. specialize (Hm w c Hne).
  destruct (m w) as [a w1|msg w1|w1]; intros H; [| |discriminate];
    now injection H as <- <-.
Qed.

Lemma exec_deferred_touches {A} c0 (m : M A) (k : A + string -> pc) w p' w' c :
  touches_only c0 m -> c <> c0 -> exec_deferred m k w = Some (p', w') ->
  clients w' !! c = clients w !! c.
Proof.
  intros Hm Hne. unfold exec_deferred. specialize (Hm w c Hne).
  destruct (m w) as [a w1|msg w1|w1]; intros H; [| |discriminate];
    now injection H as <- <-.
Qed.

Lemma New_keeps_clients rawurl d w c :
  is_Some (clients w !! c) ->
  clients (world_of (NewSafeClient rawurl d w)) !! c = clients w !! c.
Proof.
  intros [cl Hc]. rewrite NewSafeClient_spec.
  assert (Hne : fresh (dom (clients w)) <> c)
    by (intros <-; rewrite fresh_client in Hc; discriminate).
  destruct d; cbn; now rewrite lookup_insert_ne.
Qed.

(** A move of a goroutine whose call is on another client leaves the
    whole of client [c] alone. *)
Lemma step_pc_elsewhere d (p : pc) w p' w' c :
  step_pc d p w = Some (p', w') ->
  is_Some (clients w !! c) -> target p <> Some c ->
  clients w' !! c = clients w !! c.
Proof.
  intros Hstep Hc Hp.
  destruct p as [[rawurl|c0 name|c0|c0 m a|ch]|c0 name|c0 r|c0 m a|c0 r|c0|c0 client
                 |c0 client|c0 client|c0|c0 entries keys|c0 keys|c0|r|held msg];
    cbn [Conc.step_pc] in Hstep; cbn [target] in Hp;
    try (assert (Hne : c <> c0) by congruence).
  - unfold exec in Hstep. pose proof (New_keeps_clients rawurl d w c Hc) as Hn.
    destruct (NewSafeClient rawurl d w) as [a w1|msg w1|w1]; [| |discriminate];
      now injection Hstep as <- <-.
  - exact (exec_touches c0 _ _ _ w p' w' c (touches_Lock c0) Hne Hstep).
  - exact (exec_touches c0 _ _ _ w p' w' c (touches_assign c0 _) Hne Hstep).
  - exact (exec_touches c0 _ _ _ w p' w' c (touches_Lock c0) Hne Hstep).
  - unfold exec in Hstep. pose proof (clients_chan_recv ch w) as Hn.
    destruct (chan_recv ch w) as [a w1|msg w1|w1]; [| |discriminate];
      injection Hstep as <- <-; cbn in Hn; now rewrite Hn.
  - exact (exec_deferred_touches c0 _ _ w p' w' c (touches_register_body c0 name) Hne Hstep).
  - exact (exec_touches c0 _ _ _ w p' w' c (touches_Unlock c0) Hne Hstep).
  - exact (exec_deferred_touches c0 _ _ w p' w' c (touches_forward c0 m a) Hne Hstep).
  - exact (exec_touches c0 _ _ _ w p' w' c (touches_Unlock c0) Hne Hstep).
  - destruct d; now injection Hstep as <- <-.
  - exact (exec_touches c0 _ _ _ w p' w' c (touches_assign c0 _) Hne Hstep).
  - exact (exec_touches c0 _ _ _ w p' w' c (touches_Lock c0) Hne Hstep).
  - exact (exec_touches c0 _ _ _ w p' w' c (touches_assign c0 _) Hne Hstep).
  - exact (exec_touches c0 _ _ _ w p' w' c (touches_load c0 c0) Hne Hstep).
  - destruct entries as [|[name ch] rest].
    + now injection Hstep as <- <-.
    + exact (exec_touches c0 _ _ _ w p' w' c (touches_notify_one c0 ch) Hne Hstep).
  - destruct keys as [|name rest].
    + now injection Hstep as <- <-.
    + exact (exec_touches c0 _ _ _ w p' w' c (touches_map_delete c0 name) Hne Hstep).
  - exact (exec_touches c0 _ _ _ w p' w' c (touches_Unlock c0) Hne Hstep).
  - discriminate.
  - discriminate.
Qed.

(** A move of a goroutine that is not between [Lock] and [Unlock] of
    client [c] leaves the connection and the registry of [c] alone. *)
Lemma step_pc_guarded d (p : pc) w p' w' c :
  step_pc d p w = Some (p', w') ->
  is_Some (clients w !! c) -> holds p <> Some c ->
  guarded <$> clients w' !! c = guarded <$> clients w !! c.
Proof.
  intros Hstep Hc Hp.
  assert (Hk : forall {A} held (m : M A) (k : A -> pc),
            keeps guarded m -> exec held m k w = Some (p', w') ->
            guarded <$> clients w' !! c = guarded <$> clients w !! c).
  { intros A held m k Hm H. now destruct (exec_keeps guarded held m k w p' w' Hm H). }
  destruct p as [[rawurl|c0 name|c0|c0 m a|ch]|c0 name|c0 r|c0 m a|c0 r|c0|c0 client
                 |c0 client|c0 client|c0|c0 entries keys|c0 keys|c0|r|held msg];
    cbn [Conc.step_pc] in Hstep; cbn [holds] in Hp.
  - unfold exec in Hstep. pose proof (New_keeps_clients rawurl d w c Hc) as Hn.
    destruct (NewSafeClient rawurl d w) as [a w1|msg w1|w1]; [| |discriminate];
      injection Hstep as <- <-; cbn in Hn; now rewrite Hn.
  - eapply Hk; [|exact Hstep]. now apply keeps_Lock.
  - eapply Hk; [|exact Hstep]. now apply keeps_assign.
  - eapply Hk; [|exact Hstep]. now apply keeps_Lock.
  - eapply Hk; [|exact Hstep]. apply keeps_chan_recv.
  - assert (Hne : c <> c0) by congruence.
    now rewrite (exec_deferred_touches c0 _ _ w p' w' c
                   (touches_register_body c0 name) Hne Hstep).
  - eapply Hk; [|exact Hstep]. now apply keeps_Unlock.
  - destruct (exec_deferred_keeps guarded _ _ w p' w' (keeps_forward guarded m a c0) Hstep)
      as [Hg _]. apply Hg.
  - eapply Hk; [|exact Hstep]. now apply keeps_Unlock.
  - destruct d; now injection Hstep as <- <-.
  - eapply Hk; [|exact Hstep]. now apply keeps_assign.
  - eapply Hk; [|exact Hstep]. now apply keeps_Lock.
  - assert (Hne : c <> c0) by congruence.
    now rewrite (exec_touches c0 _ _ _ w p' w' c (touches_assign c0 _) Hne Hstep).
  - eapply Hk; [|exact Hstep]. apply keeps_load.
  - destruct entries as [|[name ch] rest].
    + now injection Hstep as <- <-.
    + eapply Hk; [|exact Hstep]. apply keeps_notify_one.
  - destruct keys as [|name rest].
    + now injection Hstep as <- <-.
    + assert (Hne : c <> c0) by congruence.
      now rewrite (exec_touches c0 _ _ _ w p' w' c (touches_map_delete c0 name) Hne Hstep).
  - eapply Hk; [|exact Hstep]. now apply keeps_Unlock.
  - discriminate.
  - discriminate.
Qed.


Lemma run_reachable sched (s s' : cstate) :
  reachable s -> run rpc range sched s = Some s' -> reachable s'.
Proof.
  revert s. induction sched as [|l sched IH]; intros s Hs Hrun; cbn in Hrun.
  - now injection Hrun as <-.
  - destruct (step l s) as [s1|] eqn:Hstep; [|discriminate].
    apply (IH s1); [|exact Hrun]. exact (reach_step rpc range l s s1 Hs Hstep).
Qed.

Lemma lock_of_Some w c b :
  lock_of w c = Some b -> exists cl, clients w !! c = Some cl /\ lock cl = b.
Proof.
  unfold lock_of. destruct (clients w !! c) as [cl|]; [|discriminate].
  cbn. intros H. injection H as <-. eauto.
Qed.

(** A wrapper that has the mutex is forwarded to the connection the
    client holds at that moment. *)
Lemma forward_step (s : cstate) t d c m a cl k :
  threads s !! t = Some (WrapLocked c m a) ->
  clients (world s) !! c = Some cl -> Client cl = Some k ->
  step (Run t d) s
  = Some (mkCState (world s) (<[t := WrapUnlock c (inl (rpc k m a))]> (threads s))).
Proof.
  intros Ht Hc Hk. cbn. rewrite Ht. cbn.
  unfold exec_deferred, forward, bind. rewrite (load_Some _ _ _ Hc), Hk. reflexivity.
Qed.

(** The swap stores the new connection. *)
Lemma swap_step (s : cstate) t d c client cl :
  threads s !! t = Some (RecSwap c client) ->
  clients (world s) !! c = Some cl ->
  step (Run t d) s
  = Some (mkCState
            (mkWorld (<[c := set_Client (Some client) cl]> (clients (world s)))
                     (chans (world s)))
            (<[t := RecRange c]> (threads s))).
Proof.
  intros Ht Hc. cbn. rewrite Ht. cbn.
  unfold exec. now rewrite (assign_Some _ _ _ _ Hc).
Qed.

(** A wrapper whose client's mutex is free takes it. *)
Lemma wrapper_enters (s : cstate) t d c m a cl :
  threads s !! t = Some (Start (CallWrapper c m a)) ->
  clients (world s) !! c = Some cl -> lock cl = false ->
  step (Run t d) s
  = Some (mkCState
            (mkWorld (<[c := set_lock true cl]> (clients (world s)))
                     (chans (world s)))
            (<[t := WrapLocked c m a]> (threads s))).
Proof.
  intros Ht Hc Hl. cbn. rewrite Ht. cbn.
  unfold exec. now rewrite (Lock_free _ _ _ Hc Hl).
Qed.

(** ** The statements about goroutines *)

(** C5, as the code has it: the forwarding step of every capability
    method, and the swap, notify and retire steps of
    [RecoverDisconnect], run between [Lock] and [Unlock] of the client's
    one mutex, which is locked then and held by one goroutine at a time.
    A call that has the mutex is forwarded once, to the connection the
    client holds at that moment (the new one once the swap has run, for
    only a goroutine holding the mutex changes the connection), and its
    answer is what the call returns.  The mutex is not held while
    [RecoverDisconnect] dials: whenever no goroutine stands between
    [Lock] and [Unlock] of the client, a call issued on it takes the
    mutex at once, reconnect in progress or not. *)
Theorem calls_serialized_not_held_back
  (s : cstate) (Hreach : reachable s) :
  (* the sections under the mutex *)
  (forall c m a client entries keys,
     holds (@WrapLocked Args Result c m a) = Some c
     /\ holds (@RecSwap Args Result c client) = Some c
     /\ holds (@RecNotify Args Result c entries keys) = Some c
     /\ holds (@RecRetire Args Result c keys) = Some c
     /\ holds (@RecDial Args Result c) = None
     /\ holds (@RecDialed Args Result c client) = None
     /\ holds (@RecLock Args Result c client) = None)
  (* mutual exclusion *)
  /\ (forall t p c, threads s !! t = Some p -> holds p = Some c ->
        lock_of (world s) c = Some true)
  /\ (forall t1 t2 p1 p2 c,
        threads s !! t1 = Some p1 -> threads s !! t2 = Some p2 ->
        holds p1 = Some c -> holds p2 = Some c -> t1 = t2)
  (* forwarding uses the connection of the moment, the swap installs it *)
  /\ (forall t d c m a cl k,
        threads s !! t = Some (WrapLocked c m a) ->
        clients (world s) !! c = Some cl -> Client cl = Some k ->
        step (Run t d) s
        = Some (mkCState (world s)
                  (<[t := WrapUnlock c (inl (rpc k m a))]> (threads s))))
  /\ (forall t d c x,
        threads s !! t = Some (WrapUnlock c (inl x)) ->
        exists s', step (Run t d) s = Some s'
          /\ threads s' !! t = Some (Done (RetResult x)))
  /\ (forall t d c client,
        threads s !! t = Some (RecSwap c client) ->
        exists s', step (Run t d) s = Some s'
          /\ threads s' !! t = Some (RecRange c)
          /\ Client <$> clients (world s') !! c = Some (Some client))
  /\ (forall t d p s' c,
        threads s !! t = Some p -> step (Run t d) s = Some s' ->
        is_Some (clients (world s) !! c) -> holds p <> Some c ->
        Client <$> clients (world s') !! c = Client <$> clients (world s) !! c)
  (* no waiting while the reconnect only dials *)
  /\ (forall t d c m a,
        threads s !! t = Some (Start (CallWrapper c m a)) ->
        is_Some (clients (world s) !! c) ->
        (forall t' p', threads s !! t' = Some p' -> holds p' <> Some c) ->
        exists s', step (Run t d) s = Some s'
          /\ threads s' !! t = Some (WrapLocked c m a)).
Proof.
  pose proof (reachable_mutex s Hreach) as Hinv.
  split; [now intros|].
  split; [exact (held_locked s Hinv)|].
  split; [exact (held_once s Hinv)|].
  split; [intros t d c m a cl k; apply forward_step|].
  split; [|split; [|split]].
  - intros t d c x Ht.
    destruct (Unlock_effect c (world s) (held_locked s Hinv t _ c Ht eq_refl))
      as (w' & Hun & _).
    eexists. cbn. rewrite Ht. cbn. unfold exec. rewrite Hun.
    split; [reflexivity|]. cbn.
    now apply (thread_moved _ _ (WrapUnlock c (inl x))).
  - intros t d c client Ht.
    destruct (lock_of_Some _ _ _ (held_locked s Hinv t _ c Ht eq_refl)) as (cl & Hc & _).
    eexists. split; [exact (swap_step s t d c client cl Ht Hc)|]. cbn. split.
    + now apply (thread_moved _ _ (RecSwap c client)).
    + now rewrite lookup_insert_eq.
  - intros t d p s' c Ht Hstep Hc Hp. cbn in Hstep. rewrite Ht in Hstep.
    destruct (step_pc d p (world s)) as [[p' w']|] eqn:Hpc; [|discriminate].
    injection Hstep as <-. cbn.
    pose proof (step_pc_guarded d p (world s) p' w' c Hpc Hc Hp) as Hg.
    unfold guarded in Hg.
    destruct (clients w' !! c), (clients (world s) !! c); cbn in *; congruence.
  - intros t d c m a Ht [cl Hc] Hfree.
    assert (Hl : lock cl = false).
    { destruct (lock cl) eqn:E; [|reflexivity]. exfalso.
      destruct (locked_held s Hinv c) as (t' & p' & Ht' & Hp').
      - unfold lock_of. rewrite Hc. cbn. now rewrite E.
      - exact (Hfree t' p' Ht' Hp'). }
    eexists. split; [exact (wrapper_enters s t d c m a cl Ht Hc Hl)|]. cbn.
    now apply (thread_moved _ _ (Start (CallWrapper c m a))).
Qed.


Lemma wrapper_step_chans d (p : pc) w p' w' :
  in_wrapper p = true -> step_pc d p w = Some (p', w') -> chans w' = chans w.
Proof.
  intros Hin Hstep.
  destruct p as [[]| | |c m a|c r| | | | | | | | | |]; try discriminate Hin;
    cbn [Conc.step_pc] in Hstep.
  - unfold exec, Lock in Hstep. destruct (clients w !! c) as [cl|].
    + destruct (lock cl); [discriminate|]. now injection Hstep as <- <-.
    + now injection Hstep as <- <-.
  - unfold exec_deferred, forward, bind, load in Hstep.
    destruct (clients w !! c) as [cl|]; [|now injection Hstep as <- <-].
    destruct (Client cl); now injection Hstep as <- <-.
  - unfold exec, Unlock in Hstep. destruct (clients w !! c) as [cl|].
    + destruct (lock cl); now injection Hstep as <- <-.
    + now injection Hstep as <- <-.
Qed.

Lemma wrapper_step_fields d (p : pc) w p' w' c :
  in_wrapper p = true -> step_pc d p w = Some (p', w') ->
  fields <$> clients w' !! c = fields <$> clients w !! c.
Proof.
  intros Hin Hstep.
  destruct p as [[]| | |c0 m a|c0 r| | | | | | | | | |]; try discriminate Hin;
    cbn [Conc.step_pc] in Hstep.
  - destruct (exec_keeps fields _ _ _ w p' w' (keeps_Lock fields c0 (fun _ _ => eq_refl)) Hstep)
      as [H _]. apply H.
  - destruct (exec_deferred_keeps fields _ _ w p' w' (keeps_forward fields m a c0) Hstep)
      as [H _]. apply H.
  - destruct (exec_keeps fields _ _ _ w p' w' (keeps_Unlock fields c0 (fun _ _ => eq_refl)) Hstep)
      as [H _]. apply H.
Qed.

(** C10: a capability wrapper leaves the client as it found it.  Run on
    its own, whatever it returns, the world after the call is the world
    before it.  Among other goroutines, each of its moves leaves the
    connection, the url, the registry and the status of every client,
    and every channel, untouched: it takes and gives back the mutex,
    nothing else. *)
Theorem wrappers_read_only
  (m : method) (a : Args) (c : ptr) (w : World)
  (d : dial_result) (p p' : pc) (w1 w1' : World)
  (Hin : in_wrapper p = true)
  (Hstep : step_pc d p w1 = Some (p', w1')) :
  world_of (wrapper rpc m a c w) = w
  /\ (forall c', fields <$> clients w1' !! c' = fields <$> clients w1 !! c')
  /\ chans w1' = chans w1.
Proof.
  split; [apply wrapper_world|]. split.
  - intros c'. exact (wrapper_step_fields d p w1 p' w1' c' Hin Hstep).
  - exact (wrapper_step_chans d p w1 p' w1' Hin Hstep).
Qed.

(** C7: the registry is part of its client.  Calls on client [c] leave
    every other client [c'] as it was, field by field, and leave the
    channels registered with [c'] as they were; a new client appears at
    a new address and changes nothing else.  Among goroutines, the body
    of [RegisterReConnectNotify] and the notify and retire loops of
    [RecoverDisconnect] run with the mutex of their own client locked,
    one goroutine at a time for each client; a goroutine that does not
    hold the mutex of a client changes neither its registry nor its
    connection, and a goroutine whose call is on another client changes
    nothing of it at all. *)
Theorem registry_owned_by_its_client
  (w : World) (s : cstate) (c c' : ptr) (cl' : SafeEthClient)
  (Hw : Safe.reachable w) (Hs : reachable s)
  (Hne : c <> c') (Hc' : clients w !! c' = Some cl') :
  (forall name,
     let w1 := world_of (RegisterReConnectNotify name c w) in
     clients w1 !! c' = Some cl'
     /\ forall n ch, registered w c' n ch -> chans w1 !! ch = chans w !! ch)
  /\ (forall dials o,
        visits_all range -> RecoverDisconnect range dials c w = Some o ->
        clients (world_of o) !! c' = Some cl'
        /\ forall n ch, registered w c' n ch ->
             chans (world_of o) !! ch = chans w !! ch)
  /\ (forall rawurl d,
        let w1 := world_of (NewSafeClient rawurl d w) in
        clients w1 !! c' = Some cl' /\ chans w1 = chans w)
  /\ (forall c0 name entries keys,
        holds (@RegLocked Args Result c0 name) = Some c0
        /\ holds (@RecNotify Args Result c0 entries keys) = Some c0
        /\ holds (@RecRetire Args Result c0 keys) = Some c0)
  /\ (forall t p c0, threads s !! t = Some p -> holds p = Some c0 ->
        lock_of (world s) c0 = Some true)
  /\ (forall t1 t2 p1 p2 c0,
        threads s !! t1 = Some p1 -> threads s !! t2 = Some p2 ->
        holds p1 = Some c0 -> holds p2 = Some c0 -> t1 = t2)
  /\ (forall t d p s' c0,
        threads s !! t = Some p -> step (Run t d) s = Some s' ->
        is_Some (clients (world s) !! c0) -> holds p <> Some c0 ->
        guarded <$> clients (world s') !! c0 = guarded <$> clients (world s) !! c0)
  /\ (forall t d p s' c0,
        threads s !! t = Some p -> step (Run t d) s = Some s' ->
        is_Some (clients (world s) !! c0) -> target p <> Some c0 ->
        clients (world s') !! c0 = clients (world s) !! c0).
Proof.
  pose proof (reachable_inv w Hw) as Hinv.
  pose proof (reachable_mutex s Hs) as Hmutex.
  split; [|split; [|split; [|split; [|split; [|split; [|split]]]]]].
  - intros name w1. subst w1.
    destruct (Register_frame w name c c' Hinv Hne) as [H1 H2].
    split; [now rewrite H1 | exact H2].
  - intros dials o Hr Hrun.
    destruct (Recover_frame w range dials c c' o Hinv Hr Hne Hrun) as [H1 H2].
    split; [now rewrite H1 | exact H2].
  - intros rawurl d w1. subst w1.
    destruct (New_frame w rawurl d c') as [H1 H2]; [eauto|].
    split; [now rewrite H1 | exact H2].
  - now intros.
  - exact (held_locked s Hmutex).
  - exact (held_once s Hmutex).
  - intros t d p s' c0 Ht Hstep Hc Hp. cbn in Hstep. rewrite Ht in Hstep.
    destruct (step_pc d p (world s)) as [[p' w']|] eqn:Hpc; [|discriminate].
    injection Hstep as <-. cbn.
    exact (step_pc_guarded d p (world s) p' w' c0 Hpc Hc Hp).
  - intros t d p s' c0 Ht Hstep Hc Hp. cbn in Hstep. rewrite Ht in Hstep.
    destruct (step_pc d p (world s)) as [[p' w']|] eqn:Hpc; [|discriminate].
    injection Hstep as <-. cbn.
    exact (step_pc_elsewhere d p (world s) p' w' c0 Hpc Hc Hp).
Qed.

End ConcFacts.

(** * Part VII: the statements about goroutines on a schedule *)
Section Schedules.
Import Safe Conc Samples.

Lemma call_while_dialing_runs :
  run echo_rpc map_to_list call_while_dialing init
  = Some (state_after call_while_dialing).
Proof. vm_compute. reflexivity. Qed.

Lemma wrapper_inside_runs :
  run echo_rpc map_to_list wrapper_inside init = Some (state_after wrapper_inside).
Proof. vm_compute. reflexivity. Qed.

Lemma call_while_dialing_reachable :
  reachable echo_rpc map_to_list (state_after call_while_dialing).
Proof.
  exact (run_reachable echo_rpc map_to_list call_while_dialing init _
           (reach_init echo_rpc map_to_list) call_while_dialing_runs).
Qed.

Lemma wrapper_inside_reachable :
  reachable echo_rpc map_to_list (state_after wrapper_inside).
Proof.
  exact (run_reachable echo_rpc map_to_list wrapper_inside init _
           (reach_init echo_rpc map_to_list) wrapper_inside_runs).
Qed.

(** C5, as claimed, fails.  [RecoverDisconnect] on client 0 has had its
    dial refused and is about to dial again; the client still holds the
    old connection 5 and its status says [ConnectionFailed].  A
    [BlockByHash] issued now does not wait for the reconnect: it takes
    the mutex, is answered by connection 5 and returns, while the
    reconnecting goroutine has not moved. *)
Lemma call_during_reconnect_not_blocked :
  let s := state_after call_while_dialing in
  threads s !! 1 = Some (RecDial 0)
  /\ reconnecting (@RecDial unit (conn * method) 0) = Some 0
  /\ threads s !! 2 = Some (Start (CallWrapper 0 BlockByHash tt))
  /\ fields <$> clients (world s) !! 0
     = Some (Some 5, "ws://127.0.0.1:8546", Some ∅, ConnectionFailed)
  /\ (exists s',
        run echo_rpc map_to_list wrapper_to_the_end s = Some s'
        /\ threads s' !! 1 = Some (RecDial 0)
        /\ threads s' !! 2 = Some (Done (RetResult (5, BlockByHash)))
        /\ fields <$> clients (world s') !! 0
           = Some (Some 5, "ws://127.0.0.1:8546", Some ∅, ConnectionFailed))
  /\ ~ calls_wait_for_reconnect echo_rpc map_to_list.
Proof.
  intros s. subst s.
  split; [vm_compute; reflexivity|].
  split; [reflexivity|].
  split; [vm_compute; reflexivity|].
  split; [vm_compute; reflexivity|].
  split.
  - eexists. split; [vm_compute; reflexivity|].
    split; [vm_compute; reflexivity|].
    split; vm_compute; reflexivity.
  - intros Hclaim.
    assert (Hnone : step echo_rpc map_to_list (Run 2 (inl 0))
                      (state_after call_while_dialing) = None).
    { apply (Hclaim (state_after call_while_dialing) 2 1 0 BlockByHash tt
               (RecDial 0) (inl 0) call_while_dialing_reachable).
      - vm_compute. reflexivity.
      - vm_compute. reflexivity.
      - reflexivity. }
    vm_compute in Hnone. discriminate Hnone.
Qed.

Lemma calls_serialized_not_held_back_witness :
  lock_of (world (state_after wrapper_inside)) 0 = Some true.
Proof.
  refine (proj1 (proj2 (calls_serialized_not_held_back echo_rpc map_to_list
                          (state_after wrapper_inside) wrapper_inside_reachable))
            2 (WrapLocked 0 BlockByHash tt) 0 _ _).
  - vm_compute. reflexivity.
  - reflexivity.
Defined.

Lemma wrappers_read_only_witness :
  world_of (wrapper echo_rpc BlockByHash tt 0 w_pair) = w_pair.
Proof.
  refine (proj1 (wrappers_read_only echo_rpc map_to_list BlockByHash tt 0 w_pair
                   (inl 0) (WrapLocked 0 BlockByHash tt)
                   (WrapUnlock 0 (inl (5, BlockByHash)))
                   (world (state_after wrapper_inside))
                   (world (state_after wrapper_inside)) eq_refl _)).
  vm_compute. reflexivity.
Defined.

Lemma registry_owned_by_its_client_witness :
  clients (world_of (RegisterReConnectNotify "price" 0 w_pair)) !! 1
  = clients w_pair !! 1.
Proof.
  edestruct (registry_owned_by_its_client echo_rpc map_to_list w_pair
               (state_after wrapper_inside) 0 1) as (Hreg & _).
  - exact w_pair_reachable.
  - exact wrapper_inside_reachable.
  - discriminate.
  - vm_compute. reflexivity.
  - destruct (Hreg "price") as [H _]. rewrite H. vm_compute. reflexivity.
Defined.

End Schedules.

(** * Part VIII: the registries while goroutines run *)
Section ConcRegistry.
Import Safe Conc.
Context {Args Result : Type}.
Variable rpc : conn -> method -> Args -> Result.
Variable range : gmap string chan -> list (string * chan).
Hypothesis range_visits_all : visits_all range.

Local Abbreviation pc := (@Conc.pc Args Result).
Local Abbreviation cstate := (@Conc.cstate Args Result).
Local Abbreviation step_pc := (Conc.step_pc rpc range).
Local Abbreviation step := (Conc.step rpc range).
Local Abbreviation reachable := (Conc.reachable rpc range).

Lemma registered_registry w c n ch :
  registered w c n ch <-> exists m, registry w c = Some m /\ m !! n = Some ch.
Proof.
  unfold registered, registry. split.
  - intros (cl & m & Hc & Hm & Hn). exists m. rewrite Hc. cbn. auto.
  - intros (m & Hr & Hn). destruct (clients w !! c) as [cl|]; [|discriminate].
    cbn in Hr. now exists cl, m.
Qed.

Lemma registry_of_keeps w w' :
  (forall c, ReConnect <$> clients w' !! c = ReConnect <$> clients w !! c) ->
  forall c, registry w' c = registry w c.
Proof.
  intros H c. unfold registry. specialize (H c).
  destruct (clients w' !! c), (clients w !! c); cbn in *; congruence.
Qed.

Lemma clients_of_keeps {B} (proj : SafeEthClient -> B) w w' :
  (forall c, proj <$> clients w' !! c = proj <$> clients w !! c) ->
  forall c, is_Some (clients w' !! c) <-> is_Some (clients w !! c).
Proof.
  intros H c. specialize (H c). rewrite <- !(fmap_is_Some proj). now rewrite H.
Qed.

Lemma holds_in_loops (p : pc) c : in_loops p = Some c -> holds p = Some c.
Proof. destruct p; cbn; congruence. Qed.

(** A registered channel exists. *)
Lemma registered_known (s : cstate) c n ch :
  reg_inv s -> registered (world s) c n ch -> is_Some (chans (world s) !! ch).
Proof.
  intros Hinv Hreg. destruct (ri_pending s Hinv c n ch Hreg) as [Hp | (t & p & Ht & Hp)].
  - unfold pending in Hp. eauto.
  - pose proof (ri_loops s Hinv t p Ht) as Hok.
    apply registered_registry in Hreg as (m & Hm & Hn).
    destruct p; try discriminate Hp; cbn in Hp; injection Hp as ->; cbn in Hok.
    + destruct Hok as (m' & Hm' & _ & Hin & Hall). rewrite Hm in Hm'. injection Hm' as <-.
      destruct (Hall n ch Hn) as [He | [_ (st & Hst & _)]]; [|eauto].
      destruct (Hin n ch He) as [_ Hpend]. unfold pending in Hpend. eauto.
    + destruct Hok as (m' & Hm' & Hall). rewrite Hm in Hm'. injection Hm' as <-.
      destruct (Hall n ch Hn) as [_ (st & Hst & _)]. eauto.
Qed.

(** The state of things for a goroutine carries over to a world in
    which its client's registry and the state of its channels are the
    same. *)
Lemma loop_ok_frame w w' (p : pc) :
  (forall c, holds p = Some c -> registry w' c = registry w c) ->
  (forall c n ch, holds p = Some c -> registered w c n ch ->
     (pending w ch -> pending w' ch) /\ (fired w ch -> fired w' ch)) ->
  loop_ok w p -> loop_ok w' p.
Proof.
  intros Hreg Hch Hok.
  destruct p as [| | | | | | | | |c|c entries keys|c keys|c| |[c|] msg];
    cbn in *; try exact Hok.
  - destruct Hok as (m & Hm & Hnd & Hin & Hall).
    exists m. rewrite (Hreg c eq_refl). split; [exact Hm|]. split; [exact Hnd|].
    assert (Hr : forall n ch, m !! n = Some ch -> registered w c n ch)
      by (intros n ch Hn; apply registered_registry; eauto).
    split.
    + intros n ch He. destruct (Hin n ch He) as [Hn Hp]. split; [exact Hn|].
      now apply (Hch c n ch eq_refl (Hr n ch Hn)).
    + intros n ch Hn. destruct (Hall n ch Hn) as [He | [Hk Hf]]; [now left|].
      right. split; [exact Hk|]. now apply (Hch c n ch eq_refl (Hr n ch Hn)).
  - destruct Hok as (m & Hm & Hall).
    exists m. rewrite (Hreg c eq_refl). split; [exact Hm|].
    intros n ch Hn. destruct (Hall n ch Hn) as [Hk Hf]. split; [exact Hk|].
    apply (Hch c n ch eq_refl); [apply registered_registry; eauto | exact Hf].
  - rewrite (Hreg c eq_refl). exact Hok.
Qed.


(** ** One move and the registries

    The general shape of a move of goroutine [t] from [p] to [p']: the
    registries of the clients whose mutex it does not hold stay as they
    are (or appear, empty), and so does the state of their channels;
    for the client whose mutex it holds, the entries of the registry
    are old ones or bind a channel just made, and are pending unless
    the goroutine is inside the loops. *)
Lemma reg_inv_update (s : cstate) t p p' w' :
  reg_inv s -> mutex_inv s -> threads s !! t = Some p ->
  (forall c, holds p <> Some c ->
     registry w' c = registry (world s) c
     \/ (clients (world s) !! c = None /\ registry w' c = Some ∅)) ->
  (forall c, is_Some (clients w' !! c) -> is_Some (registry w' c)) ->
  (forall c n ch, holds p = Some c -> registered w' c n ch ->
     (registered (world s) c n ch
      \/ (chans (world s) !! ch = None
          /\ forall n', registered w' c n' ch -> n' = n))
     /\ (pending w' ch \/ in_loops p' = Some c)) ->
  (forall c n ch, holds p <> Some c -> registered (world s) c n ch ->
     (pending (world s) ch -> pending w' ch)
     /\ (fired (world s) ch -> fired w' ch)) ->
  loop_ok w' p' ->
  reg_inv (mkCState w' (<[t := p']> (threads s))).
Proof.
  intros Hinv Hmutex Ht Hothers Hmade Hown Hchans Hok.
  assert (Hold : forall c n ch, holds p <> Some c -> registered w' c n ch ->
                   registered (world s) c n ch).
  { intros c n ch Hp Hreg. apply registered_registry in Hreg as (m & Hm & Hn).
    destruct (Hothers c Hp) as [E | [_ E]]; rewrite E in Hm.
    - apply registered_registry. eauto.
    - injection Hm as <-. now rewrite lookup_empty in Hn. }
  assert (Hsplit : forall c n ch, registered w' c n ch ->
            registered (world s) c n ch
            \/ (holds p = Some c /\ chans (world s) !! ch = None
                /\ forall n', registered w' c n' ch -> n' = n)).
  { intros c n ch Hreg. destruct (decide (holds p = Some c)) as [Hp|Hp].
    - destruct (Hown c n ch Hp Hreg) as [[H | [H1 H2]] _]; auto.
    - left. now apply Hold. }
  split; cbn.
  - exact Hmade.
  - intros c1 n1 c2 n2 ch H1 H2.
    destruct (Hsplit c1 n1 ch H1) as [O1 | (P1 & F1 & U1)];
      destruct (Hsplit c2 n2 ch H2) as [O2 | (P2 & F2 & U2)].
    + exact (ri_inj s Hinv c1 n1 c2 n2 ch O1 O2).
    + destruct (registered_known s c1 n1 ch Hinv O1) as [st Hst]. congruence.
    + destruct (registered_known s c2 n2 ch Hinv O2) as [st Hst]. congruence.
    + assert (c1 = c2) as -> by congruence. split; [reflexivity|].
      now apply U2.
  - intros c n ch Hreg. destruct (decide (holds p = Some c)) as [Hp|Hp].
    + destruct (Hown c n ch Hp Hreg) as [_ [H | H]]; [now left|].
      right. exists t, p'. split; [now apply (thread_moved _ _ p) | exact H].
    + pose proof (Hold c n ch Hp Hreg) as Ho.
      destruct (ri_pending s Hinv c n ch Ho) as [H | (t0 & p0 & Ht0 & Hp0)].
      * left. now apply (Hchans c n ch Hp Ho).
      * right. exists t0, p0. split; [|exact Hp0].
        rewrite thread_kept; [exact Ht0|].
        intros ->. rewrite Ht in Ht0. injection Ht0 as <-.
        apply Hp. now apply holds_in_loops.
  - intros t0 p0 H0. apply thread_after in H0 as [[-> ->] | [Hne H0]]; [exact Hok|].
    assert (Hp : forall c, holds p0 = Some c -> holds p <> Some c).
    { intros c Hc Hpc. apply Hne. exact (held_once s Hmutex t0 t p0 p c H0 Ht Hc Hpc). }
    apply (loop_ok_frame (world s)); [| |exact (ri_loops s Hinv t0 p0 H0)].
    + intros c Hc. destruct (Hothers c (Hp c Hc)) as [E | [E _]]; [exact E|].
      destruct (lock_of_Some _ _ _ (held_locked s Hmutex t0 p0 c H0 Hc)) as (cl & Hcl & _).
      congruence.
    + intros c n ch Hc Hreg. exact (Hchans c n ch (Hp c Hc) Hreg).
Qed.

(** A move that changes neither a registry nor a channel. *)
Lemma reg_inv_quiet (s : cstate) t p p' w' :
  reg_inv s -> mutex_inv s -> threads s !! t = Some p ->
  (forall c, ReConnect <$> clients w' !! c = ReConnect <$> clients (world s) !! c) ->
  chans w' = chans (world s) ->
  (forall c n ch, in_loops p = Some c -> registered (world s) c n ch ->
     in_loops p' = Some c) ->
  loop_ok w' p' ->
  reg_inv (mkCState w' (<[t := p']> (threads s))).
Proof.
  intros Hinv Hmutex Ht Hreg Hch Hloops Hok.
  pose proof (registry_of_keeps _ _ Hreg) as Hr.
  assert (Hsame : forall c n ch, registered w' c n ch <-> registered (world s) c n ch).
  { intros c n ch. rewrite !registered_registry. now rewrite Hr. }
  assert (Hpend : forall ch, pending (world s) ch -> pending w' ch)
    by (intros ch; unfold pending; now rewrite Hch).
  assert (Hfired : forall ch, fired (world s) ch -> fired w' ch)
    by (intros ch; unfold fired; now rewrite Hch).
  apply (reg_inv_update s t p p' w' Hinv Hmutex Ht); try exact Hok.
  - intros c _. left. apply Hr.
  - intros c Hc. rewrite Hr. apply (ri_made s Hinv).
    now apply (clients_of_keeps ReConnect (world s) w' Hreg).
  - intros c n ch Hp H. apply Hsame in H. split; [now left|].
    destruct (ri_pending s Hinv c n ch H) as [Hpd | (t0 & p0 & Ht0 & Hp0)].
    + left. now apply Hpend.
    + assert (t0 = t) as ->
        by exact (held_once s Hmutex t0 t p0 p c Ht0 Ht (holds_in_loops p0 c Hp0) Hp).
      rewrite Ht in Ht0. injection Ht0 as <-. right. exact (Hloops c n ch Hp0 H).
  - intros c n ch _ _. split; [apply Hpend | apply Hfired].
Qed.


(** ** The moves, one kind at a time *)

Lemma registry_insert cs chs c cl c' :
  registry (mkWorld (<[c := cl]> cs) chs) c'
  = if decide (c' = c) then ReConnect cl else registry (mkWorld cs chs) c'.
Proof.
  unfold registry. cbn. case_decide as E.
  - subst c'. now rewrite lookup_insert_eq.
  - now rewrite lookup_insert_ne.
Qed.

Lemma registry_Some w c m :
  registry w c = Some m ->
  exists cl, clients w !! c = Some cl /\ ReConnect cl = Some m.
Proof.
  unfold registry. destruct (clients w !! c) as [cl|]; [|discriminate]. eauto.
Qed.

Lemma held_client (s : cstate) t p c :
  reg_inv s -> mutex_inv s -> threads s !! t = Some p -> holds p = Some c ->
  exists cl m, clients (world s) !! c = Some cl /\ ReConnect cl = Some m.
Proof.
  intros Hinv Hmutex Ht Hp.
  destruct (lock_of_Some _ _ _ (held_locked s Hmutex t p c Ht Hp)) as (cl & Hc & _).
  destruct (ri_made s Hinv c) as [m Hm]; [eauto|].
  apply registry_Some in Hm as (cl' & Hc' & Hm). rewrite Hc in Hc'. injection Hc' as <-.
  eauto.
Qed.

(** Outside the loops, the channels registered with the client whose
    mutex the goroutine holds are pending. *)
Lemma held_pending (s : cstate) t p c n ch :
  reg_inv s -> mutex_inv s -> threads s !! t = Some p ->
  holds p = Some c -> in_loops p = None ->
  registered (world s) c n ch -> pending (world s) ch.
Proof.
  intros Hinv Hmutex Ht Hp Hl Hreg.
  destruct (ri_pending s Hinv c n ch Hreg) as [H | (t0 & p0 & Ht0 & Hp0)]; [exact H|].
  assert (t0 = t) as ->
    by exact (held_once s Hmutex t0 t p0 p c Ht0 Ht (holds_in_loops p0 c Hp0) Hp).
  rewrite Ht in Ht0. injection Ht0 as <-. congruence.
Qed.

Lemma reg_inv_Go (s : cstate) k :
  reg_inv s -> reg_inv (mkCState (world s) (threads s ++ [Start k])).
Proof.
  intros [H1 H2 H3 H4]. split; cbn; try assumption.
  - intros c n ch Hreg. destruct (H3 c n ch Hreg) as [H | (t & p & Ht & Hp)]; [now left|].
    right. exists t, p. split; [|exact Hp].
    apply lookup_snoc_Some. left. split; [|exact Ht]. now apply lookup_lt_Some in Ht.
  - intros t p Ht. apply lookup_snoc_Some in Ht as [[_ Ht] | [_ <-]]; [|exact I].
    exact (H4 t p Ht).
Qed.

Lemma reg_inv_New (s : cstate) t rawurl d p' w' :
  reg_inv s -> mutex_inv s -> threads s !! t = Some (Start (CallNew rawurl)) ->
  step_pc d (Start (CallNew rawurl)) (world s) = Some (p', w') ->
  reg_inv (mkCState w' (<[t := p']> (threads s))).
Proof.
  intros Hinv Hmutex Ht Hstep. cbn in Hstep. unfold exec in Hstep.
  rewrite NewSafeClient_spec in Hstep.
  set (c0 := fresh (dom (clients (world s)))) in *.
  assert (Hfresh : clients (world s) !! c0 = None) by apply fresh_client.
  assert (exists cl0, ReConnect cl0 = Some ∅
            /\ w' = mkWorld (<[c0 := cl0]> (clients (world s))) (chans (world s))
            /\ exists r, p' = Done r) as (cl0 & Hcl0 & -> & r & ->).
  { destruct d; injection Hstep as <- <-; eexists; (split; [|split; [reflexivity|]]);
      cbn; eauto. }
  destruct (world s) as [cs chs] eqn:Hw. cbn in *.
  apply (reg_inv_update s t _ _ _ Hinv Hmutex Ht); rewrite ?Hw; cbn; try exact I.
  - intros c _. rewrite registry_insert. case_decide as E; [|now left].
    subst c. right. now split.
  - intros c Hc. rewrite registry_insert. case_decide as E; [rewrite Hcl0; eauto|].
    rewrite lookup_insert_ne in Hc by congruence.
    pose proof (ri_made s Hinv c) as Hm. rewrite Hw in Hm. now apply Hm.
  - intros c n ch Hp. discriminate Hp.
  - intros c n ch _ _. now split.
Qed.

Lemma register_body_known name c w cl ch :
  clients w !! c = Some cl -> map_get (ReConnect cl) name = Some ch ->
  register_body name c w = Returned ch w.
Proof.
  intros Hc Hg. unfold register_body, bind. now rewrite (load_Some _ _ _ Hc), Hg.
Qed.

Lemma register_body_new name c w cl m :
  clients w !! c = Some cl -> ReConnect cl = Some m -> m !! name = None ->
  let ch := fresh (dom (chans w)) in
  register_body name c w =
    Returned ch
      (mkWorld (<[c := set_ReConnect (Some (<[name := ch]> m)) cl]> (clients w))
               (<[ch := pending_chan]> (chans w))).
Proof.
  intros Hc Hm Hn ch. unfold register_body, bind at 1.
  rewrite (load_Some _ _ _ Hc), Hm. cbn [map_get]. rewrite Hn.
  unfold bind at 1, make_chan. fold ch.
  unfold bind at 1, map_set, bind at 1.
  erewrite load_Some by (cbn; exact Hc). rewrite Hm.
  unfold store, ret. reflexivity.
Qed.

Lemma reg_inv_Register_body (s : cstate) t d c name p' w' :
  reg_inv s -> mutex_inv s -> threads s !! t = Some (RegLocked c name) ->
  step_pc d (RegLocked c name) (world s) = Some (p', w') ->
  reg_inv (mkCState w' (<[t := p']> (threads s))).
Proof.
  intros Hinv Hmutex Ht Hstep. cbn in Hstep. unfold exec_deferred in Hstep.
  destruct (held_client s t _ c Hinv Hmutex Ht eq_refl) as (cl & m & Hc & Hm).
  destruct (m !! name) as [ch0|] eqn:Hn.
  { rewrite (register_body_known name c _ cl ch0 Hc) in Hstep
      by (unfold map_get; now rewrite Hm).
    injection Hstep as <- <-.
    apply (reg_inv_quiet s t _ _ _ Hinv Hmutex Ht); try reflexivity; try exact I.
    intros c' n ch Hl. discriminate Hl. }
  rewrite (register_body_new name c _ cl m Hc Hm Hn) in Hstep.
  injection Hstep as <- <-.
  set (ch := fresh (dom (chans (world s)))).
  assert (Hfresh : chans (world s) !! ch = None) by apply fresh_chan.
  assert (Hknown : forall c' n x, registered (world s) c' n x -> x <> ch).
  { intros c' n x Hreg ->.
    destruct (registered_known s c' n ch Hinv Hreg) as [st Hst]. congruence. }
  assert (Hnew : forall n x,
            registered (mkWorld (<[c := set_ReConnect (Some (<[name := ch]> m)) cl]>
                                   (clients (world s)))
                                (<[ch := pending_chan]> (chans (world s)))) c n x ->
            (n = name /\ x = ch) \/ (n <> name /\ registered (world s) c n x)).
  { intros n x Hreg. apply registered_registry in Hreg as (m' & Hm' & Hx).
    rewrite registry_insert, decide_True in Hm' by reflexivity.
    cbn in Hm'. injection Hm' as <-.
    destruct (decide (n = name)) as [->|Hne].
    - rewrite lookup_insert_eq in Hx. injection Hx as <-. now left.
    - rewrite lookup_insert_ne in Hx by congruence. right. split; [exact Hne|].
      now exists cl, m. }
  apply (reg_inv_update s t _ _ _ Hinv Hmutex Ht); try exact I.
  - intros c' Hp. left. cbn in Hp. rewrite registry_insert, decide_False by congruence.
    unfold registry. reflexivity.
  - intros c' Hc'. rewrite registry_insert. case_decide as E; [cbn; eauto|].
    cbn in Hc'. rewrite lookup_insert_ne in Hc' by congruence.
    exact (ri_made s Hinv c' Hc').
  - intros c' n x Hp Hreg. cbn in Hp. injection Hp as <-. split.
    + destruct (Hnew n x Hreg) as [[-> ->] | [_ Hold]]; [right | now left].
      split; [exact Hfresh|]. intros n' Hreg'.
      destruct (Hnew n' ch Hreg') as [[-> _] | [_ Hold]]; [reflexivity|].
      now destruct (Hknown c n' ch Hold).
    + left. unfold pending. cbn.
      destruct (Hnew n x Hreg) as [[-> ->] | [_ Hold]]; [apply lookup_insert_eq|].
      rewrite lookup_insert_ne by (apply not_eq_sym; exact (Hknown c n x Hold)).
      exact (held_pending s t _ c n x Hinv Hmutex Ht eq_refl eq_refl Hold).
  - intros c' n x _ Hreg. pose proof (Hknown c' n x Hreg) as Hne.
    unfold pending, fired. cbn. now rewrite lookup_insert_ne.
Qed.


Lemma fire_pending w ch :
  pending w ch ->
  bind (chan_send ch) (fun _ => chan_close ch) w
  = Returned tt (mkWorld (clients w) (<[ch := fired_chan]> (chans w))).
Proof.
  unfold pending. intros Hp. unfold bind, chan_send. rewrite Hp. cbn.
  unfold chan_close. cbn. rewrite lookup_insert_eq. cbn.
  now rewrite insert_insert_eq.
Qed.

Lemma reg_inv_fire (s : cstate) t d c n ch rest keys p' w' :
  reg_inv s -> mutex_inv s ->
  threads s !! t = Some (RecNotify c ((n, ch) :: rest) keys) ->
  step_pc d (RecNotify c ((n, ch) :: rest) keys) (world s) = Some (p', w') ->
  p' = RecNotify c rest (keys ++ [n])
  /\ w' = mkWorld (clients (world s)) (<[ch := fired_chan]> (chans (world s)))
  /\ pending (world s) ch
  /\ reg_inv (mkCState w' (<[t := p']> (threads s))).
Proof.
  intros Hinv Hmutex Ht Hstep.
  destruct (ri_loops s Hinv t _ Ht) as (m & Hm & Hnd & Hin & Hall).
  destruct (Hin n ch) as [Hn Hpend]; [left|].
  cbn in Hstep. unfold exec in Hstep. rewrite (fire_pending _ ch Hpend) in Hstep.
  injection Hstep as <- <-. do 3 (split; [reflexivity || assumption|]).
  apply NoDup_cons in Hnd as [Hnotin Hnd].
  assert (Hreg : registered (world s) c n ch)
    by (apply registered_registry; eauto).
  assert (Hsame : forall c' n' x,
            registered (mkWorld (clients (world s)) (<[ch := fired_chan]> (chans (world s))))
              c' n' x <-> registered (world s) c' n' x).
  { intros c' n' x. unfold registered. reflexivity. }
  assert (Hfired : fired (mkWorld (clients (world s)) (<[ch := fired_chan]> (chans (world s)))) ch).
  { exists fired_chan. cbn. rewrite lookup_insert_eq. auto. }
  assert (Hkeep : forall x, x <> ch ->
            (pending (world s) x ->
             pending (mkWorld (clients (world s)) (<[ch := fired_chan]> (chans (world s)))) x)
            /\ (fired (world s) x ->
                fired (mkWorld (clients (world s)) (<[ch := fired_chan]> (chans (world s)))) x)).
  { intros x Hne. unfold pending, fired. cbn. now rewrite lookup_insert_ne. }
  apply (reg_inv_update s t _ _ _ Hinv Hmutex Ht).
  - intros c' _. left. reflexivity.
  - intros c' Hc'. exact (ri_made s Hinv c' Hc').
  - intros c' n' x Hp H. apply Hsame in H. split; [now left|].
    right. cbn in Hp. now injection Hp as <-.
  - intros c' n' x Hp H. apply Hkeep. intros ->.
    destruct (ri_inj s Hinv c' n' c n ch H Hreg) as [-> _]. now apply Hp.
  - cbn. exists m. split; [exact Hm|]. split; [exact Hnd|]. split.
    + intros n' x He. destruct (Hin n' x) as [Hn' Hp']; [now right|].
      split; [exact Hn'|]. apply Hkeep; [|exact Hp']. intros ->.
      destruct (ri_inj s Hinv c n' c n ch) as [_ ->];
        [apply registered_registry; eauto | exact Hreg | contradiction].
    + intros n' x Hn'. destruct (Hall n' x Hn') as [He | [Hk Hf]].
      * apply elem_of_cons in He as [E | He]; [|now left].
        injection E as -> ->. right. split; [|exact Hfired].
        apply elem_of_app. right. left.
      * right. split; [apply elem_of_app; now left|].
        apply Hkeep; [|exact Hf]. intros ->.
        destruct Hf as (st & Hst & _ & Hcl & _). unfold pending in Hpend.
        rewrite Hpend in Hst. injection Hst as <-. discriminate Hcl.
Qed.

Lemma reg_inv_retire (s : cstate) t d c n rest p' w' :
  reg_inv s -> mutex_inv s ->
  threads s !! t = Some (RecRetire c (n :: rest)) ->
  step_pc d (RecRetire c (n :: rest)) (world s) = Some (p', w') ->
  p' = RecRetire c rest
  /\ reg_inv (mkCState w' (<[t := p']> (threads s))).
Proof.
  intros Hinv Hmutex Ht Hstep.
  destruct (ri_loops s Hinv t _ Ht) as (m & Hm & Hall).
  destruct (registry_Some _ _ _ Hm) as (cl & Hc & Hcl).
  cbn in Hstep. unfold exec, map_delete, bind in Hstep.
  rewrite (load_Some _ _ _ Hc), Hcl in Hstep. unfold store in Hstep.
  injection Hstep as <- <-. split; [reflexivity|].
  assert (Hsub : forall n' x,
            registered (mkWorld (<[c := set_ReConnect (Some (delete n m)) cl]>
                                   (clients (world s))) (chans (world s))) c n' x ->
            n' <> n /\ m !! n' = Some x).
  { intros n' x Hreg. apply registered_registry in Hreg as (m' & Hm' & Hx).
    rewrite registry_insert, decide_True in Hm' by reflexivity.
    cbn in Hm'. injection Hm' as <-.
    now apply lookup_delete_Some in Hx. }
  apply (reg_inv_update s t _ _ _ Hinv Hmutex Ht).
  - intros c' Hp. left. cbn in Hp. rewrite registry_insert, decide_False by congruence.
    reflexivity.
  - intros c' Hc'. rewrite registry_insert. case_decide as E; [cbn; eauto|].
    cbn in Hc'. rewrite lookup_insert_ne in Hc' by congruence.
    exact (ri_made s Hinv c' Hc').
  - intros c' n' x Hp Hreg. cbn in Hp. injection Hp as <-.
    destruct (Hsub n' x Hreg) as [_ Hx]. split; [|now right].
    left. apply registered_registry. eauto.
  - intros c' n' x _ _. now split.
  - cbn. exists (delete n m). split.
    + now rewrite registry_insert, decide_True.
    + intros n' x Hx. apply lookup_delete_Some in Hx as [Hne Hx].
      destruct (Hall n' x Hx) as [Hk Hf]. split; [|exact Hf].
      apply elem_of_cons in Hk as [->|Hk]; [contradiction | exact Hk].
Qed.

Lemma reg_inv_recv (s : cstate) t d ch p' w' :
  reg_inv s -> mutex_inv s -> threads s !! t = Some (Start (CallRecv ch)) ->
  step_pc d (Start (CallRecv ch)) (world s) = Some (p', w') ->
  reg_inv (mkCState w' (<[t := p']> (threads s))).
Proof.
  intros Hinv Hmutex Ht Hstep. cbn in Hstep. unfold exec, chan_recv in Hstep.
  destruct (chans (world s) !! ch) as [st|] eqn:Hch; [|discriminate].
  destruct (buffered st) as [|k] eqn:Hb.
  { destruct (closed st); [|discriminate]. injection Hstep as <- <-.
    apply (reg_inv_quiet s t _ _ _ Hinv Hmutex Ht); try reflexivity; try exact I.
    intros c n x Hl. discriminate Hl. }
  injection Hstep as <- <-.
  apply (reg_inv_update s t _ _ _ Hinv Hmutex Ht); try exact I.
  - intros c _. now left.
  - intros c Hc. exact (ri_made s Hinv c Hc).
  - intros c n x Hp. discriminate Hp.
  - intros c n x _ _. unfold pending, fired. cbn.
    destruct (decide (x = ch)) as [->|Hne].
    + rewrite lookup_insert_eq, Hch. split.
      * intros E. injection E as ->. discriminate Hb.
      * intros (st' & E & H1 & H2 & H3). injection E as <-. eexists. split; [reflexivity|].
        now cbn.
    + now rewrite lookup_insert_ne.
Qed.


Lemma chans_Lock c w : chans (world_of (Lock c w)) = chans w.
Proof.
  unfold Lock. destruct (clients w !! c) as [cl|]; [|reflexivity].
  now destruct (lock cl).
Qed.

Lemma chans_Unlock c w : chans (world_of (Unlock c w)) = chans w.
Proof.
  unfold Unlock. destruct (clients w !! c) as [cl|]; [|reflexivity].
  now destruct (lock cl).
Qed.

Lemma chans_assign c f w : chans (world_of (assign c f w)) = chans w.
Proof.
  unfold assign, bind, load. now destruct (clients w !! c).
Qed.

Lemma chans_forward m a c w : chans (world_of (forward rpc m a c w)) = chans w.
Proof.
  unfold forward, bind, load. destruct (clients w !! c) as [cl|]; [|reflexivity].
  now destruct (Client cl).
Qed.

Lemma exec_quiet {A} held (m : M A) (k : A -> pc) w p' w' :
  keeps ReConnect m -> (forall w0, chans (world_of (m w0)) = chans w0) ->
  exec held m k w = Some (p', w') ->
  (forall c, ReConnect <$> clients w' !! c = ReConnect <$> clients w !! c)
  /\ chans w' = chans w
  /\ ((exists a, p' = k a) \/ (exists msg, p' = Crashed held msg)).
Proof.
  intros Hk Hch Hstep.
  destruct (exec_keeps ReConnect held m k w p' w' Hk Hstep) as [H1 H2].
  split; [exact H1|]. split; [|exact H2].
  unfold exec in Hstep. specialize (Hch w).
  destruct (m w); [| |discriminate]; now injection Hstep as <- <-.
Qed.

(** A move outside every section under a mutex that changes no
    registry and no channel. *)
Lemma reg_inv_outside {A} (s : cstate) t p (m : M A) (k : A -> pc) p' w' :
  reg_inv s -> mutex_inv s -> threads s !! t = Some p ->
  in_loops p = None -> (forall a, loop_ok w' (k a)) ->
  keeps ReConnect m -> (forall w0, chans (world_of (m w0)) = chans w0) ->
  exec None m k (world s) = Some (p', w') ->
  reg_inv (mkCState w' (<[t := p']> (threads s))).
Proof.
  intros Hinv Hmutex Ht Hl Hk Hm Hch Hstep.
  destruct (exec_quiet None m k (world s) p' w' Hm Hch Hstep) as (H1 & H2 & H3).
  apply (reg_inv_quiet s t p p' w' Hinv Hmutex Ht H1 H2).
  - intros c n ch Hc. congruence.
  - destruct H3 as [[a ->] | [msg ->]]; [apply Hk | exact I].
Qed.

Lemma reg_inv_step_pc (s : cstate) t d p p' w' :
  reg_inv s -> mutex_inv s -> threads s !! t = Some p ->
  step_pc d p (world s) = Some (p', w') ->
  reg_inv (mkCState w' (<[t := p']> (threads s))).
Proof.
  intros Hinv Hmutex Ht Hstep.
  destruct p as [[rawurl|c name|c|c m a|ch]|c name|c r|c m a|c r|c|c client
                 |c client|c client|c|c entries keys|c keys|c|r|held msg].
  - exact (reg_inv_New s t rawurl d p' w' Hinv Hmutex Ht Hstep).
  - eapply (reg_inv_outside s t _ (Lock c)); eauto using chans_Lock.
    + now intros.
    + now apply keeps_Lock.
  - eapply (reg_inv_outside s t _ (assign c (set_Status ConnectionFailed)));
      eauto using chans_assign.
    + now intros.
    + now apply keeps_assign.
  - eapply (reg_inv_outside s t _ (Lock c)); eauto using chans_Lock.
    + now intros.
    + now apply keeps_Lock.
  - exact (reg_inv_recv s t d ch p' w' Hinv Hmutex Ht Hstep).
  - exact (reg_inv_Register_body s t d c name p' w' Hinv Hmutex Ht Hstep).
  - (* RegisterReConnectNotify: the deferred Unlock *)
    eapply (reg_inv_outside s t _ (Unlock c)); eauto using chans_Unlock.
    + intros ?. now destruct r.
    + now apply keeps_Unlock.
  - (* wrapper: the forwarded call *)
    cbn in Hstep.
    destruct (exec_deferred_keeps ReConnect _ _ _ p' w' (keeps_forward rpc ReConnect m a c) Hstep)
      as [H1 [r ->]].
    apply (reg_inv_quiet s t _ _ w' Hinv Hmutex Ht H1); try exact I.
    + unfold exec_deferred in Hstep. pose proof (chans_forward m a c (world s)) as Hch.
      destruct (forward rpc m a c (world s)); [| |discriminate];
        now injection Hstep as _ <-.
    + intros c' n ch Hl. discriminate Hl.
  - (* wrapper: the deferred Unlock *)
    eapply (reg_inv_outside s t _ (Unlock c)); eauto using chans_Unlock.
    + intros ?. now destruct r.
    + now apply keeps_Unlock.
  - (* RecoverDisconnect: Dial *)
    cbn in Hstep.
    assert (w' = world s /\ loop_ok w' p') as [-> Hok]
      by (destruct d; injection Hstep as <- <-; now split).
    apply (reg_inv_quiet s t _ _ _ Hinv Hmutex Ht); auto.
    intros c' n ch Hl. discriminate Hl.
  - eapply (reg_inv_outside s t _ (assign c (set_Status ConnectionOk)));
      eauto using chans_assign.
    + now intros.
    + now apply keeps_assign.
  - eapply (reg_inv_outside s t _ (Lock c)); eauto using chans_Lock.
    + now intros.
    + now apply keeps_Lock.
  - (* RecoverDisconnect: c.Client = client *)
    destruct (held_client s t _ c Hinv Hmutex Ht eq_refl) as (cl & m & Hc & Hm).
    cbn in Hstep. unfold exec in Hstep. rewrite (assign_Some _ _ _ _ Hc) in Hstep.
    injection Hstep as <- <-.
    apply (reg_inv_quiet s t _ _ _ Hinv Hmutex Ht); try reflexivity; try exact I.
    + intros c'. cbn. now apply (keeps_store_of ReConnect c cl).
    + intros c' n ch Hl. discriminate Hl.
  - (* RecoverDisconnect: the range statement *)
    destruct (held_client s t _ c Hinv Hmutex Ht eq_refl) as (cl & m & Hc & Hm).
    cbn in Hstep. unfold exec in Hstep. rewrite (load_Some _ _ _ Hc), Hm in Hstep.
    injection Hstep as <- <-. cbn [entries_of].
    apply (reg_inv_quiet s t _ _ _ Hinv Hmutex Ht); try reflexivity.
    + intros c' n ch Hl. discriminate Hl.
    + cbn. exists m. split; [unfold registry; now rewrite Hc|].
      split; [rewrite (range_visits_all m); apply NoDup_map_to_list|].
      assert (Hmem : forall n ch, (n, ch) ∈ range m <-> m !! n = Some ch).
      { intros n ch. rewrite (range_visits_all m). apply elem_of_map_to_list. }
      split.
      * intros n ch He. apply Hmem in He. split; [exact He|].
        apply (held_pending s t _ c n ch Hinv Hmutex Ht eq_refl eq_refl).
        now exists cl, m.
      * intros n ch Hn. left. now apply Hmem.
  - (* RecoverDisconnect: the first loop *)
    destruct entries as [|[n ch] rest].
    + cbn in Hstep. injection Hstep as <- <-.
      destruct (ri_loops s Hinv t _ Ht) as (m & Hm & _ & _ & Hall).
      apply (reg_inv_quiet s t _ _ _ Hinv Hmutex Ht); try reflexivity.
      * intros c' n ch Hl _. exact Hl.
      * cbn. exists m. split; [exact Hm|]. intros n ch Hn.
        destruct (Hall n ch Hn) as [He | H]; [inversion He | exact H].
    + now destruct (reg_inv_fire s t d c n ch rest keys p' w' Hinv Hmutex Ht Hstep)
        as (_ & _ & _ & H).
  - (* RecoverDisconnect: the second loop *)
    destruct keys as [|n rest].
    + cbn in Hstep. injection Hstep as <- <-.
      destruct (ri_loops s Hinv t _ Ht) as (m & Hm & Hall).
      assert (Hempty : m = ∅).
      { apply map_eq. intros n. rewrite lookup_empty.
        destruct (m !! n) as [ch|] eqn:Hn; [|reflexivity].
        destruct (Hall n ch Hn) as [He _]. inversion He. }
      subst m.
      apply (reg_inv_quiet s t _ _ _ Hinv Hmutex Ht); try reflexivity.
      * intros c' n ch Hl Hreg. cbn in Hl. injection Hl as <-.
        apply registered_registry in Hreg as (m' & Hm' & Hn).
        rewrite Hm in Hm'. injection Hm' as <-. now rewrite lookup_empty in Hn.
      * exact Hm.
    + now destruct (reg_inv_retire s t d c n rest p' w' Hinv Hmutex Ht Hstep).
  - (* RecoverDisconnect: Unlock *)
    eapply (reg_inv_outside s t _ (Unlock c)); eauto using chans_Unlock.
    + now intros.
    + now apply keeps_Unlock.
  - discriminate Hstep.
  - discriminate Hstep.
Qed.

Lemma reg_inv_init : reg_inv (@init Args Result).
Proof.
  split; cbn.
  - intros c [cl H]. unfold empty_world in H. cbn in H.
    now rewrite lookup_empty in H.
  - intros c1 n1 c2 n2 ch (cl & m & H & _). unfold empty_world in H. cbn in H.
    now rewrite lookup_empty in H.
  - intros c n ch (cl & m & H & _). unfold empty_world in H. cbn in H.
    now rewrite lookup_empty in H.
  - intros t p H. inversion H.
Qed.

(** Both invariants hold in every state a schedule leads to. *)
Lemma reachable_reg_inv (s : cstate) : reachable s -> mutex_inv s /\ reg_inv s.
Proof.
  induction 1 as [|l s s' _ [IHm IHr] Hstep]; [split; [apply mutex_inv_init | apply reg_inv_init]|].
  split; [exact (mutex_inv_step rpc range l s s' IHm Hstep)|].
  destruct l as [k|t d]; cbn in Hstep.
  - injection Hstep as <-. now apply reg_inv_Go.
  - destruct (threads s !! t) as [p|] eqn:Ht; [|discriminate].
    destruct (step_pc d p (world s)) as [[p' w']|] eqn:Hpc; [|discriminate].
    injection Hstep as <-. exact (reg_inv_step_pc s t d p p' w' IHr IHm Ht Hpc).
Qed.


(** A registered channel has capacity 1, whatever the goroutines are
    doing. *)
Lemma registered_cap (s : cstate) c n ch :
  reg_inv s -> registered (world s) c n ch ->
  exists st, chans (world s) !! ch = Some st /\ cap st = 1.
Proof.
  intros Hinv Hreg.
  assert (Hcases : pending (world s) ch \/ fired (world s) ch).
  { destruct (ri_pending s Hinv c n ch Hreg) as [Hp | (t & p & Ht & Hp)]; [now left|].
    pose proof (ri_loops s Hinv t p Ht) as Hok.
    apply registered_registry in Hreg as (m & Hm & Hn).
    destruct p; try discriminate Hp; cbn in Hp; injection Hp as ->; cbn in Hok.
    - destruct Hok as (m' & Hm' & _ & Hin & Hall). rewrite Hm in Hm'. injection Hm' as <-.
      destruct (Hall n ch Hn) as [He | [_ Hf]]; [|now right].
      left. now destruct (Hin n ch He).
    - destruct Hok as (m' & Hm' & Hall). rewrite Hm in Hm'. injection Hm' as <-.
      right. now destruct (Hall n ch Hn). }
  destruct Hcases as [Hp | (st & Hst & Hcap & _)]; [|eauto].
  exists pending_chan. now split.
Qed.

(** One iteration of the first loop can always be made. *)
Lemma notify_step (s : cstate) t d c n ch rest keys :
  reg_inv s -> threads s !! t = Some (RecNotify c ((n, ch) :: rest) keys) ->
  pending (world s) ch
  /\ step (Run t d) s
     = Some (mkCState
               (mkWorld (clients (world s)) (<[ch := fired_chan]> (chans (world s))))
               (<[t := RecNotify c rest (keys ++ [n])]> (threads s))).
Proof.
  intros Hinv Ht.
  destruct (ri_loops s Hinv t _ Ht) as (m & Hm & _ & Hin & _).
  destruct (Hin n ch) as [_ Hp]; [left|]. split; [exact Hp|].
  cbn. rewrite Ht. cbn. unfold exec. now rewrite (fire_pending _ ch Hp).
Qed.

(** ** The statements about the registry *)

(** C3: when [RecoverDisconnect] gets a connection it returns, and on
    return every channel that was registered with the client has been
    sent exactly one signal (none before the call, one after it, which
    waits in the buffer of the closed channel), every name is gone from
    the registry, which is empty, and registering a name again makes a
    channel that is new and pending.  The same holds step by step while
    other goroutines run: in the first loop the entries not yet visited
    are pending and the visited ones have been sent one signal and
    closed, in the second loop every entry still in the registry has
    been, at the [Unlock] the registry is empty, and outside the loops
    no registered channel has been sent anything. *)
Theorem RecoverDisconnect_fires_each_once
  (dials : list dial_result) (client : conn) (c : ptr) (w : World)
  (cl : SafeEthClient) (s : cstate)
  (Hreach : Safe.reachable w)
  (Hclient : clients w !! c = Some cl)
  (Hdial : first_answer dials = Some client)
  (Hs : reachable s) :
  (exists w',
     RecoverDisconnect range dials c w = Some (Returned tt w')
     /\ clients w' !! c
        = Some (mkSafeEthClient (Some client) false (url cl) (Some ∅) ConnectionOk)
     /\ (forall name ch, registered w c name ch ->
           (exists st, chans w !! ch = Some st /\ sent st = 0)
           /\ (exists st', chans w' !! ch = Some st'
                 /\ sent st' = 1 /\ buffered st' = 1 /\ closed st' = true))
     /\ (forall name ch, ~ registered w' c name ch)
     /\ (forall name, exists ch' w'',
           RegisterReConnectNotify name c w' = Returned ch' w''
           /\ chans w'' !! ch' = Some pending_chan
           /\ forall old_name old, registered w c old_name old -> ch' <> old))
  /\ (forall t p, threads s !! t = Some p -> loop_ok (world s) p)
  /\ (forall c0 n ch, registered (world s) c0 n ch ->
        pending (world s) ch
        \/ exists t p, threads s !! t = Some p /\ in_loops p = Some c0).
Proof.
  destruct (reachable_reg_inv s Hs) as [_ Hinv].
  split; [|split].
  - exact (Recover_alone_fires_each_once range dials client c w cl
             Hreach range_visits_all Hclient Hdial).
  - exact (ri_loops s Hinv).
  - exact (ri_pending s Hinv).
Qed.

(** C9: every channel in a registry was made by
    [RegisterReConnectNotify] with capacity 1.  In a world a program
    reaches by calls made one after the other it is still empty and
    open, and the first loop of [RecoverDisconnect] returns: with no
    receiver waiting, no send waits and no send or close panics, and
    each registered channel ends up holding its one signal.  While
    goroutines run every registered channel has capacity 1, and a
    goroutine inside the first loop can always make its next iteration:
    the channel it is about to signal is pending, the send goes into the
    buffer and the close follows. *)
Theorem registry_channels_take_one_signal
  (client : conn) (c : ptr) (w : World) (cl : SafeEthClient) (s : cstate)
  (Hreach : Safe.reachable w)
  (Hclient : clients w !! c = Some cl)
  (Hs : reachable s) :
  (forall name ch, registered w c name ch ->
     exists st, chans w !! ch = Some st
       /\ cap st = 1 /\ buffered st = 0 /\ closed st = false)
  /\ (exists w1 keys w2,
        swap_in client c w = Returned tt w1
        /\ notify_all range c w1 = Returned keys w2
        /\ clients w2 = clients w1
        /\ forall name ch, registered w c name ch ->
             chans w2 !! ch = Some fired_chan)
  /\ (forall c0 n ch, registered (world s) c0 n ch ->
        exists st, chans (world s) !! ch = Some st /\ cap st = 1)
  /\ (forall t d c0 n ch rest keys,
        threads s !! t = Some (RecNotify c0 ((n, ch) :: rest) keys) ->
        pending (world s) ch
        /\ step (Run t d) s
           = Some (mkCState
                     (mkWorld (clients (world s))
                        (<[ch := fired_chan]> (chans (world s))))
                     (<[t := RecNotify c0 rest (keys ++ [n])]> (threads s)))).
Proof.
  destruct (reachable_reg_inv s Hs) as [_ Hinv].
  destruct (notify_alone_takes_one_signal range client c w cl
              Hreach range_visits_all Hclient) as [H1 H2].
  split; [exact H1|]. split; [exact H2|]. split.
  - intros c0 n ch. now apply registered_cap.
  - intros t d c0 n ch rest keys. now apply notify_step.
Qed.


(** C4: a second [RegisterReConnectNotify] with a name that the first
    call left registered hands back the very channel of the first call
    and leaves the world, registry included, as the first call left it:
    no panic, no wait, no new channel.  Among goroutines too: a
    goroutine that has taken the mutex to register a name already in
    the registry finds the channel pending, hands that channel back and
    changes nothing. *)
Theorem Register_twice_same_channel
  (name : string) (c : ptr) (w w1 : World) (ch : chan)
  (s : cstate) (t : nat) (d : dial_result) (ch' : chan)
  (Hfirst : RegisterReConnectNotify name c w = Returned ch w1)
  (Hs : reachable s)
  (Ht : threads s !! t = Some (RegLocked c name))
  (Hreg : registered (world s) c name ch') :
  (registered w1 c name ch
   /\ RegisterReConnectNotify name c w1 = Returned ch w1)
  /\ (pending (world s) ch'
      /\ step (Run t d) s
         = Some (mkCState (world s) (<[t := RegUnlock c (inl ch')]> (threads s)))).
Proof.
  split; [exact (Register_again_alone name c w w1 ch Hfirst)|].
  destruct (reachable_reg_inv s Hs) as [Hmutex Hinv].
  split.
  - exact (held_pending s t _ c name ch' Hinv Hmutex Ht eq_refl eq_refl Hreg).
  - destruct Hreg as (cl & m & Hc & Hm & Hn).
    cbn. rewrite Ht. cbn. unfold exec_deferred.
    rewrite (register_body_known name c _ cl ch' Hc); [reflexivity|].
    unfold map_get. now rewrite Hm.
Qed.

End ConcRegistry.

(** * Part IX: the statements about the registry on a schedule *)
Section RegistrySchedules.
Import Safe Conc Samples.

Lemma until_notify_runs :
  run echo_rpc map_to_list until_notify init = Some (state_after until_notify).
Proof. vm_compute. reflexivity. Qed.

Lemma until_notify_reachable :
  reachable echo_rpc map_to_list (state_after until_notify).
Proof.
  exact (run_reachable echo_rpc map_to_list until_notify init _
           (reach_init echo_rpc map_to_list) until_notify_runs).
Qed.

Example until_notify_threads :
  threads (state_after until_notify)
  = [ Done (RetNew 0 None); Done (RetChan 0); Done (RetChan 1);
      RecNotify 0 [("chain", 1); ("alarm", 0)] [] ].
Proof. vm_compute. reflexivity. Qed.

Lemma RecoverDisconnect_fires_each_once_witness :
  exists w',
    RecoverDisconnect map_to_list third_time 0 w_two = Some (Returned tt w').
Proof.
  edestruct (RecoverDisconnect_fires_each_once echo_rpc map_to_list
               map_to_list_visits_all third_time 9 0 w_two)
    as ((w' & Hrun & _) & _).
  - exact w_two_reachable.
  - vm_compute. reflexivity.
  - reflexivity.
  - exact until_notify_reachable.
  - exists w'. exact Hrun.
Defined.

Lemma registry_channels_take_one_signal_witness :
  pending (world (state_after until_notify)) 1.
Proof.
  edestruct (registry_channels_take_one_signal echo_rpc map_to_list
               map_to_list_visits_all 9 0 w_two) as (_ & _ & _ & Hstep).
  - exact w_two_reachable.
  - vm_compute. reflexivity.
  - exact until_notify_reachable.
  - refine (proj1 (Hstep 3 (inl 0) 0 "chain" 1 [("alarm", 0)] [] _)).
    vm_compute. reflexivity.
Defined.


Lemma register_again_runs :
  run echo_rpc map_to_list register_again init = Some (state_after register_again).
Proof. vm_compute. reflexivity. Qed.

Lemma register_again_reachable :
  reachable echo_rpc map_to_list (state_after register_again).
Proof.
  exact (run_reachable echo_rpc map_to_list register_again init _
           (reach_init echo_rpc map_to_list) register_again_runs).
Qed.

Lemma Register_twice_same_channel_witness :
  RegisterReConnectNotify "alarm" 0 w_one = Returned 0 w_one
  /\ pending (world (state_after register_again)) 0.
Proof.
  edestruct (Register_twice_same_channel echo_rpc map_to_list
               map_to_list_visits_all "alarm" 0 w_new w_one 0
               (state_after register_again) 2 (inl 0) 0)
    as ((_ & Hagain) & (Hpending & _)).
  - vm_compute. reflexivity.
  - exact register_again_reachable.
  - vm_compute. reflexivity.
  - eexists _, _. split; [vm_compute; reflexivity|]. split; [reflexivity|].
    vm_compute. reflexivity.
  - split; [exact Hagain | exact Hpending].
Defined.

End RegistrySchedules.

(** * Part X: more about the signed bytes *)
Section PunishMore.
Import Punish.
Local Open Scope Z_scope.

(** The layout is unambiguous: every segment has a fixed width, so two
    requests signed over the same bytes agree on the lock hash, the
    channel identifier, the open block number, the chain identifier and
    the additional hash. *)
Theorem sign_buf_injective
  (w w' : ObseleteUnlockForContract)
  (Hblock : 0 <= OpenBlockNumber w < 2 ^ 64)
  (Hblock' : 0 <= OpenBlockNumber w' < 2 ^ 64)
  (Hchain : 0 <= ChainID w < 2 ^ 256)
  (Hchain' : 0 <= ChainID w' < 2 ^ 256)
  (Hsame : sign_buf w = sign_buf w') :
  b32 (LockHash w) = b32 (LockHash w')
  /\ b32 (ChannelIdentifier w) = b32 (ChannelIdentifier w')
  /\ OpenBlockNumber w = OpenBlockNumber w'
  /\ ChainID w = ChainID w'
  /\ b32 (AdditionalHash w) = b32 (AdditionalHash w').
Proof.
  rewrite !sign_buf_segments in Hsame.
  apply app_inj_1 in Hsame as [H1 Hsame]; [|now rewrite !b32_len].
  apply app_inj_1 in Hsame as [H2 Hsame]; [|now rewrite !b32_len].
  apply app_inj_1 in Hsame as [H3 Hsame]; [|now rewrite !be_bytes_length].
  apply app_inj_1 in Hsame as [H4 H5]; [|now rewrite !be_bytes_length].
  repeat apply conj; try assumption.
  - rewrite <- (be_roundtrip 8 (OpenBlockNumber w)) by exact Hblock.
    rewrite <- (be_roundtrip 8 (OpenBlockNumber w')) by exact Hblock'.
    now rewrite H3.
  - rewrite <- (be_roundtrip 32 (ChainID w)) by exact Hchain.
    rewrite <- (be_roundtrip 32 (ChainID w')) by exact Hchain'.
    now rewrite H4.
Qed.

Lemma sign_buf_injective_witness :
  ChainID (set_TokenNetworkAddress (Samples.address_of x55) Samples.sample_unlock)
  = ChainID Samples.sample_unlock.
Proof.
  refine (proj1 (proj2 (proj2 (proj2
    (sign_buf_injective
       (set_TokenNetworkAddress (Samples.address_of x55) Samples.sample_unlock)
       Samples.sample_unlock _ _ _ _ _))))); try (simpl; lia).
  reflexivity.
Defined.

End PunishMore.

(** * Part XI: more about calls made one after the other *)
Section SafeMore.
Import Safe.

Lemma registered_lookup w c cl m name ch :
  clients w !! c = Some cl -> ReConnect cl = Some m ->
  registered w c name ch <-> m !! name = Some ch.
Proof.
  intros Hc Hm. rewrite (registered_get w c cl name ch Hc).
  unfold map_get. now rewrite Hm.
Qed.

(** A name not yet in the registry gets a channel of its own: one that
    did not exist before, pending, of capacity 1, and different from
    every channel registered with any client; the entries that were
    there keep their channels, and the new entry is the only one
    added. *)
Theorem Register_new_name_own_channel
  (name : string) (c : ptr) (w : World) (cl : SafeEthClient)
  (Hreach : reachable w)
  (Hclient : clients w !! c = Some cl)
  (Hnew : map_get (ReConnect cl) name = None) :
  exists ch w',
    RegisterReConnectNotify name c w = Returned ch w'
    /\ chans w !! ch = None
    /\ chans w' !! ch = Some (mkChan 1 0 false 0)
    /\ registered w' c name ch
    /\ (forall c' n x, registered w c' n x ->
          x <> ch /\ registered w' c' n x /\ chans w' !! x = chans w !! x)
    /\ (forall c' n x, registered w' c' n x ->
          (c' = c /\ n = name /\ x = ch) \/ registered w c' n x).
Proof.
  pose proof (reachable_inv w Hreach) as Hinv.
  destruct (inv_client w c cl Hinv Hclient) as (m & Hm & Hl & _ & _).
  assert (Hn : m !! name = None) by (unfold map_get in Hnew; now rewrite Hm in Hnew).
  pose proof (Register_new w name c cl m Hclient Hl Hm Hn) as Hrun. cbn zeta in Hrun.
  set (ch := fresh (dom (chans w))) in *.
  assert (Hfresh : chans w !! ch = None) by apply fresh_chan.
  assert (Hknown : forall c' n x, registered w c' n x -> x <> ch).
  { intros c' n x Hreg ->. rewrite (inv_pending w Hinv c' n ch Hreg) in Hfresh.
    discriminate. }
  eexists ch, _. split; [exact Hrun|]. split; [exact Hfresh|].
  split; [cbn; apply lookup_insert_eq|].
  destruct w as [cs chs]. cbn in *.
  split; [|split].
  - apply registered_insert. left. split; [reflexivity|]. cbn. apply lookup_insert_eq.
  - intros c' n x Hreg. pose proof (Hknown c' n x Hreg) as Hne.
    split; [exact Hne|]. split; [|now rewrite lookup_insert_ne].
    apply registered_insert. destruct (decide (c' = c)) as [->|Hc'].
    + left. split; [reflexivity|]. cbn.
      apply (registered_lookup (mkWorld cs chs) c cl m n x Hclient Hm) in Hreg.
      rewrite lookup_insert_ne; [exact Hreg|]. intros <-. congruence.
    + right. split; [exact Hc'|]. exact (registered_chans _ _ _ _ _ _ Hreg).
  - intros c' n x Hreg. apply registered_insert in Hreg as [[-> Hg] | [Hc' Hreg]].
    + cbn in Hg. destruct (decide (n = name)) as [->|Hnn].
      * rewrite lookup_insert_eq in Hg. injection Hg as <-. now left.
      * rewrite lookup_insert_ne in Hg by congruence. right. now exists cl, m.
    + right. exact (registered_chans _ _ _ _ _ _ Hreg).
Qed.

Lemma Register_new_name_own_channel_witness :
  exists ch w', RegisterReConnectNotify "price" 0 Samples.w_two = Returned ch w'.
Proof.
  edestruct (Register_new_name_own_channel "price" 0 Samples.w_two)
    as (ch & w' & Hrun & _).
  - exact w_two_reachable.
  - vm_compute. reflexivity.
  - vm_compute. reflexivity.
  - exists ch, w'. exact Hrun.
Defined.

(** The order in which the range statement visits the registry does not
    show in what [RecoverDisconnect] leaves behind. *)
Theorem RecoverDisconnect_order_irrelevant
  (range1 range2 : gmap string chan -> list (string * chan))
  (dials : list dial_result) (c : ptr) (w : World)
  (Hreach : reachable w)
  (Hrange1 : visits_all range1) (Hrange2 : visits_all range2) :
  RecoverDisconnect range1 dials c w = RecoverDisconnect range2 dials c w.
Proof.
  pose proof (reachable_inv w Hreach) as Hinv.
  destruct (clients w !! c) as [cl|] eqn:Hc.
  2:{ now rewrite !(Recover_nil _ _ _ _ Hc). }
  destruct (first_answer dials) as [client|] eqn:Hd.
  2:{ now rewrite !(Recover_retrying _ _ _ _ _ Hc Hd). }
  destruct (inv_client w c cl Hinv Hc) as (m & Hm & Hl & Hinj & Hpend).
  destruct (Recover_spec range1 dials client c w cl m Hrange1 Hc Hl Hm Hinj Hpend Hd)
    as (chs1 & -> & Hin1 & Hout1).
  destruct (Recover_spec range2 dials client c w cl m Hrange2 Hc Hl Hm Hinj Hpend Hd)
    as (chs2 & -> & Hin2 & Hout2).
  do 3 f_equal. apply map_eq. intros ch.
  destruct (decide (ch ∈ (map_to_list m).*2)) as [Hin|Hnin].
  - apply list_elem_of_fmap in Hin as ([n x] & -> & Hx).
    apply elem_of_map_to_list in Hx. cbn.
    now rewrite (Hin1 n x Hx), (Hin2 n x Hx).
  - assert (Hno : forall name, m !! name <> Some ch).
    { intros name Hn. apply Hnin. apply list_elem_of_fmap. exists (name, ch).
      split; [reflexivity|]. now apply elem_of_map_to_list. }
    now rewrite (Hout1 ch Hno), (Hout2 ch Hno).
Qed.

Lemma backwards_visits_all : visits_all Samples.backwards.
Proof. intros m. unfold Samples.backwards. apply reverse_Permutation. Qed.

Lemma RecoverDisconnect_order_irrelevant_witness :
  RecoverDisconnect map_to_list Samples.third_time 0 Samples.w_two
  = RecoverDisconnect Samples.backwards Samples.third_time 0 Samples.w_two.
Proof.
  exact (RecoverDisconnect_order_irrelevant map_to_list Samples.backwards
           Samples.third_time 0 Samples.w_two w_two_reachable
           map_to_list_visits_all backwards_visits_all).
Defined.

(** Failed dials leave no trace: what [RecoverDisconnect] does depends
    on the dial answers only through the first successful one, and
    while every dial fails it does not return. *)
Theorem RecoverDisconnect_retries_until_dialled
  (range : gmap string chan -> list (string * chan))
  (dials1 dials2 : list dial_result) (c : ptr) (w : World) (cl : SafeEthClient)
  (Hclient : clients w !! c = Some cl)
  (Hsame : first_answer dials1 = first_answer dials2) :
  RecoverDisconnect range dials1 c w = RecoverDisconnect range dials2 c w
  /\ (first_answer dials1 = None -> RecoverDisconnect range dials1 c w = None)
  /\ (forall client, first_answer dials1 = Some client ->
        RecoverDisconnect range dials1 c w
        = RecoverDisconnect range [inl client] c w).
Proof.
  assert (Hdep : forall ds, RecoverDisconnect range ds c w
            = match first_answer ds with
              | Some client =>
                  Some (reconnected range client c
                          (mkWorld (<[c := set_Status ConnectionFailed cl]> (clients w))
                                   (chans w)))
              | None => None
              end).
  { intros ds. unfold RecoverDisconnect.
    now rewrite (assign_Some _ _ _ _ Hclient), reconnect_loop_first. }
  split; [now rewrite !Hdep, Hsame|]. split.
  - intros Hnone. now rewrite Hdep, Hnone.
  - intros client Hsome. rewrite !Hdep, Hsome. reflexivity.
Qed.

Lemma RecoverDisconnect_retries_until_dialled_witness :
  RecoverDisconnect map_to_list Samples.third_time 0 Samples.w_two
  = RecoverDisconnect map_to_list [inl 9] 0 Samples.w_two.
Proof.
  edestruct (RecoverDisconnect_retries_until_dialled map_to_list
               Samples.third_time [inl 9] 0 Samples.w_two) as (H & _).
  - vm_compute. reflexivity.
  - reflexivity.
  - exact H.
Defined.


(** Before [RecoverDisconnect] a receive on a registered channel waits.
    After it the first receive takes the one signal and every later
    receive comes back at once with [ok = false]: the channel is
    closed, and no second signal is ever found. *)
Theorem notification_received_once
  (range : gmap string chan -> list (string * chan))
  (dials : list dial_result) (client : conn) (c : ptr) (w : World)
  (name : string) (ch : chan)
  (Hreach : reachable w)
  (Hrange : visits_all range)
  (Hreg : registered w c name ch)
  (Hdial : first_answer dials = Some client) :
  chan_recv ch w = Blocked w
  /\ exists w' w1,
       RecoverDisconnect range dials c w = Some (Returned tt w')
       /\ chan_recv ch w' = Returned true w1
       /\ chan_recv ch w1 = Returned false w1
       /\ clients w1 = clients w'.
Proof.
  pose proof (reachable_inv w Hreach) as Hinv.
  pose proof (inv_pending w Hinv c name ch Hreg) as Hpend.
  split; [unfold chan_recv; now rewrite Hpend|].
  destruct Hreg as (cl & m & Hc & Hm & Hn).
  destruct (inv_client w c cl Hinv Hc) as (m' & Hm' & Hl & Hinj & Hp).
  rewrite Hm in Hm'. injection Hm' as <-.
  destruct (Recover_spec range dials client c w cl m Hrange Hc Hl Hm Hinj Hp Hdial)
    as (chs' & Hrun & Hin & _).
  eexists _, _. split; [exact Hrun|].
  unfold chan_recv at 1. cbn [chans]. rewrite (Hin name ch Hn). cbn.
  split; [reflexivity|]. split; [|reflexivity].
  unfold chan_recv. cbn. now rewrite lookup_insert_eq.
Qed.

Lemma notification_received_once_witness :
  chan_recv 1 Samples.w_two = Blocked Samples.w_two.
Proof.
  refine (proj1 (notification_received_once map_to_list Samples.third_time 9 0
                   Samples.w_two "chain" 1 w_two_reachable
                   map_to_list_visits_all _ eq_refl)).
  eexists _, _. split; [vm_compute; reflexivity|]. split; [reflexivity|].
  vm_compute. reflexivity.
Defined.

(** A client whose first dial failed has a nil connection: a capability
    call on it panics with a nil dereference, the deferred [Unlock]
    still runs and nothing has changed.  Once [RecoverDisconnect] has
    dialled, the same call is answered by the new connection. *)
Theorem wrapper_after_failed_dial
  (Args Result : Type) (rpc : conn -> method -> Args -> Result)
  (range : gmap string chan -> list (string * chan))
  (rawurl err : string) (w : World)
  (dials : list dial_result) (client : conn) (m : method) (a : Args)
  (Hrange : visits_all range)
  (Hdial : first_answer dials = Some client) :
  exists c w1 w3,
    NewSafeClient rawurl (inr err) w = Returned (c, Some err) w1
    /\ wrapper rpc m a c w1 = Panicked nil_deref w1
    /\ RecoverDisconnect range dials c w1 = Some (Returned tt w3)
    /\ wrapper rpc m a c w3 = Returned (rpc client m a) w3.
Proof.
  pose proof (NewSafeClient_spec rawurl (inr err) w) as Hnew. cbn zeta in Hnew.
  set (c := fresh (dom (clients w))) in *.
  set (cl := mkSafeEthClient None false rawurl (Some ∅) ConnectionFailed) in *.
  set (w1 := mkWorld (<[c := cl]> (clients w)) (chans w)) in *.
  assert (Hc1 : clients w1 !! c = Some cl) by (cbn; apply lookup_insert_eq).
  destruct (Recover_spec range dials client c w1 cl ∅ Hrange Hc1 eq_refl eq_refl)
    as (chs' & Hrun & _); try exact Hdial.
  { intros n1 n2 ch H. now rewrite lookup_empty in H. }
  { intros n ch H. now rewrite lookup_empty in H. }
  eexists c, w1, _. split; [exact Hnew|]. split; [|split; [exact Hrun|]].
  - now rewrite (wrapper_runs rpc m a c w1 cl Hc1 eq_refl).
  - erewrite wrapper_runs; [| cbn; apply lookup_insert_eq | reflexivity].
    reflexivity.
Qed.

Lemma wrapper_after_failed_dial_witness :
  wrapper Samples.echo_rpc BlockByHash tt 0 Samples.w_new
  = Panicked nil_deref Samples.w_new.
Proof.
  destruct (wrapper_after_failed_dial unit (conn * method) Samples.echo_rpc
              map_to_list "ws://127.0.0.1:8546" "connection refused" empty_world
              Samples.third_time 9 BlockByHash tt map_to_list_visits_all eq_refl)
    as (c & w1 & w3 & Hnew & Hpanic & _).
  assert (E : Returned (c, Some "connection refused") w1
              = Returned (0, Some "connection refused") Samples.w_new).
  { rewrite <- Hnew. vm_compute. reflexivity. }
  injection E as -> ->. exact Hpanic.
Defined.






(** Every call that returns or panics has given back the mutex it took,
    so between calls every mutex is free and no call waits for one:
    [Lock] on a client returns at once, and the [Unlock] after it
    leaves the world as it was.  A call on a pointer that is no client
    panics with a nil dereference and changes nothing, and so does a
    capability call on a client whose connection is nil, its deferred
    [Unlock] having run.  On a client, [RegisterReConnectNotify]
    always returns. *)
Theorem no_call_waits_for_the_mutex
  (w : World) (Hreach : reachable w) :
  (forall c cl, clients w !! c = Some cl ->
     lock cl = false
     /\ exists w1, Lock c w = Returned tt w1 /\ Unlock c w1 = Returned tt w)
  /\ (forall name c,
        (is_Some (clients w !! c)
         /\ exists ch w', RegisterReConnectNotify name c w = Returned ch w')
        \/ (clients w !! c = None
            /\ RegisterReConnectNotify name c w = Panicked nil_deref w))
  /\ (forall (Args Result : Type) (rpc : conn -> method -> Args -> Result) m a c,
        clients w !! c = None
        \/ (exists cl, clients w !! c = Some cl /\ Client cl = None) ->
        wrapper rpc m a c w = Panicked nil_deref w)
  /\ (forall range dials c,
        clients w !! c = None ->
        RecoverDisconnect range dials c w = Some (Panicked nil_deref w)).
Proof.
  pose proof (reachable_inv w Hreach) as Hinv.
  split; [|split; [|split]].
  - intros c cl Hc. pose proof (inv_unlocked w Hinv c cl Hc) as Hl.
    split; [exact Hl|]. eexists. split; [exact (Lock_free w c cl Hc Hl)|].
    exact (unlock_after_lock w c cl Hc Hl).
  - intros name c. destruct (clients w !! c) as [cl|] eqn:Hc.
    + left. split; [eauto|].
      destruct (inv_client w c cl Hinv Hc) as (m & Hm & Hl & _ & _).
      destruct (m !! name) as [ch|] eqn:Hn.
      * exists ch, w. apply (Register_known w name c cl ch Hc Hl).
        unfold map_get. now rewrite Hm.
      * eexists _, _. exact (Register_new w name c cl m Hc Hl Hm Hn).
    + right. split; [reflexivity|]. now apply Register_nil.
  - intros Args Result rpc m a c [Hc|(cl & Hc & Hk)].
    + unfold wrapper, bind, Lock. now rewrite Hc.
    + rewrite (wrapper_runs rpc m a c w cl Hc (inv_unlocked w Hinv c cl Hc)).
      now rewrite Hk.
  - intros range dials c Hc. now apply Recover_nil.
Qed.

Lemma no_call_waits_for_the_mutex_witness :
  RegisterReConnectNotify "alarm" 5 Samples.w_two = Panicked nil_deref Samples.w_two.
Proof.
  destruct (no_call_waits_for_the_mutex Samples.w_two w_two_reachable)
    as (_ & Hreg & _).
  destruct (Hreg "alarm" 5) as [[[cl Hc] _] | [_ Hp]]; [|exact Hp].
  vm_compute in Hc. discriminate Hc.
Defined.

(** A second [RecoverDisconnect] finds the registry the first one
    emptied: it stores the new connection and touches no channel, so no
    channel is sent a second signal or closed twice.  Neither call
    touches another client or the channels registered with one. *)
Theorem RecoverDisconnect_again_fires_nothing
  (range : gmap string chan -> list (string * chan))
  (dials dials' : list dial_result) (k k' : conn) (c : ptr) (w : World)
  (cl : SafeEthClient)
  (Hreach : reachable w)
  (Hrange : visits_all range)
  (Hclient : clients w !! c = Some cl)
  (Hdial : first_answer dials = Some k)
  (Hdial' : first_answer dials' = Some k') :
  exists w1 w2,
    RecoverDisconnect range dials c w = Some (Returned tt w1)
    /\ RecoverDisconnect range dials' c w1 = Some (Returned tt w2)
    /\ chans w2 = chans w1
    /\ clients w2 !! c
       = Some (mkSafeEthClient (Some k') false (url cl) (Some ∅) ConnectionOk)
    /\ (forall c', c' <> c -> clients w2 !! c' = clients w !! c')
    /\ (forall c' n ch, c' <> c -> registered w c' n ch ->
          chans w2 !! ch = Some pending_chan).
Proof.
  pose proof (reachable_inv w Hreach) as Hinv.
  destruct (inv_client w c cl Hinv Hclient) as (m & Hm & Hl & Hinj & Hpend).
  destruct (Recover_spec range dials k c w cl m Hrange Hclient Hl Hm Hinj Hpend Hdial)
    as (chs1 & Hrun1 & _ & Hout1).
  set (cl1 := mkSafeEthClient (Some k) false (url cl) (Some ∅) ConnectionOk) in *.
  set (w1 := mkWorld (<[c := cl1]> (clients w)) chs1) in *.
  assert (Hc1 : clients w1 !! c = Some cl1) by (cbn; apply lookup_insert_eq).
  destruct (Recover_spec range dials' k' c w1 cl1 ∅ Hrange Hc1 eq_refl eq_refl)
    as (chs2 & Hrun2 & _ & Hout2); try exact Hdial'.
  { intros n1 n2 ch H. now rewrite lookup_empty in H. }
  { intros n ch H. now rewrite lookup_empty in H. }
  assert (Hsame : chs2 = chs1).
  { apply map_eq. intros ch. apply Hout2. intros n. now rewrite lookup_empty. }
  eexists w1, _. split; [exact Hrun1|]. split; [exact Hrun2|].
  cbn. split; [exact Hsame|]. split; [apply lookup_insert_eq|]. split.
  - intros c' Hne. now rewrite !lookup_insert_ne by congruence.
  - intros c' n ch Hne Hreg. rewrite Hsame, Hout1.
    + exact (inv_pending w Hinv c' n ch Hreg).
    + intros name Hname.
      destruct (inv_inj w Hinv c' n c name ch Hreg) as [Heq _]; [|congruence].
      exists cl, m. auto.
Qed.

Lemma RecoverDisconnect_again_fires_nothing_witness :
  exists w1 w2,
    RecoverDisconnect map_to_list Samples.third_time 0 Samples.w_two
    = Some (Returned tt w1)
    /\ RecoverDisconnect map_to_list [inl 11] 0 w1 = Some (Returned tt w2)
    /\ chans w2 = chans w1.
Proof.
  edestruct (RecoverDisconnect_again_fires_nothing map_to_list Samples.third_time
               [inl 11] 9 11 0 Samples.w_two)
    as (w1 & w2 & H1 & H2 & H3 & _).
  - exact w_two_reachable.
  - exact map_to_list_visits_all.
  - vm_compute. reflexivity.
  - reflexivity.
  - reflexivity.
  - exists w1, w2. auto.
Defined.

End SafeMore.

(** * Part XII: more about goroutines *)
Section ConcMore.
Import Safe Conc.
Context {Args Result : Type}.
Variable rpc : conn -> method -> Args -> Result.
Variable range : gmap string chan -> list (string * chan).
Hypothesis range_visits_all : visits_all range.

Local Abbreviation pc := (@Conc.pc Args Result).
Local Abbreviation cstate := (@Conc.cstate Args Result).
Local Abbreviation step_pc := (Conc.step_pc rpc range).
Local Abbreviation step := (Conc.step rpc range).
Local Abbreviation run := (Conc.run rpc range).
Local Abbreviation reachable := (Conc.reachable rpc range).


(** ** The address a client dials *)

Lemma step_pc_url d (p : pc) w p' w' c :
  step_pc d p w = Some (p', w') -> is_Some (clients w !! c) ->
  url <$> clients w' !! c = url <$> clients w !! c.
Proof.
  intros Hstep Hc.
  assert (Hk : forall {A} held (m : M A) (k : A -> pc),
            keeps url m -> exec held m k w = Some (p', w') ->
            url <$> clients w' !! c = url <$> clients w !! c).
  { intros A held m k Hm H. now destruct (exec_keeps url held m k w p' w' Hm H). }
  assert (Hd : forall {A} (m : M A) (k : A + string -> pc),
            keeps url m -> exec_deferred m k w = Some (p', w') ->
            url <$> clients w' !! c = url <$> clients w !! c).
  { intros A m k Hm H. now destruct (exec_deferred_keeps url m k w p' w' Hm H). }
  destruct p as [[rawurl|c0 name|c0|c0 m a|ch]|c0 name|c0 r|c0 m a|c0 r|c0|c0 client
                 |c0 client|c0 client|c0|c0 entries keys|c0 keys|c0|r|held msg];
    cbn [Conc.step_pc] in Hstep.
  - unfold exec in Hstep. pose proof (New_keeps_clients rawurl d w c Hc) as Hn.
    destruct (NewSafeClient rawurl d w) as [a w1|msg w1|w1]; [| |discriminate];
      injection Hstep as <- <-; cbn in Hn; now rewrite Hn.
  - eapply Hk; [|exact Hstep]. now apply keeps_Lock.
  - eapply Hk; [|exact Hstep]. now apply keeps_assign.
  - eapply Hk; [|exact Hstep]. now apply keeps_Lock.
  - eapply Hk; [|exact Hstep]. apply keeps_chan_recv.
  - eapply Hd; [|exact Hstep]. now apply keeps_register_body.
  - eapply Hk; [|exact Hstep]. now apply keeps_Unlock.
  - eapply Hd; [|exact Hstep]. apply keeps_forward.
  - eapply Hk; [|exact Hstep]. now apply keeps_Unlock.
  - destruct d; now injection Hstep as <- <-.
  - eapply Hk; [|exact Hstep]. now apply keeps_assign.
  - eapply Hk; [|exact Hstep]. now apply keeps_Lock.
  - eapply Hk; [|exact Hstep]. now apply keeps_assign.
  - eapply Hk; [|exact Hstep]. apply keeps_load.
  - destruct entries as [|[name ch] rest].
    + now injection Hstep as <- <-.
    + eapply Hk; [|exact Hstep]. apply keeps_notify_one.
  - destruct keys as [|name rest].
    + now injection Hstep as <- <-.
    + eapply Hk; [|exact Hstep]. now apply keeps_map_delete.
  - eapply Hk; [|exact Hstep]. now apply keeps_Unlock.
  - discriminate.
  - discriminate.
Qed.

Lemma run_url sched (s s' : cstate) c cl :
  run sched s = Some s' -> clients (world s) !! c = Some cl ->
  exists cl', clients (world s') !! c = Some cl' /\ url cl' = url cl.
Proof.
  revert s cl. induction sched as [|l sched IH]; intros s cl Hrun Hc; cbn in Hrun.
  - injection Hrun as <-. eauto.
  - destruct (Conc.step rpc range l s) as [s1|] eqn:Hstep; [|discriminate].
    destruct l as [k|t d]; cbn in Hstep.
    + injection Hstep as <-. exact (IH _ cl Hrun Hc).
    + destruct (threads s !! t) as [p|]; [|discriminate].
      destruct (Conc.step_pc rpc range d p (world s)) as [[p' w']|] eqn:Hpc;
        [|discriminate].
      injection Hstep as <-.
      pose proof (step_pc_url d p (world s) p' w' c Hpc (ex_intro _ cl Hc)) as Hu.
      rewrite Hc in Hu. cbn in Hu.
      destruct (clients w' !! c) as [cl1|] eqn:Hc1; [|discriminate].
      injection Hu as Hu.
      destruct (IH (mkCState w' (<[t := p']> (threads s))) cl1 Hrun Hc1)
        as (cl' & Hc' & Hu').
      exists cl'. split; [exact Hc'|]. congruence.
Qed.

(** The [url] of a client is the address [NewSafeClient] was given:
    the client is made at an address that held none, and whatever the
    goroutines do afterwards, in whatever order, the client stays and
    its [url], the field [RecoverDisconnect] reads for every dial, is
    still that address. *)
Theorem url_is_the_one_given
  (s s1 s' : cstate) (t : nat) (d : dial_result) (rawurl : string)
  (sched : list label)
  (Ht : threads s !! t = Some (Start (CallNew rawurl)))
  (Hstep : step (Run t d) s = Some s1)
  (Hrun : run sched s1 = Some s') :
  exists c err cl cl',
    threads s1 !! t = Some (Done (RetNew c err))
    /\ clients (world s) !! c = None
    /\ clients (world s1) !! c = Some cl /\ url cl = rawurl
    /\ clients (world s') !! c = Some cl' /\ url cl' = rawurl.
Proof.
  cbn in Hstep. rewrite Ht in Hstep. cbn [Conc.step_pc] in Hstep.
  unfold exec in Hstep. pose proof (NewSafeClient_spec rawurl d (world s)) as Hnew.
  cbn zeta in Hnew. rewrite Hnew in Hstep. clear Hnew.
  set (c := fresh (dom (clients (world s)))) in *.
  assert (Hfresh : clients (world s) !! c = None).
  { apply not_elem_of_dom. apply is_fresh. }
  destruct d as [client|err]; injection Hstep as <-.
  - destruct (run_url sched _ s' c _ Hrun (lookup_insert_eq _ _ _)) as (cl' & Hc' & Hu).
    eexists c, None, _, cl'. split; [cbn; exact (thread_moved _ _ _ _ Ht)|].
    split; [exact Hfresh|]. split; [cbn; apply lookup_insert_eq|].
    split; [reflexivity|]. split; [exact Hc' | exact Hu].
  - destruct (run_url sched _ s' c _ Hrun (lookup_insert_eq _ _ _)) as (cl' & Hc' & Hu).
    eexists c, (Some err), _, cl'. split; [cbn; exact (thread_moved _ _ _ _ Ht)|].
    split; [exact Hfresh|]. split; [cbn; apply lookup_insert_eq|].
    split; [reflexivity|]. split; [exact Hc' | exact Hu].
Qed.

(** ** Channels are never shared *)

(** However the goroutines interleave, a channel is registered under
    one name of one client only, and it was made with room for the one
    signal. *)
Theorem channels_never_shared
  (s : cstate) (c1 c2 : ptr) (n1 n2 : string) (ch : chan)
  (Hs : reachable s)
  (H1 : registered (world s) c1 n1 ch)
  (H2 : registered (world s) c2 n2 ch) :
  c1 = c2 /\ n1 = n2
  /\ exists st, chans (world s) !! ch = Some st /\ cap st = 1.
Proof.
  destruct (reachable_reg_inv rpc range range_visits_all s Hs) as [_ Hinv].
  destruct (ri_inj s Hinv c1 n1 c2 n2 ch H1 H2) as [-> ->].
  split; [reflexivity|]. split; [reflexivity|].
  exact (registered_cap s c2 n2 ch Hinv H1).
Qed.


(** ** The panics goroutines meet *)

Lemma step_of (s : cstate) t d p p' w' :
  threads s !! t = Some p -> step_pc d p (world s) = Some (p', w') ->
  step (Run t d) s = Some (mkCState w' (<[t := p']> (threads s))).
Proof. intros Ht Hpc. cbn. now rewrite Ht, Hpc. Qed.

Lemma exec_cases {A} held (m : M A) (k : A -> pc) w p' w' :
  exec held m k w = Some (p', w') ->
  (exists a, m w = Returned a w' /\ p' = k a)
  \/ (exists msg, m w = Panicked msg w' /\ p' = Crashed held msg).
Proof.
  unfold exec. destruct (m w) as [a w1|msg w1|w1]; intros H; [| |discriminate];
    injection H as <- <-; eauto.
Qed.

Lemma exec_deferred_cases {A} (m : M A) (k : A + string -> pc) w p' w' :
  exec_deferred m k w = Some (p', w') ->
  (exists a, m w = Returned a w' /\ p' = k (inl a))
  \/ (exists msg, m w = Panicked msg w' /\ p' = k (inr msg)).
Proof.
  unfold exec_deferred. destruct (m w) as [a w1|msg w1|w1]; intros H; [| |discriminate];
    injection H as <- <-; eauto.
Qed.

Lemma register_body_returns name c w cl m :
  clients w !! c = Some cl -> ReConnect cl = Some m ->
  exists ch w', register_body name c w = Returned ch w'.
Proof.
  intros Hc Hm. destruct (m !! name) as [ch|] eqn:Hn.
  - exists ch, w. apply (register_body_known name c w cl ch Hc).
    unfold map_get. now rewrite Hm.
  - eexists _, _. exact (register_body_new name c w cl m Hc Hm Hn).
Qed.

Lemma Unlock_returns (s : cstate) t p c :
  mutex_inv s -> threads s !! t = Some p -> holds p = Some c ->
  exists w', Unlock c (world s) = Returned tt w'
    /\ lock_of w' c = Some false.
Proof.
  intros Hmutex Ht Hp.
  destruct (Unlock_effect c (world s) (held_locked s Hmutex t p c Ht Hp))
    as (w' & Hu & Hl & _).
  eauto.
Qed.

(** A move leaves none of these behind. *)
Lemma panics_step (s : cstate) t d (p p' : pc) w' :
  reg_inv s -> mutex_inv s -> threads s !! t = Some p -> no_own_panic p ->
  step_pc d p (world s) = Some (p', w') -> loop_ok w' p' ->
  no_own_panic p'.
Proof.
  intros Hinv Hmutex Ht Hp Hstep Hok.
  destruct p as [[rawurl|c0 name|c0|c0 m a|ch]|c0 name|c0 r|c0 m a|c0 r|c0|c0 client
                 |c0 client|c0 client|c0|c0 entries keys|c0 keys|c0|r|held msg];
    cbn [Conc.step_pc] in Hstep.
  - now apply exec_cases in Hstep as [(a & Hm & ->)|(msg & Hm & ->)].
  - now apply exec_cases in Hstep as [(a & Hm & ->)|(msg & Hm & ->)].
  - now apply exec_cases in Hstep as [(a & Hm & ->)|(msg & Hm & ->)].
  - now apply exec_cases in Hstep as [(a0 & Hm & ->)|(msg & Hm & ->)].
  - now apply exec_cases in Hstep as [(a & Hm & ->)|(msg & Hm & ->)].
  - apply exec_deferred_cases in Hstep as [(a & Hm & ->)|(msg & Hm & ->)]; [exact I|].
    destruct (held_client s t _ c0 Hinv Hmutex Ht eq_refl) as (cl & m & Hc & Hr).
    destruct (register_body_returns name c0 (world s) cl m Hc Hr) as (ch & w1 & Hb).
    congruence.
  - apply exec_cases in Hstep as [(a & Hm & ->)|(msg & Hm & ->)]; [|reflexivity].
    destruct r as [ch|msg]; [exact I | reflexivity].
  - now apply exec_deferred_cases in Hstep as [(a0 & Hm & ->)|(msg & Hm & ->)].
  - apply exec_cases in Hstep as [(a & Hm & ->)|(msg & Hm & ->)]; [|reflexivity].
    destruct r as [x|msg]; [exact I | reflexivity].
  - destruct d; now injection Hstep as <- <-.
  - now apply exec_cases in Hstep as [(a & Hm & ->)|(msg & Hm & ->)].
  - now apply exec_cases in Hstep as [(a & Hm & ->)|(msg & Hm & ->)].
  - apply exec_cases in Hstep as [(a & Hm & ->)|(msg & Hm & ->)]; [exact I|].
    destruct Hok.
  - apply exec_cases in Hstep as [(a & Hm & ->)|(msg & Hm & ->)]; [exact I|].
    destruct Hok.
  - destruct entries as [|[name ch] rest].
    + now injection Hstep as <- <-.
    + apply exec_cases in Hstep as [(a & Hm & ->)|(msg & Hm & ->)]; [exact I|].
      destruct Hok.
  - destruct keys as [|name rest].
    + now injection Hstep as <- <-.
    + apply exec_cases in Hstep as [(a & Hm & ->)|(msg & Hm & ->)]; [exact I|].
      destruct Hok.
  - now apply exec_cases in Hstep as [(a & Hm & ->)|(msg & Hm & ->)].
  - discriminate.
  - discriminate.
Qed.

Lemma reachable_panics (s : cstate) :
  reachable s -> forall t p, threads s !! t = Some p -> no_own_panic p.
Proof.
  induction 1 as [|l s s' Hs IH Hstep]; intros t' q Hq.
  - cbn in Hq. now rewrite lookup_nil in Hq.
  - pose proof (reach_step rpc range l s s' Hs Hstep) as Hs'.
    destruct (reachable_reg_inv rpc range range_visits_all s Hs) as [Hmutex Hinv].
    destruct (reachable_reg_inv rpc range range_visits_all s' Hs') as [_ Hinv'].
    destruct l as [k|t d]; cbn in Hstep.
    + injection Hstep as <-. cbn in Hq.
      apply lookup_app_Some in Hq as [Hq|[_ Hq]]; [exact (IH _ _ Hq)|].
      apply list_lookup_singleton_Some in Hq as [_ <-]. exact I.
    + destruct (threads s !! t) as [p|] eqn:Ht; [|discriminate].
      destruct (Conc.step_pc rpc range d p (world s)) as [[p' w']|] eqn:Hpc;
        [|discriminate].
      injection Hstep as <-. cbn in Hq.
      destruct (thread_after _ _ _ _ _ Hq) as [[-> ->]|[_ Hq']]; [|exact (IH _ _ Hq')].
      apply (panics_step s t d p p' w' Hinv Hmutex Ht (IH _ _ Ht) Hpc).
      apply (ri_loops _ Hinv' t p'). cbn. exact (thread_moved _ _ _ _ Ht).
Qed.

Lemma Lock_panic_nil c w msg w' :
  Lock c w = Panicked msg w' -> msg = nil_deref /\ w' = w /\ clients w !! c = None.
Proof.
  unfold Lock. destruct (clients w !! c) as [cl|]; [|intros [= <- <-]; auto].
  destruct (lock cl); discriminate.
Qed.

Lemma assign_panic_nil c f w msg w' :
  assign c f w = Panicked msg w' -> msg = nil_deref /\ w' = w /\ clients w !! c = None.
Proof.
  destruct (clients w !! c) as [cl|] eqn:Hc.
  - now rewrite (assign_Some _ _ _ _ Hc).
  - rewrite (assign_None _ _ _ Hc). intros [= <- <-]. auto.
Qed.

(** However the goroutines interleave, the statements of the client
    themselves panic in one way only: [Lock] or the write of [Status]
    finds that the pointer the method was called on is no client, a nil
    dereference that changes nothing.  No goroutine unlocks a free
    mutex, sends on or closes a closed channel or writes to a nil map;
    the body of [RegisterReConnectNotify] never panics; and a panic that
    comes out of a forwarded call is passed on only after the deferred
    [Unlock] has run.  So no panic leaves a mutex locked. *)
Theorem no_panic_leaves_mutex_locked
  (s : cstate) (t : nat) (p : pc)
  (Hs : reachable s) (Ht : threads s !! t = Some p) :
  no_own_panic p
  /\ forall d p' w',
       step_pc d p (world s) = Some (p', w') ->
       (forall c r, p' = RegUnlock c r -> exists ch, r = inl ch)
       /\ (forall held msg, p' = Crashed held msg ->
             held = None
             /\ ((msg = nil_deref /\ w' = world s
                  /\ exists c, target p = Some c /\ clients (world s) !! c = None)
                 \/ (exists c, p = WrapUnlock c (inr msg)
                       /\ lock_of (world s) c = Some true
                       /\ lock_of w' c = Some false))).
Proof.
  pose proof (reachable_panics s Hs t p Ht) as Hp.
  split; [exact Hp|]. intros d p' w' Hstep.
  pose proof (step_of s t d p p' w' Ht Hstep) as Hmove.
  pose proof (reach_step rpc range _ s _ Hs Hmove) as Hs'.
  pose proof (reachable_panics _ Hs' t p') as Hp'. cbn [threads] in Hp'.
  specialize (Hp' (thread_moved _ _ _ _ Ht)).
  split; [intros c r ->; destruct r as [ch|msg]; [eauto | destruct Hp']|].
  intros held msg ->. cbn in Hp'. subst held. split; [reflexivity|].
  destruct (reachable_reg_inv rpc range range_visits_all s Hs) as [Hmutex Hinv].
  destruct p as [[rawurl|c0 name|c0|c0 m a|ch]|c0 name|c0 r|c0 m a|c0 r|c0|c0 client
                 |c0 client|c0 client|c0|c0 entries keys|c0 keys|c0|r|held msg'];
    cbn [Conc.step_pc] in Hstep.
  - apply exec_cases in Hstep as [(a & Hm & [=])|(msg' & Hm & [= <-])].
    pose proof (NewSafeClient_spec rawurl d (world s)) as Hn. cbn zeta in Hn.
    rewrite Hn in Hm. now destruct d.
  - apply exec_cases in Hstep as [(a & Hm & [=])|(msg' & Hm & [= <-])].
    destruct (Lock_panic_nil _ _ _ _ Hm) as (-> & -> & Hc). left. eauto.
  - apply exec_cases in Hstep as [(a & Hm & [=])|(msg' & Hm & [= <-])].
    destruct (assign_panic_nil _ _ _ _ _ Hm) as (-> & -> & Hc). left. eauto.
  - apply exec_cases in Hstep as [(a0 & Hm & [=])|(msg' & Hm & [= <-])].
    destruct (Lock_panic_nil _ _ _ _ Hm) as (-> & -> & Hc). left. eauto.
  - apply exec_cases in Hstep as [(a & Hm & [=])|(msg' & Hm & [= <-])].
    exfalso. unfold chan_recv in Hm.
    destruct (chans (world s) !! ch) as [st|]; [|discriminate].
    destruct (buffered st); [destruct (closed st)|]; discriminate.
  - now apply exec_deferred_cases in Hstep as [(a & Hm & [=])|(msg' & Hm & [=])].
  - destruct (Unlock_returns s t _ c0 Hmutex Ht eq_refl) as (w1 & Hu & _).
    apply exec_cases in Hstep as [(a & Hm & Hk)|(msg' & Hm & _)]; [|congruence].
    destruct r as [ch|msg']; [discriminate | destruct Hp].
  - now apply exec_deferred_cases in Hstep as [(a0 & Hm & [=])|(msg' & Hm & [=])].
  - destruct (Unlock_returns s t _ c0 Hmutex Ht eq_refl) as (w1 & Hu & Hfree).
    apply exec_cases in Hstep as [(a & Hm & Hk)|(msg' & Hm & _)]; [|congruence].
    destruct r as [x|msg']; [discriminate|]. injection Hk as <-.
    right. exists c0. split; [reflexivity|].
    split; [exact (held_locked s Hmutex t _ c0 Ht eq_refl)|]. congruence.
  - destruct d; discriminate.
  - apply exec_cases in Hstep as [(a & Hm & [=])|(msg' & Hm & [= <-])].
    destruct (assign_panic_nil _ _ _ _ _ Hm) as (-> & -> & Hc). left. eauto.
  - apply exec_cases in Hstep as [(a & Hm & [=])|(msg' & Hm & [= <-])].
    destruct (Lock_panic_nil _ _ _ _ Hm) as (-> & -> & Hc). left. eauto.
  - now apply exec_cases in Hstep as [(a & Hm & [=])|(msg' & Hm & [=])].
  - now apply exec_cases in Hstep as [(a & Hm & [=])|(msg' & Hm & [=])].
  - destruct entries as [|[name ch] rest]; [discriminate|].
    now apply exec_cases in Hstep as [(a & Hm & [=])|(msg' & Hm & [=])].
  - destruct keys as [|name rest]; [discriminate|].
    now apply exec_cases in Hstep as [(a & Hm & [=])|(msg' & Hm & [=])].
  - destruct (Unlock_returns s t _ c0 Hmutex Ht eq_refl) as (w1 & Hu & _).
    apply exec_cases in Hstep as [(a & Hm & [=])|(msg' & Hm & _)]. congruence.
  - discriminate.
  - discriminate.
Qed.

(** ** A mutex is always given back *)

Local Abbreviation gives_back := (Conc.gives_back rpc range).

Lemma gives_back_step t d c (s s1 : cstate) :
  step (Run t d) s = Some s1 -> gives_back t d c s1 -> gives_back t d c s.
Proof.
  intros Hstep (n & s' & Hrun & H). exists (S n), s'.
  split; [|exact H]. unfold alone. cbn [repeat Conc.run]. now rewrite Hstep.
Qed.

(** The [Unlock] that ends a section. *)
Lemma unlock_gives_back (s : cstate) t d c p (k : unit -> pc) :
  mutex_inv s -> threads s !! t = Some p -> holds p = Some c ->
  step_pc d p (world s) = exec None (Unlock c) k (world s) ->
  (forall a, holds (k a) = None) ->
  gives_back t d c s.
Proof.
  intros Hmutex Ht Hp Hpc Hk.
  destruct (Unlock_returns s t p c Hmutex Ht Hp) as (w' & Hu & Hl).
  unfold exec in Hpc. rewrite Hu in Hpc.
  exists 1, (mkCState w' (<[t := k tt]> (threads s))).
  split; [|split].
  - unfold alone. cbn [repeat Conc.run]. now rewrite (step_of s t d p _ _ Ht Hpc).
  - exists (k tt). split; [cbn; exact (thread_moved _ _ _ _ Ht) | apply Hk].
  - exact Hl.
Qed.

Lemma RecUnlock_gives_back (s : cstate) t d c :
  reachable s -> threads s !! t = Some (RecUnlock c) -> gives_back t d c s.
Proof.
  intros Hs Ht.
  destruct (reachable_reg_inv rpc range range_visits_all s Hs) as [Hmutex _].
  now apply (unlock_gives_back s t d c _ (fun _ => Done RetUnit) Hmutex Ht).
Qed.

Lemma RecRetire_gives_back t d c keys :
  forall s : cstate,
    reachable s -> threads s !! t = Some (RecRetire c keys) -> gives_back t d c s.
Proof.
  induction keys as [|n rest IH]; intros s Hs Ht.
  - assert (Hstep : step (Run t d) s
                    = Some (mkCState (world s) (<[t := RecUnlock c]> (threads s))))
      by now apply (step_of s t d _ _ _ Ht).
    apply (gives_back_step t d c s _ Hstep).
    apply RecUnlock_gives_back;
      [exact (reach_step rpc range _ s _ Hs Hstep) | cbn; exact (thread_moved _ _ _ _ Ht)].
  - destruct (reachable_reg_inv rpc range range_visits_all s Hs) as [Hmutex Hinv].
    destruct (held_client s t _ c Hinv Hmutex Ht eq_refl) as (cl & m & Hc & Hm).
    assert (Hpc : exists w',
               step_pc d (RecRetire c (n :: rest)) (world s)
               = Some (RecRetire c rest, w')).
    { cbn [Conc.step_pc]. unfold exec, map_delete, bind.
      rewrite (load_Some _ _ _ Hc), Hm. cbn. eauto. }
    destruct Hpc as (w' & Hpc).
    pose proof (step_of s t d _ _ _ Ht Hpc) as Hstep.
    apply (gives_back_step t d c s _ Hstep).
    apply IH;
      [exact (reach_step rpc range _ s _ Hs Hstep) | cbn; exact (thread_moved _ _ _ _ Ht)].
Qed.

Lemma RecNotify_gives_back t d c entries :
  forall keys (s : cstate),
    reachable s -> threads s !! t = Some (RecNotify c entries keys) ->
    gives_back t d c s.
Proof.
  induction entries as [|[n ch] rest IH]; intros keys s Hs Ht.
  - assert (Hstep : step (Run t d) s
                    = Some (mkCState (world s) (<[t := RecRetire c keys]> (threads s))))
      by now apply (step_of s t d _ _ _ Ht).
    apply (gives_back_step t d c s _ Hstep).
    apply (RecRetire_gives_back t d c keys);
      [exact (reach_step rpc range _ s _ Hs Hstep) | cbn; exact (thread_moved _ _ _ _ Ht)].
  - destruct (reachable_reg_inv rpc range range_visits_all s Hs) as [_ Hinv].
    destruct (notify_step rpc range s t d c n ch rest keys Hinv Ht) as [_ Hstep].
    apply (gives_back_step t d c s _ Hstep).
    apply (IH (keys ++ [n]));
      [exact (reach_step rpc range _ s _ Hs Hstep) | cbn; exact (thread_moved _ _ _ _ Ht)].
Qed.

Lemma RecRange_gives_back (s : cstate) t d c :
  reachable s -> threads s !! t = Some (RecRange c) -> gives_back t d c s.
Proof.
  intros Hs Ht.
  destruct (reachable_reg_inv rpc range range_visits_all s Hs) as [Hmutex Hinv].
  destruct (held_client s t _ c Hinv Hmutex Ht eq_refl) as (cl & m & Hc & Hm).
  assert (Hpc : step_pc d (RecRange c) (world s)
                = Some (RecNotify c (entries_of range (ReConnect cl)) [], world s)).
  { cbn [Conc.step_pc]. unfold exec. now rewrite (load_Some _ _ _ Hc). }
  pose proof (step_of s t d _ _ _ Ht Hpc) as Hstep.
  apply (gives_back_step t d c s _ Hstep).
  apply (RecNotify_gives_back t d c (entries_of range (ReConnect cl)) []);
    [exact (reach_step rpc range _ s _ Hs Hstep) | cbn; exact (thread_moved _ _ _ _ Ht)].
Qed.

Lemma RecSwap_gives_back (s : cstate) t d c client :
  reachable s -> threads s !! t = Some (RecSwap c client) -> gives_back t d c s.
Proof.
  intros Hs Ht.
  destruct (reachable_reg_inv rpc range range_visits_all s Hs) as [Hmutex Hinv].
  destruct (held_client s t _ c Hinv Hmutex Ht eq_refl) as (cl & m & Hc & Hm).
  assert (Hpc : exists w',
             step_pc d (RecSwap c client) (world s) = Some (RecRange c, w')).
  { cbn [Conc.step_pc]. unfold exec. rewrite (assign_Some _ _ _ _ Hc). eauto. }
  destruct Hpc as (w' & Hpc).
  pose proof (step_of s t d _ _ _ Ht Hpc) as Hstep.
  apply (gives_back_step t d c s _ Hstep).
  apply RecRange_gives_back;
    [exact (reach_step rpc range _ s _ Hs Hstep) | cbn; exact (thread_moved _ _ _ _ Ht)].
Qed.

(** The body of a function that has deferred its [Unlock], then the
    [Unlock]. *)
Lemma deferred_gives_back (s : cstate) t d c p (q : pc) w' (k : unit -> pc) :
  reachable s -> threads s !! t = Some p ->
  step_pc d p (world s) = Some (q, w') -> holds q = Some c ->
  (forall w0, step_pc d q w0 = exec None (Unlock c) k w0) ->
  (forall a, holds (k a) = None) ->
  gives_back t d c s.
Proof.
  intros Hs Ht Hpc Hq Hnext Hk.
  pose proof (step_of s t d _ _ _ Ht Hpc) as Hstep.
  apply (gives_back_step t d c s _ Hstep).
  pose proof (reach_step rpc range _ s _ Hs Hstep) as Hs1.
  destruct (reachable_reg_inv rpc range range_visits_all _ Hs1) as [Hmutex1 _].
  apply (unlock_gives_back _ t d c q k Hmutex1);
    [cbn; exact (thread_moved _ _ _ _ Ht) | exact Hq | apply Hnext | exact Hk].
Qed.

(** Under the mutex the client's own statements never wait: a goroutine
    that holds the mutex of a client and does not stand at the
    forwarded call into the library comes out of its section, left to
    run alone, in finitely many moves, with the mutex free again.  The
    body of [RegisterReConnectNotify], the swap and the two loops of
    [RecoverDisconnect] (whose sends find room in every channel) and
    the deferred [Unlock] of a wrapper all go through.  How long the
    forwarded call itself takes is up to the library and the node. *)
Theorem mutex_given_back_by_own_code
  (s : cstate) (t : nat) (d : dial_result) (p : pc) (c : ptr)
  (Hs : reachable s)
  (Ht : threads s !! t = Some p)
  (Hp : holds p = Some c)
  (Hown : at_library_call p = false) :
  exists n s',
    run (alone t d n) s = Some s'
    /\ (exists p', threads s' !! t = Some p' /\ holds p' = None)
    /\ lock_of (world s') c = Some false.
Proof.
  change (gives_back t d c s).
  destruct (reachable_reg_inv rpc range range_visits_all s Hs) as [Hmutex Hinv].
  destruct (held_client s t p c Hinv Hmutex Ht Hp) as (cl & m & Hc & Hm).
  pose proof (ri_loops s Hinv t p Ht) as Hok.
  destruct p as [k|c0 name|c0 r|c0 m0 a|c0 r|c0|c0 client
                 |c0 client|c0 client|c0|c0 entries keys|c0 keys|c0|r|held msg];
    cbn [holds] in Hp; try discriminate; try (injection Hp as ->).
  - destruct (register_body_returns name c (world s) cl m Hc Hm) as (ch & w' & Hb).
    eapply (deferred_gives_back s t d c _ (RegUnlock c (inl ch)) w'
              (fun _ => Done (RetChan ch)) Hs Ht); try reflexivity.
    cbn [Conc.step_pc]. unfold exec_deferred. now rewrite Hb.
  - destruct r as [ch|msg];
      now apply (unlock_gives_back s t d c _ _ Hmutex Ht eq_refl eq_refl).
  - destruct r as [x|msg];
      now apply (unlock_gives_back s t d c _ _ Hmutex Ht eq_refl eq_refl).
  - exact (RecSwap_gives_back s t d c client Hs Ht).
  - exact (RecRange_gives_back s t d c Hs Ht).
  - exact (RecNotify_gives_back t d c entries keys s Hs Ht).
  - exact (RecRetire_gives_back t d c keys s Hs Ht).
  - exact (RecUnlock_gives_back s t d c Hs Ht).
  - subst held. destruct Hok.
Qed.

End ConcMore.

(** * Part XIII: more statements about goroutines on a schedule *)
Section MoreSchedules.
Import Safe Conc Samples.

Lemma call_unconnected_runs :
  run echo_rpc map_to_list call_unconnected init = Some (state_after call_unconnected).
Proof. vm_compute. reflexivity. Qed.

Lemma call_unconnected_reachable :
  reachable echo_rpc map_to_list (state_after call_unconnected).
Proof.
  exact (run_reachable echo_rpc map_to_list call_unconnected init _
           (reach_init echo_rpc map_to_list) call_unconnected_runs).
Qed.

Example call_unconnected_threads :
  threads (state_after call_unconnected)
  = [ Done (RetNew 0 (Some "connection refused")); Crashed None nil_deref ].
Proof. vm_compute. reflexivity. Qed.

Lemma url_is_the_one_given_witness :
  url <$> clients (world (state_after call_while_dialing)) !! 0
  = Some "ws://127.0.0.1:8546".
Proof.
  edestruct (url_is_the_one_given echo_rpc map_to_list
               (state_after [Go (CallNew "ws://127.0.0.1:8546")])
               (state_after [Go (CallNew "ws://127.0.0.1:8546"); Run 0 (inl 5)])
               (state_after call_while_dialing)
               0 (inl 5) "ws://127.0.0.1:8546"
               [Go (CallRecover 0); Run 1 (inl 0); Run 1 (inr "connection refused");
                Go (CallWrapper 0 BlockByHash tt)])
    as (c & err & cl & cl' & Hth & _ & _ & _ & Hc' & Hu).
  - vm_compute. reflexivity.
  - vm_compute. reflexivity.
  - vm_compute. reflexivity.
  - assert (E : Some (Done (RetNew c err))
                = Some (@Done unit (conn * method) (RetNew 0 None))).
    { rewrite <- Hth. vm_compute. reflexivity. }
    injection E as -> _. rewrite Hc'. cbn. now rewrite Hu.
Defined.

Lemma channels_never_shared_witness :
  exists st, chans (world (state_after until_notify)) !! 1 = Some st /\ cap st = 1.
Proof.
  refine (proj2 (proj2 (channels_never_shared echo_rpc map_to_list
                          map_to_list_visits_all (state_after until_notify)
                          0 0 "chain" "chain" 1 until_notify_reachable _ _)));
    (eexists _, _; split; [vm_compute; reflexivity|]; split; [reflexivity|];
     vm_compute; reflexivity).
Defined.

Lemma no_panic_leaves_mutex_locked_witness :
  no_own_panic (@Crashed unit (conn * method) None nil_deref).
Proof.
  refine (proj1 (no_panic_leaves_mutex_locked echo_rpc map_to_list
                   map_to_list_visits_all (state_after call_unconnected) 1 _
                   call_unconnected_reachable _)).
  vm_compute. reflexivity.
Defined.

Lemma mutex_given_back_by_own_code_witness :
  exists n s',
    run echo_rpc map_to_list (alone 3 (inl 0) n) (state_after until_notify) = Some s'
    /\ lock_of (world s') 0 = Some false.
Proof.
  edestruct (mutex_given_back_by_own_code echo_rpc map_to_list map_to_list_visits_all
               (state_after until_notify) 3 (inl 0)
               (RecNotify 0 [("chain", 1); ("alarm", 0)] []) 0)
    as (n & s' & Hrun & _ & Hl).
  - exact until_notify_reachable.
  - vm_compute. reflexivity.
  - reflexivity.
  - reflexivity.
  - exists n, s'. split; [exact Hrun | exact Hl].
Defined.

End MoreSchedules.
